(** * Subscription polling backend: model of the reconciliation engine

    A shallow embedding of the TypeScript sources of the Twitter agent
    backend ([src/models.ts], [src/twitter-service.ts], [src/server.ts]) and
    the properties of its subscription polling logic.

    Conventions of the model:
    - a JS string is a Rocq [string], read as a sequence of code units below
      256 (the Latin-1 range of JS strings);
    - a [Date] is the number of milliseconds since the epoch, in [Z];
    - a Mongo [ObjectId] is a [nat];
    - an [async] method is a function from the state of the database and the
      clock to the outcome (a value or a thrown error) and the state it
      leaves behind; a thrown error keeps the writes made before it;
    - the remote API client and the writes of concurrently running tasks are
      parameters ([TwitterApi], [Scheduler]);
    - the bookkeeping of Mongoose ([createdAt], [updatedAt], [__v], the [_id]
      of a post) and the activity log are not part of the model. *)

From Stdlib Require Import ZArith NArith Ascii String List Bool Lia.
From stdpp Require Import base tactics option list strings gmap.
Import ListNotations.

Open Scope string_scope.
Open Scope list_scope.
Open Scope Z_scope.

(** ** JS strings *)

Module Js.

Definition code (c : ascii) : N := N_of_ascii c.

Definition between (lo hi n : N) : bool := ((lo <=? n) && (n <=? hi))%N.

(** [Canonicalize] of the RegExp semantics without the [u] flag: the code
    unit of [toUpperCase], on the Latin-1 range. *)
Definition canonicalize (c : ascii) : ascii :=
  let n := code c in
  if between 97 122 n || (between 224 254 n && negb (n =? 247)%N)
  then ascii_of_N (n - 32) else c.

(** [String.prototype.toLowerCase] on one code unit. *)
Definition lower (c : ascii) : ascii :=
  let n := code c in
  if between 65 90 n || (between 192 222 n && negb (n =? 215)%N)
  then ascii_of_N (n + 32) else c.

(** White space and line terminators removed by [trim]. *)
Definition is_space (c : ascii) : bool :=
  let n := code c in between 9 13 n || (n =? 32)%N || (n =? 160)%N.

Definition chars (s : string) : list ascii := list_ascii_of_string s.
Definition str (l : list ascii) : string := string_of_list_ascii l.

Definition toLowerCase (s : string) : string := str (map lower (chars s)).

Fixpoint trimStart (l : list ascii) : list ascii :=
  match l with
  | c :: l' => if is_space c then trimStart l' else l
  | [] => []
  end.

Definition trim (s : string) : string :=
  str (rev (trimStart (rev (trimStart (chars s))))).

Fixpoint startsWith (l p : list ascii) : bool :=
  match p, l with
  | [], _ => true
  | _ :: _, [] => false
  | a :: p', b :: l' => if Ascii.eqb a b then startsWith l' p' else false
  end.

Fixpoint includes_chars (l p : list ascii) : bool :=
  startsWith l p ||
  match l with
  | [] => false
  | _ :: l' => includes_chars l' p
  end.

(** [String.prototype.includes]. *)
Definition includes (s sub : string) : bool := includes_chars (chars s) (chars sub).

(** [Array.prototype.join]. *)
Fixpoint join (sep : string) (l : list string) : string :=
  match l with
  | [] => ""
  | [x] => x
  | x :: l' => x +:+ sep +:+ join sep l'
  end.

Definition nonEmpty (s : string) : bool :=
  match s with EmptyString => false | _ => true end.

End Js.

(** ** Regular expressions

    The fragment of the pattern language of [new RegExp(source, 'i')] that
    the model interprets: pattern characters, [.], alternation, capturing
    groups, the quantifiers [*], [+], [?] (greedy or lazy) and escaped
    syntax characters. A pattern that uses anything else is [Beyond] the
    fragment, and the model leaves its meaning to a parameter. *)

Module RegExp.

Inductive regex : Type :=
| Eps
| Class (p : ascii -> bool)
| Cat (r1 r2 : regex)
| Alt (r1 r2 : regex)
| Star (r : regex).

Definition Plus (r : regex) : regex := Cat r (Star r).
Definition Opt (r : regex) : regex := Alt r Eps.

(** A pattern character: under the [i] flag two code units match when
    their canonical forms are equal. *)
Definition lit (ignoreCase : bool) (c : ascii) : regex :=
  Class (fun d =>
    if ignoreCase then Ascii.eqb (Js.canonicalize d) (Js.canonicalize c)
    else Ascii.eqb d c).

(** [.] matches any code unit that is not a line terminator. *)
Definition dot : regex :=
  Class (fun d => negb ((Js.code d =? 10)%N || (Js.code d =? 13)%N)).

Definition isSyntaxChar (c : ascii) : bool :=
  existsb (Ascii.eqb c)
    ["^"; "$"; "\"; "."; "*"; "+"; "?"; "("; ")"; "["; "]"; "{"; "}"; "|"]%char.

(** What the last term of the alternative being read allows next. *)
Inductive last_term : Type := NoTerm | Atom | Quantified | QuantifiedLazy.

(** A disjunction being read: the alternatives already closed by [|] and
    the terms of the current one, both most recent first. *)
Record frame : Type := mkFrame {
  alts : list regex;
  terms : list regex;
  last : last_term
}.

Definition emptyFrame : frame := mkFrame [] [] NoTerm.

Definition sequence (ts : list regex) : regex :=
  fold_left (fun acc t => Cat t acc) ts Eps.

Definition disjunction (f : frame) : regex :=
  fold_left (fun acc a => Alt a acc) (alts f) (sequence (terms f)).

Definition pushAtom (r : regex) (f : frame) : frame :=
  mkFrame (alts f) (r :: terms f) Atom.

Definition closeAlternative (f : frame) : frame :=
  mkFrame (sequence (terms f) :: alts f) [] NoTerm.

Definition quantify (q : regex -> regex) (f : frame) : option frame :=
  match last f, terms f with
  | Atom, t :: ts => Some (mkFrame (alts f) (q t :: ts) Quantified)
  | _, _ => None
  end.

Inductive outcome : Type :=
| Pattern (r : regex)
| SyntaxErr
| Beyond.

(** The parser: [cur] is the disjunction being read, [outer] the ones
    suspended by an open parenthesis. *)
Fixpoint parse (ignoreCase : bool) (cs : list ascii)
    (cur : frame) (outer : list frame) : outcome :=
  match cs with
  | [] =>
      match outer with
      | [] => Pattern (disjunction cur)
      | _ :: _ => SyntaxErr
      end
  | c :: rest =>
      if Ascii.eqb c "\" then
        match rest with
        | [] => SyntaxErr
        | d :: rest' =>
            if isSyntaxChar d || Ascii.eqb d "/"
            then parse ignoreCase rest' (pushAtom (lit ignoreCase d) cur) outer
            else Beyond
        end
      else if Ascii.eqb c "(" then
        parse ignoreCase rest emptyFrame (cur :: outer)
      else if Ascii.eqb c ")" then
        match outer with
        | [] => SyntaxErr
        | parent :: outer' =>
            parse ignoreCase rest (pushAtom (disjunction cur) parent) outer'
        end
      else if Ascii.eqb c "|" then
        parse ignoreCase rest (closeAlternative cur) outer
      else if Ascii.eqb c "*" then
        match quantify Star cur with
        | Some f => parse ignoreCase rest f outer
        | None => SyntaxErr
        end
      else if Ascii.eqb c "+" then
        match quantify Plus cur with
        | Some f => parse ignoreCase rest f outer
        | None => SyntaxErr
        end
      else if Ascii.eqb c "?" then
        match last cur with
        | Atom =>
            match quantify Opt cur with
            | Some f => parse ignoreCase rest f outer
            | None => SyntaxErr
            end
        | Quantified =>
            parse ignoreCase rest
              (mkFrame (alts cur) (terms cur) QuantifiedLazy) outer
        | QuantifiedLazy => SyntaxErr
        | NoTerm =>
            match alts cur, terms cur, outer with
            | [], [], _ :: _ => Beyond
            | _, _, _ => SyntaxErr
            end
        end
      else if Ascii.eqb c "." then
        parse ignoreCase rest (pushAtom dot cur) outer
      else if isSyntaxChar c then Beyond
      else parse ignoreCase rest (pushAtom (lit ignoreCase c) cur) outer
  end.

Definition compile (ignoreCase : bool) (source : string) : outcome :=
  parse ignoreCase (Js.chars source) emptyFrame [].

(** Matching by derivatives. *)
Fixpoint nullable (r : regex) : bool :=
  match r with
  | Eps => true
  | Class _ => false
  | Cat r1 r2 => nullable r1 && nullable r2
  | Alt r1 r2 => nullable r1 || nullable r2
  | Star _ => true
  end.

(** [None] is the empty language. *)
Fixpoint deriv (c : ascii) (r : regex) : option regex :=
  match r with
  | Eps => None
  | Class p => if p c then Some Eps else None
  | Cat r1 r2 =>
      let left := (fun d => Cat d r2) <$> deriv c r1 in
      if nullable r1 then
        match left, deriv c r2 with
        | Some a, Some b => Some (Alt a b)
        | Some a, None => Some a
        | None, o => o
        end
      else left
  | Alt r1 r2 =>
      match deriv c r1, deriv c r2 with
      | Some a, Some b => Some (Alt a b)
      | Some a, None => Some a
      | None, o => o
      end
  | Star r1 => (fun d => Cat d (Star r1)) <$> deriv c r1
  end.

(** Does a match of [r] start at the beginning of [s]? *)
Fixpoint matchesAtStart (r : regex) (s : list ascii) : bool :=
  nullable r ||
  match s with
  | [] => false
  | c :: s' =>
      match deriv c r with
      | Some d => matchesAtStart d s'
      | None => false
      end
  end.

(** [RegExp.prototype.test] without the [g] and [y] flags: try every
    start index from the left. *)
Fixpoint search (r : regex) (s : list ascii) : bool :=
  matchesAtStart r s ||
  match s with
  | [] => false
  | _ :: s' => search r s'
  end.

Definition test (r : regex) (text : string) : bool := search r (Js.chars text).

End RegExp.

(** ** Errors and asynchronous methods *)

(** A thrown value: the [code] and [message] the handlers read. *)
Record JsError : Type := mkError {
  errName : string;
  errCode : option Z;
  errMessage : string
}.

(** [new Error(message)]. *)
Definition Error (message : string) : JsError := mkError "Error" None message.

Definition TypeError (message : string) : JsError := mkError "TypeError" None message.

Definition SyntaxError (message : string) : JsError := mkError "SyntaxError" None message.

Definition ValidationError (path : string) : JsError :=
  mkError "ValidationError" None ("Validation failed: " +:+ path).

(** The rejection of an insert by a unique index (E11000). *)
Definition DuplicateKey (key : string) : JsError :=
  mkError "MongoServerError" (Some 11000) ("E11000 duplicate key error: " +:+ key).

(** [error.code === c]. *)
Definition hasCode (c : Z) (e : JsError) : bool :=
  match errCode e with
  | Some c' => c' =? c
  | None => false
  end.

Definition isDuplicateKey (e : JsError) : bool := hasCode 11000 e.

Inductive Result (A : Type) : Type :=
| Ok (a : A)
| Throw (e : JsError).
Arguments Ok {A} a.
Arguments Throw {A} e.

Definition ObjectId : Type := nat.
Definition Date : Type := Z.

(** ** The documents ([models.ts]) *)

Module TwitterCredentials.
Record t : Type := mk {
  apiKey : string;
  apiSecret : string;
  accessToken : string;
  accessTokenSecret : string
}.
End TwitterCredentials.

Module IUser.
Record t : Type := mk {
  _id : ObjectId;
  email : string;
  password : string;
  isActive : bool;
  twitterUsername : option string;
  twitterCredentials : option TwitterCredentials.t
}.
End IUser.

Module ISubscription.
Record t : Type := mk {
  _id : ObjectId;
  userId : ObjectId;
  targetUsername : string;
  isActive : bool;
  checkInterval : Z;
  lastChecked : Date;
  keywords : list string;
  includeReplies : bool;
  includeRetweets : bool
}.

Definition setLastChecked (d : Date) (s : t) : t :=
  mk (_id s) (userId s) (targetUsername s) (isActive s) (checkInterval s) d
     (keywords s) (includeReplies s) (includeRetweets s).

Definition setIsActive (b : bool) (s : t) : t :=
  mk (_id s) (userId s) (targetUsername s) b (checkInterval s) (lastChecked s)
     (keywords s) (includeReplies s) (includeRetweets s).
End ISubscription.

Module Engagement.
Record t : Type := mk {
  likes : Z;
  retweets : Z;
  replies : Z;
  quotes : Z
}.
End Engagement.

Module IPost.
Record t : Type := mk {
  tweetId : string;
  subscriptionId : ObjectId;
  userId : ObjectId;
  content : string;
  authorUsername : string;
  authorName : option string;
  authorAvatar : option string;
  engagement : Engagement.t;
  mediaUrls : list string;
  isRead : bool;
  tweetCreatedAt : option Date;
  tweetUrl : string;
  isReply : bool;
  isRetweet : bool;
  retweetedFrom : option string;
  hashtags : list string;
  mentions : list string
}.
End IPost.

(** ** The remote API ([twitter-api-v2]) *)

Module UserV2.
Record t : Type := mk {
  id : string;
  name : string;
  profile_image_url : option string
}.
End UserV2.

Module PublicMetrics.
Record t : Type := mk {
  retweet_count : Z;
  like_count : Z;
  reply_count : Z;
  quote_count : option Z
}.
End PublicMetrics.

Module UrlEntity.
Record t : Type := mk { expanded_url : string; display_url : string }.
End UrlEntity.

Module Entities.
Record t : Type := mk {
  urls : option (list UrlEntity.t);
  hashtags : option (list string);
  mentions : option (list string)
}.
End Entities.

Module ReferencedTweet.
Record t : Type := mk { type : string; id : string }.
End ReferencedTweet.

(** A tweet of the timeline. [created_at] is the instant its timestamp
    string denotes, [None] when [new Date] cannot read the string. *)
Module TweetData.
Record t : Type := mk {
  id : string;
  text : string;
  author_id : string;
  created_at : option Date;
  public_metrics : PublicMetrics.t;
  attachments : option (list string);
  entities : option Entities.t;
  referenced_tweets : option (list ReferencedTweet.t)
}.
End TweetData.

(** The parameters of a timeline request that vary ([tweet.fields],
    [media.fields] and [expansions] are constants). *)
Module TimelineParams.
Record t : Type := mk {
  max_results : Z;
  exclude : list string;
  start_time : option Date
}.
End TimelineParams.

(** The client of one user. A call either throws the error of the client
    or answers with the [data] of the response, which may be missing.
    [latency] is the time a call takes, in milliseconds. [regexpBeyond] is
    what the JS engine makes of a pattern outside the modelled fragment:
    [None] when it rejects the pattern, otherwise its [test]. *)
Record TwitterApi : Type := mkApi {
  userByUsername : string -> JsError + option UserV2.t;
  userTimeline : string -> TimelineParams.t -> JsError + option (list TweetData.t);
  latency : N;
  regexpBeyond : string -> option (string -> bool)
}.

(** The two builds of the service differ in three constants: the compiled
    JS asks for two tweets, the TypeScript source for fifty. *)
Record Build : Type := mkBuild {
  defaultMaxResults : Z;
  apiLimit : Z;
  subscriptionMaxResults : Z
}.

Definition tsBuild : Build := mkBuild 10 100 50.
Definition distBuild : Build := mkBuild 2 2 2.

(** ** The state: the collections and the clock *)

Record World : Type := mkWorld {
  posts : list IPost.t;
  subscriptions : list ISubscription.t;
  users : list IUser.t;
  clock : Date
}.

Definition withPosts (ps : list IPost.t) (w : World) : World :=
  mkWorld ps (subscriptions w) (users w) (clock w).

Definition withSubscriptions (ss : list ISubscription.t) (w : World) : World :=
  mkWorld (posts w) ss (users w) (clock w).

Definition withClock (c : Date) (w : World) : World :=
  mkWorld (posts w) (subscriptions w) (users w) c.

Definition Async (A : Type) : Type := World -> Result A * World.

Definition ret {A : Type} (a : A) : Async A := fun w => (Ok a, w).

Definition throw {A : Type} (e : JsError) : Async A := fun w => (Throw e, w).

Definition bind {A B : Type} (m : Async A) (k : A -> Async B) : Async B :=
  fun w =>
    match m w with
    | (Ok a, w') => k a w'
    | (Throw e, w') => (Throw e, w')
    end.

(** [try { m } catch (error) { handler }]. *)
Definition tryCatch {A : Type} (m : Async A) (handler : JsError -> Async A) : Async A :=
  fun w =>
    match m w with
    | (Ok a, w') => (Ok a, w')
    | (Throw e, w') => handler e w'
    end.

Notation "'let*' x ':=' m 'in' k" := (bind m (fun x => k))
  (at level 10, x name, m at level 100, k at level 200).

Definition get : Async World := fun w => (Ok w, w).

Definition modify (f : World -> World) : Async unit := fun w => (Ok tt, f w).

(** [new Date()] and [Date.now()]. *)
Definition now : Async Date := fun w => (Ok (clock w), w).

(** Time passing while a call is awaited. *)
Definition elapse (ms : N) : Async unit :=
  modify (fun w => withClock (clock w + Z.of_N ms) w).

(** What a task meets while it awaits. The writes of the tasks that run
    meanwhile: the rows they commit before the existence check of a tweet,
    and between that check and the save of its post. And the queries the
    database rejects: the error of [Subscription.find] for the subscriptions
    of a user, and of [User.find] for the users of the scheduled job, [None]
    when the query is answered. *)
Record Scheduler : Type := mkScheduler {
  beforeCheck : TweetData.t -> list IPost.t;
  beforeSave : TweetData.t -> list IPost.t;
  subscriptionsQuery : ObjectId -> option JsError;
  usersQuery : option JsError
}.

Definition sequential : Scheduler :=
  mkScheduler (fun _ => []) (fun _ => []) (fun _ => None) None.

(** ** The collections ([mongoose] models) *)

Module Post.

(** [Post.findOne({ tweetId })]. *)
Definition findOne (tweetId : string) : Async (option IPost.t) :=
  fun w => (Ok (find (fun p => String.eqb (IPost.tweetId p) tweetId) (posts w)), w).

(** [new Post(fields)]: the setters of the schema ([lowercase], [trim] on
    [authorUsername]) run on construction. *)
Definition create (f : IPost.t) : IPost.t :=
  IPost.mk (IPost.tweetId f) (IPost.subscriptionId f) (IPost.userId f)
    (IPost.content f) (Js.trim (Js.toLowerCase (IPost.authorUsername f)))
    (IPost.authorName f) (IPost.authorAvatar f) (IPost.engagement f)
    (IPost.mediaUrls f) (IPost.isRead f) (IPost.tweetCreatedAt f)
    (IPost.tweetUrl f) (IPost.isReply f) (IPost.isRetweet f)
    (IPost.retweetedFrom f) (IPost.hashtags f) (IPost.mentions f).

(** The validators of the schema: the first path that fails. *)
Definition validate (p : IPost.t) : option string :=
  if negb (Js.nonEmpty (IPost.tweetId p)) then Some "tweetId"
  else if negb (Js.nonEmpty (IPost.content p)) then Some "content"
  else if (5000 <? String.length (IPost.content p))%nat then Some "content"
  else if negb (Js.nonEmpty (IPost.authorUsername p)) then Some "authorUsername"
  else match IPost.tweetCreatedAt p with
       | Some _ => None
       | None => Some "tweetCreatedAt"
       end.

Definition hasTweetId (tweetId : string) (ps : list IPost.t) : bool :=
  existsb (fun q => String.eqb (IPost.tweetId q) tweetId) ps.

(** The insert, under the unique index on [tweetId]. *)
Definition insert (p : IPost.t) (ps : list IPost.t) : Result (list IPost.t) :=
  if hasTweetId (IPost.tweetId p) ps
  then Throw (DuplicateKey (IPost.tweetId p))
  else Ok (ps ++ [p]).

(** [post.save()] of a new document. *)
Definition save (p : IPost.t) : Async unit :=
  fun w =>
    match validate p with
    | Some path => (Throw (ValidationError path), w)
    | None =>
        match insert p (posts w) with
        | Ok ps => (Ok tt, withPosts ps w)
        | Throw e => (Throw e, w)
        end
    end.

(** The rows other tasks commit: each goes through the same index, and a
    rejected one is the other task's failure. *)
Definition commit (rows : list IPost.t) : Async unit :=
  modify (fun w =>
    withPosts
      (fold_left (fun ps r =>
         match insert r ps with Ok ps' => ps' | Throw _ => ps end)
         rows (posts w)) w).

End Post.

Module Subscription.

(** The setters of the schema: [lowercase] and [trim] on
    [targetUsername], [trim] on each keyword. *)
Definition create (f : ISubscription.t) : ISubscription.t :=
  ISubscription.mk (ISubscription._id f) (ISubscription.userId f)
    (Js.trim (Js.toLowerCase (ISubscription.targetUsername f)))
    (ISubscription.isActive f) (ISubscription.checkInterval f)
    (ISubscription.lastChecked f) (map Js.trim (ISubscription.keywords f))
    (ISubscription.includeReplies f) (ISubscription.includeRetweets f).

(** [required] on [targetUsername]; [min: 15], [max: 1440] on
    [checkInterval]. *)
Definition validate (s : ISubscription.t) : option string :=
  if negb (Js.nonEmpty (ISubscription.targetUsername s)) then Some "targetUsername"
  else if ISubscription.checkInterval s <? 15 then Some "checkInterval"
  else if 1440 <? ISubscription.checkInterval s then Some "checkInterval"
  else None.

Definition samePair (userId : ObjectId) (targetUsername : string)
    (s : ISubscription.t) : bool :=
  Nat.eqb (ISubscription.userId s) userId
  && String.eqb (ISubscription.targetUsername s) targetUsername.

(** [Subscription.findOne({ userId, targetUsername })]. *)
Definition findOne (userId : ObjectId) (targetUsername : string)
    : Async (option ISubscription.t) :=
  fun w => (Ok (find (samePair userId targetUsername) (subscriptions w)), w).

(** [Subscription.findOne({ _id, userId })]. *)
Definition findOwned (id userId : ObjectId) : Async (option ISubscription.t) :=
  fun w =>
    (Ok (find (fun s => Nat.eqb (ISubscription._id s) id
                        && Nat.eqb (ISubscription.userId s) userId)
           (subscriptions w)), w).

(** [Subscription.find({ userId, isActive: true })]; [rejection] is the
    error of the query when the database rejects it. *)
Definition findActive (rejection : option JsError) (userId : ObjectId)
    : Async (list ISubscription.t) :=
  fun w =>
    match rejection with
    | Some error => (Throw error, w)
    | None =>
        (Ok (List.filter (fun s => Nat.eqb (ISubscription.userId s) userId
                              && ISubscription.isActive s)
               (subscriptions w)), w)
    end.

(** Apply [f] to the first document that satisfies [sel]. *)
Fixpoint updateFirst (sel : ISubscription.t -> bool)
    (f : ISubscription.t -> ISubscription.t) (l : list ISubscription.t)
    : list ISubscription.t :=
  match l with
  | [] => []
  | s :: l' => if sel s then f s :: l' else s :: updateFirst sel f l'
  end.

(** [Subscription.findByIdAndUpdate(id, { lastChecked })]: no document
    with this id is no error. *)
Definition findByIdAndUpdate (id : ObjectId) (f : ISubscription.t -> ISubscription.t)
    : Async unit :=
  modify (fun w =>
    withSubscriptions
      (updateFirst (fun s => Nat.eqb (ISubscription._id s) id) f (subscriptions w)) w).

(** [Subscription.findOneAndUpdate({ _id, userId }, update, { new: true })]. *)
Definition findOneAndUpdate (id userId : ObjectId)
    (f : ISubscription.t -> ISubscription.t) : Async (option ISubscription.t) :=
  let* found := findOwned id userId in
  match found with
  | None => ret None
  | Some s =>
      let* _ := modify (fun w =>
        withSubscriptions
          (updateFirst (fun s' => Nat.eqb (ISubscription._id s') id
                                  && Nat.eqb (ISubscription.userId s') userId)
             f (subscriptions w)) w) in
      ret (Some (f s))
  end.

(** The validators of the paths a reactivation modifies: only
    [checkInterval] has any. *)
Definition validateModified (s : ISubscription.t) : option string :=
  if ISubscription.checkInterval s <? 15 then Some "checkInterval"
  else if 1440 <? ISubscription.checkInterval s then Some "checkInterval"
  else None.

(** [doc.save()] of a document read from the collection: the modified paths
    are validated and written. *)
Definition saveExisting (s : ISubscription.t) : Async unit :=
  match validateModified s with
  | Some path => throw (ValidationError path)
  | None =>
      modify (fun w =>
        withSubscriptions
          (updateFirst (fun s' => Nat.eqb (ISubscription._id s') (ISubscription._id s))
             (fun _ => s) (subscriptions w)) w)
  end.

(** An identifier no document of the collection has. *)
Definition freshId (l : list ISubscription.t) : ObjectId :=
  S (foldr Nat.max 0%nat (map ISubscription._id l)).

(** [new Subscription(fields).save()]: validation, then the insert under
    the unique index on [(userId, targetUsername)]. *)
Definition saveNew (fields : ISubscription.t) : Async ISubscription.t :=
  fun w =>
    let f := create fields in
    let s := ISubscription.mk (freshId (subscriptions w)) (ISubscription.userId f)
               (ISubscription.targetUsername f) (ISubscription.isActive f)
               (ISubscription.checkInterval f) (ISubscription.lastChecked f)
               (ISubscription.keywords f) (ISubscription.includeReplies f)
               (ISubscription.includeRetweets f) in
    match validate s with
    | Some path => (Throw (ValidationError path), w)
    | None =>
        if existsb (samePair (ISubscription.userId s) (ISubscription.targetUsername s))
             (subscriptions w)
        then (Throw (DuplicateKey (ISubscription.targetUsername s)), w)
        else (Ok s, withSubscriptions (subscriptions w ++ [s]) w)
    end.

End Subscription.

Module User.

(** [User.findById(userId)]. *)
Definition findById (userId : ObjectId) : Async (option IUser.t) :=
  fun w => (Ok (find (fun u => Nat.eqb (IUser._id u) userId) (users w)), w).

End User.

(** ** The service ([twitter-service.ts]) *)

Module Options.
Record t : Type := mk {
  sinceTime : option Date;
  maxResults : option Z;
  includeReplies : option bool;
  includeRetweets : option bool;
  keywords : option (list string)
}.
End Options.

Module Summary.
Record t : Type := mk {
  processed : nat;
  newTweets : nat;
  errors : list string
}.
End Summary.

Module TwitterService.
Section Service.

Variable build : Build.
Variable api : TwitterApi.
Variable sched : Scheduler.

Definition getUserByUsername (username : string) : Async (option UserV2.t) :=
let* _ := elapse (latency api) in
match userByUsername api username with
| inr data => ret data
| inl error =>
    throw (Error ("User @" +:+ username +:+ " not found: " +:+ errMessage error))
end.

Definition excludeTypes (includeReplies includeRetweets : bool) : list string :=
(if negb includeReplies then ["replies"] else [])
++ (if negb includeRetweets then ["retweets"] else []).

(** [new RegExp(keywords.join('|'), 'i')], as the predicate
  [keywordRegex.test], or the [SyntaxError] of the constructor. *)
Definition keywordRegex (keywords : list string) : Result (string -> bool) :=
let source := Js.join "|" keywords in
match RegExp.compile true source with
| RegExp.Pattern r => Ok (RegExp.test r)
| RegExp.SyntaxErr =>
    Throw (SyntaxError ("Invalid regular expression: /" +:+ source +:+ "/"))
| RegExp.Beyond =>
    match regexpBeyond api source with
    | Some f => Ok f
    | None =>
        Throw (SyntaxError ("Invalid regular expression: /" +:+ source +:+ "/"))
    end
end.

Definition toTweetData (tweet : TweetData.t) : TweetData.t :=
TweetData.mk (TweetData.id tweet) (TweetData.text tweet)
  (TweetData.author_id tweet) (TweetData.created_at tweet)
  (TweetData.public_metrics tweet) (TweetData.attachments tweet)
  (TweetData.entities tweet) (TweetData.referenced_tweets tweet).

Definition getUserTweets (userId : string) (options : Options.t)
  : Async (list TweetData.t) :=
tryCatch
  (let sinceTime := Options.sinceTime options in
   let maxResults := default (defaultMaxResults build) (Options.maxResults options) in
   let includeReplies := default false (Options.includeReplies options) in
   let includeRetweets := default false (Options.includeRetweets options) in
   let keywords := default [] (Options.keywords options) in
   let params :=
     TimelineParams.mk (Z.min maxResults (apiLimit build))
       (excludeTypes includeReplies includeRetweets) sinceTime in
   let* _ := elapse (latency api) in
   match userTimeline api userId params with
   | inl error => throw error
   | inr None => ret []
   | inr (Some []) => ret []
   | inr (Some data) =>
       let* filteredTweets :=
         if (0 <? length keywords)%nat then
           match keywordRegex keywords with
           | Ok test => ret (List.filter (fun tweet => test (TweetData.text tweet)) data)
           | Throw error => throw error
           end
         else ret data in
       ret (map toTweetData filteredTweets)
   end)
  (fun error =>
     if hasCode 429 error
     then throw (Error "Rate limit exceeded. Please try again later.")
     else throw (Error ("Failed to fetch tweets: " +:+ errMessage error))).

Definition extractMediaUrls (tweet : TweetData.t) : list string :=
match TweetData.entities tweet with
| Some entities =>
    match Entities.urls entities with
    | Some urls =>
        map UrlEntity.expanded_url
          (List.filter (fun url =>
             Js.includes (UrlEntity.expanded_url url) "pic.twitter.com"
             || Js.includes (UrlEntity.expanded_url url) "video.twitter.com") urls)
    | None => []
    end
| None => []
end.

Definition formatTweetUrl (username tweetId : string) : string :=
"https://twitter.com/" +:+ username +:+ "/status/" +:+ tweetId.

Definition delay (ms : N) : Async unit := elapse ms.

Definition hasReference (type : string) (tweet : TweetData.t) : bool :=
match TweetData.referenced_tweets tweet with
| Some refs => existsb (fun ref => String.eqb (ReferencedTweet.type ref) type) refs
| None => false
end.

(** The document built for a tweet that is not stored yet. *)
Definition newPost (subscription : ISubscription.t) (targetUser : UserV2.t)
  (tweet : TweetData.t) : IPost.t :=
let hashtags :=
  match TweetData.entities tweet with
  | Some entities => default [] (Entities.hashtags entities)
  | None => []
  end in
let mentions :=
  match TweetData.entities tweet with
  | Some entities => default [] (Entities.mentions entities)
  | None => []
  end in
let mediaUrls := extractMediaUrls tweet in
let isReply := hasReference "replied_to" tweet in
let isRetweet := hasReference "retweeted" tweet in
let retweetedFrom :=
  if isRetweet then
    match TweetData.referenced_tweets tweet with
    | Some refs =>
        match find (fun ref => String.eqb (ReferencedTweet.type ref) "retweeted") refs with
        | Some ref => Some (ReferencedTweet.id ref)
        | None => None
        end
    | None => None
    end
  else None in
Post.create
  (IPost.mk (TweetData.id tweet)
     (ISubscription._id subscription)
     (ISubscription.userId subscription)
     (TweetData.text tweet)
     (ISubscription.targetUsername subscription)
     (Some (UserV2.name targetUser))
     (UserV2.profile_image_url targetUser)
     (Engagement.mk
        (PublicMetrics.like_count (TweetData.public_metrics tweet))
        (PublicMetrics.retweet_count (TweetData.public_metrics tweet))
        (PublicMetrics.reply_count (TweetData.public_metrics tweet))
        (default 0 (PublicMetrics.quote_count (TweetData.public_metrics tweet))))
     mediaUrls
     false
     (TweetData.created_at tweet)
     (formatTweetUrl (ISubscription.targetUsername subscription) (TweetData.id tweet))
     isReply isRetweet retweetedFrom hashtags mentions).

(** The loop over the fetched tweets, with the count so far. *)
Fixpoint storeTweets (subscription : ISubscription.t) (targetUser : UserV2.t)
  (tweets : list TweetData.t) (newTweetsCount : nat) : Async nat :=
match tweets with
| [] => ret newTweetsCount
| tweet :: rest =>
    let* _ := Post.commit (beforeCheck sched tweet) in
    let* existingPost := Post.findOne (TweetData.id tweet) in
    match existingPost with
    | Some _ => storeTweets subscription targetUser rest newTweetsCount
    | None =>
        let post := newPost subscription targetUser tweet in
        let* _ := Post.commit (beforeSave sched tweet) in
        let* _ := Post.save post in
        storeTweets subscription targetUser rest (S newTweetsCount)
    end
end.

(** The options [processSubscriptionTweets] passes to [getUserTweets]. *)
Definition subscriptionOptions (subscription : ISubscription.t) : Options.t :=
Options.mk (Some (ISubscription.lastChecked subscription))
  (Some (subscriptionMaxResults build))
  (Some (ISubscription.includeReplies subscription))
  (Some (ISubscription.includeRetweets subscription))
  (Some (ISubscription.keywords subscription)).

Definition processSubscriptionTweets (subscription : ISubscription.t) : Async nat :=
tryCatch
  (let* found := getUserByUsername (ISubscription.targetUsername subscription) in
   match found with
   | None => throw (TypeError "Cannot read properties of undefined (reading 'id')")
   | Some targetUser =>
       let* tweets :=
         getUserTweets (UserV2.id targetUser) (subscriptionOptions subscription) in
       let* newTweetsCount := storeTweets subscription targetUser tweets 0%nat in
       let* date := now in
       let* _ :=
         Subscription.findByIdAndUpdate (ISubscription._id subscription)
           (ISubscription.setLastChecked date) in
       ret newTweetsCount
   end)
  (fun error => throw error).

(** One turn of the loop of [processAllUserSubscriptions]. *)
Definition processOne (acc : Summary.t) (subscription : ISubscription.t)
  : Async Summary.t :=
tryCatch
  (let* t := now in
   let timeSinceLastCheck := t - ISubscription.lastChecked subscription in
   let checkIntervalMs := ISubscription.checkInterval subscription * 60 * 1000 in
   if checkIntervalMs <=? timeSinceLastCheck then
     let* count := processSubscriptionTweets subscription in
     let* _ := delay 1000 in
     ret (Summary.mk (S (Summary.processed acc))
            (Summary.newTweets acc + count)%nat (Summary.errors acc))
   else ret acc)
  (fun error =>
     ret (Summary.mk (Summary.processed acc) (Summary.newTweets acc)
            (Summary.errors acc
             ++ [ISubscription.targetUsername subscription +:+ ": "
                 +:+ errMessage error]))).

Fixpoint processEach (subscriptions : list ISubscription.t) (acc : Summary.t)
  : Async Summary.t :=
match subscriptions with
| [] => ret acc
| subscription :: rest =>
    let* acc' := processOne acc subscription in
    processEach rest acc'
end.

Definition processAllUserSubscriptions (userId : ObjectId) : Async Summary.t :=
let* subscriptions :=
  Subscription.findActive (subscriptionsQuery sched userId) userId in
processEach subscriptions (Summary.mk 0 0 []).

(** [TwitterService.createForUser]: the client of the user, or [null]
  when the user or a credential is missing. *)
Definition createForUser (userId : ObjectId) : Async (option TwitterApi) :=
let* user := User.findById userId in
match match user with Some u => IUser.twitterCredentials u | None => None end with
| None => ret None
| Some c =>
    if Js.nonEmpty (TwitterCredentials.apiKey c)
       && Js.nonEmpty (TwitterCredentials.apiSecret c)
       && Js.nonEmpty (TwitterCredentials.accessToken c)
       && Js.nonEmpty (TwitterCredentials.accessTokenSecret c)
    then ret (Some api)
    else ret None
end.

End Service.
End TwitterService.

(** ** The routes ([server.ts]) *)

Module Server.

(** A field of a request body, as its validator sees it. *)
Inductive Field (A : Type) : Type :=
| Absent
| Malformed
| Given (a : A).
Arguments Absent {A}.
Arguments Malformed {A}.
Arguments Given {A} a.

Definition wellFormed {A : Type} (ok : A -> bool) (f : Field A) : bool :=
  match f with
  | Absent => true
  | Malformed => false
  | Given a => ok a
  end.

Definition orDefault {A : Type} (d : A) (f : Field A) : A :=
  match f with
  | Given a => a
  | _ => d
  end.

Module CreateBody.
Record t : Type := mk {
  targetUsername : option string;
  checkInterval : Field Z;
  keywords : Field (list string);
  includeReplies : Field bool;
  includeRetweets : Field bool
}.
End CreateBody.

(** The validation chain of [POST /api/subscriptions]:
    [notEmpty] on [targetUsername], [isInt({ min: 15, max: 1440 })] on an
    optional [checkInterval], [isArray] and [isBoolean] on the others. *)
Definition validCreate (body : CreateBody.t) : bool :=
  match CreateBody.targetUsername body with
  | Some u => Js.nonEmpty u
  | None => false
  end
  && wellFormed (fun n => (15 <=? n) && (n <=? 1440)) (CreateBody.checkInterval body)
  && wellFormed (fun _ => true) (CreateBody.keywords body)
  && wellFormed (fun _ => true) (CreateBody.includeReplies body)
  && wellFormed (fun _ => true) (CreateBody.includeRetweets body).

(** The sanitizers [trim()] and [toLowerCase()] of the chain. *)
Definition sanitizedTarget (body : CreateBody.t) : string :=
  Js.toLowerCase (Js.trim (default "" (CreateBody.targetUsername body))).

(** A handler answers with a status; an error that escapes it is the 500
    of its [catch]. *)
Definition respond (handler : Async Z) : World -> Z * World :=
  fun w =>
    match handler w with
    | (Ok status, w') => (status, w')
    | (Throw _, w') => (500, w')
    end.

Definition hasCredentials (user : option IUser.t) : bool :=
  match user with
  | Some u => match IUser.twitterCredentials u with Some _ => true | None => false end
  | None => false
  end.

(** [POST /api/subscriptions]. *)
Definition createSubscription (api : TwitterApi) (userId : ObjectId)
    (body : CreateBody.t) : World -> Z * World :=
  if negb (validCreate body) then fun w => (400, w)
  else
    respond
      (let targetUsername := sanitizedTarget body in
       let checkInterval := orDefault 60 (CreateBody.checkInterval body) in
       let keywords := orDefault [] (CreateBody.keywords body) in
       let includeReplies := orDefault false (CreateBody.includeReplies body) in
       let includeRetweets := orDefault false (CreateBody.includeRetweets body) in
       let* user := User.findById userId in
       if negb (hasCredentials user) then ret 400
       else
         let* twitterService := TwitterService.createForUser api userId in
         match twitterService with
         | None => ret 400
         | Some service =>
             let* targetUser := TwitterService.getUserByUsername service targetUsername in
             let* existingSub := Subscription.findOne userId targetUsername in
             match existingSub with
             | Some existingSub =>
                 if ISubscription.isActive existingSub then ret 400
                 else
                   let* date := now in
                   let* _ :=
                     Subscription.saveExisting
                       (ISubscription.mk (ISubscription._id existingSub)
                          (ISubscription.userId existingSub)
                          (ISubscription.targetUsername existingSub)
                          true checkInterval date (map Js.trim keywords)
                          includeReplies includeRetweets) in
                   ret 200
             | None =>
                 let* date := now in
                 let* subscription :=
                   Subscription.saveNew
                     (ISubscription.mk 0%nat userId targetUsername true
                        checkInterval date keywords includeReplies includeRetweets) in
                 match targetUser with
                 | Some _ => ret 201
                 | None =>
                     throw (TypeError
                       "Cannot read properties of undefined (reading 'name')")
                 end
             end
         end).

(** [DELETE /api/subscriptions/:id]; [None] is an [:id] that is no
    ObjectId. *)
Definition deleteSubscription (id : option ObjectId) (userId : ObjectId)
    : World -> Z * World :=
  respond
    (match id with
     | None => throw (mkError "CastError" None "Cast to ObjectId failed")
     | Some subscriptionId =>
         let* subscription :=
           Subscription.findOneAndUpdate subscriptionId userId
             (ISubscription.setIsActive false) in
         match subscription with
         | None => ret 404
         | Some _ => ret 200
         end
     end).

(** [POST /api/subscriptions/:id/refresh]. *)
Definition refreshSubscription (build : Build) (api : TwitterApi)
    (sched : Scheduler) (id : option ObjectId) (userId : ObjectId)
    : World -> Z * World :=
  respond
    (match id with
     | None => throw (mkError "CastError" None "Cast to ObjectId failed")
     | Some subscriptionId =>
         let* subscription := Subscription.findOwned subscriptionId userId in
         match subscription with
         | None => ret 404
         | Some subscription =>
             let* twitterService := TwitterService.createForUser api userId in
             match twitterService with
             | None => ret 400
             | Some service =>
                 let* newTweetsCount :=
                   TwitterService.processSubscriptionTweets build service sched
                     subscription in
                 ret 200
             end
         end
     end).

(** The turn of the scheduled job for one user. *)
Definition scheduledUser (build : Build) (api : TwitterApi) (sched : Scheduler)
    (userId : ObjectId) : World -> Z * World :=
  respond
    (let* twitterService := TwitterService.createForUser api userId in
     let* _ :=
       match twitterService with
       | Some service =>
           let* result :=
             TwitterService.processAllUserSubscriptions build service sched userId in
           ret tt
       | None => ret tt
       end in
     let* _ := elapse 2000 in
     ret 200).

(** What can happen to the state. The collection of users is written by
    routes outside the model, so it may change freely. *)
Inductive Event : Type :=
| CreateSubscription (api : TwitterApi) (userId : ObjectId) (body : CreateBody.t)
| DeleteSubscription (id : option ObjectId) (userId : ObjectId)
| RefreshSubscription (build : Build) (api : TwitterApi) (sched : Scheduler)
    (id : option ObjectId) (userId : ObjectId)
| ScheduledUser (build : Build) (api : TwitterApi) (sched : Scheduler)
    (userId : ObjectId)
| TimePasses (ms : N)
| UsersWritten (us : list IUser.t).

Definition step (e : Event) (w : World) : World :=
  match e with
  | CreateSubscription api userId body => snd (createSubscription api userId body w)
  | DeleteSubscription id userId => snd (deleteSubscription id userId w)
  | RefreshSubscription build api sched id userId =>
      snd (refreshSubscription build api sched id userId w)
  | ScheduledUser build api sched userId =>
      snd (scheduledUser build api sched userId w)
  | TimePasses ms => withClock (clock w + Z.of_N ms) w
  | UsersWritten us => mkWorld (posts w) (subscriptions w) us (clock w)
  end.

(** The states the server reaches from empty collections. *)
Inductive reachable : World -> Prop :=
| reachable_start (us : list IUser.t) (t : Date) :
    reachable (mkWorld [] [] us t)
| reachable_step (e : Event) (w : World) :
    reachable w -> reachable (step e w).

End Server.

(** ** The public JSON of a user ([UserSchema], [toJSON]) *)

Module UserJson.

Inductive Json : Type :=
| JString (s : string)
| JBool (b : bool)
| JNumber (n : Z)
| JObject (fields : list (string * string)).

Definition credentialsObject (c : TwitterCredentials.t) : Json :=
  JObject [("apiKey", TwitterCredentials.apiKey c);
           ("apiSecret", TwitterCredentials.apiSecret c);
           ("accessToken", TwitterCredentials.accessToken c);
           ("accessTokenSecret", TwitterCredentials.accessTokenSecret c)].

Definition setOptional (key : string) (v : option Json)
    (o : gmap string Json) : gmap string Json :=
  match v with
  | Some j => <[key := j]> o
  | None => o
  end.

(** [doc.toObject()]: the paths of the document that are set. *)
Definition toObject (u : IUser.t) : gmap string Json :=
  setOptional "twitterCredentials" (credentialsObject <$> IUser.twitterCredentials u)
    (setOptional "twitterUsername" (JString <$> IUser.twitterUsername u)
       (<["isActive" := JBool (IUser.isActive u)]>
          (<["password" := JString (IUser.password u)]>
             (<["email" := JString (IUser.email u)]>
                (<["_id" := JNumber (Z.of_nat (IUser._id u))]> ∅))))).

(** The [transform] of the [toJSON] option. *)
Definition transform (doc : IUser.t) (ret : gmap string Json) : gmap string Json :=
  let retObj := ret in
  let retObj := delete "password" retObj in
  let retObj := delete "twitterCredentials" retObj in
  retObj.

Definition toJSON (u : IUser.t) : gmap string Json := transform u (toObject u).

End UserJson.

(** ** The scheduled job ([cron.schedule], every thirty minutes) *)

Module Cron.

Module Totals.
Record t : Type := mk {
  totalProcessed : nat;
  totalNewTweets : nat;
  errors : list string
}.
End Totals.

Section Job.

(** [clientOf] is the client [createForUser] builds from the credentials
  of a user, [showId] the text of an identifier in a template string. *)
Variable build : Build.
Variable clientOf : ObjectId -> TwitterApi.
Variable sched : Scheduler.
Variable showId : ObjectId -> string.

(** [User.find({ isActive: true, twitterCredentials: { $exists: true } })
  .select('_id')], or the error of the query when the database rejects
  it. *)
Definition activeUsers : Async (list ObjectId) :=
fun w =>
  match usersQuery sched with
  | Some error => (Throw error, w)
  | None =>
      (Ok (map IUser._id
             (List.filter (fun u =>
                IUser.isActive u
                && match IUser.twitterCredentials u with
                   | Some _ => true
                   | None => false
                   end)
                (users w))), w)
  end.

(** One turn of the loop over the users. Nothing can throw between the
  update of the totals and the end of the [try] block, so the handler sees
  the totals of the turns before. *)
Definition forUser (acc : Totals.t) (userId : ObjectId) : Async Totals.t :=
tryCatch
  (let* twitterService := TwitterService.createForUser (clientOf userId) userId in
   let* acc' :=
     match twitterService with
     | Some service =>
         let* result :=
           TwitterService.processAllUserSubscriptions build service sched userId in
         ret (Totals.mk
                (Totals.totalProcessed acc + Summary.processed result)%nat
                (Totals.totalNewTweets acc + Summary.newTweets result)%nat
                (Totals.errors acc ++ Summary.errors result))
     | None => ret acc
     end in
   let* _ := elapse 2000 in
   ret acc')
  (fun error =>
     ret (Totals.mk (Totals.totalProcessed acc) (Totals.totalNewTweets acc)
            (Totals.errors acc
             ++ ["User " +:+ showId userId +:+ ": " +:+ errMessage error]))).

Fixpoint forEach (activeUsers : list ObjectId) (acc : Totals.t) : Async Totals.t :=
match activeUsers with
| [] => ret acc
| user :: rest =>
    let* acc' := forUser acc user in
    forEach rest acc'
end.

(** The job: the totals it logs, or [None] when its outer [catch] logged
  an error instead. *)
Definition job : Async (option Totals.t) :=
tryCatch
  (let* activeUsers := activeUsers in
   let* totals := forEach activeUsers (Totals.mk 0 0 []) in
   ret (Some totals))
  (fun error => ret None).

End Job.
End Cron.

(** ** Cleaning the text of a tweet ([TwitterService.cleanTweetText]) *)

Module Text.

(** Does a match of [/https?:\/\/\S+/] begin at the head of [l]? *)
Definition urlStartsAt (l : list ascii) : bool :=
  let afterScheme :=
    if Js.startsWith l (Js.chars "https://") then Some (skipn 8 l)
    else if Js.startsWith l (Js.chars "http://") then Some (skipn 7 l)
    else None in
  match afterScheme with
  | Some (c :: _) => negb (Js.is_space c)
  | _ => false
  end.

(** [text.replace(/https?:\/\/\S+/g, '')]. [\S+] is greedy, so a match
    runs to the next white space; [inUrl] says that the head of [l] is inside
    a match. *)
Fixpoint removeUrls (inUrl : bool) (l : list ascii) : list ascii :=
  match l with
  | [] => []
  | c :: l' =>
      if Js.is_space c then c :: removeUrls false l'
      else if inUrl || urlStartsAt l then removeUrls true l'
      else c :: removeUrls false l'
  end.

(** [text.replace(/\s+/g, ' ')]; [inSpace] says that the head of [l]
    follows white space that is replaced already. *)
Fixpoint collapseSpaces (inSpace : bool) (l : list ascii) : list ascii :=
  match l with
  | [] => []
  | c :: l' =>
      if Js.is_space c
      then if inSpace then collapseSpaces true l'
           else " "%char :: collapseSpaces true l'
      else c :: collapseSpaces false l'
  end.

Definition cleanTweetText (text : string) : string :=
  Js.trim (Js.str (collapseSpaces false (removeUrls false (Js.chars text)))).

End Text.

(** * The vocabulary of the properties *)

(** The normal form the schemas give to a user name. *)
Definition normalName (name : string) : string := Js.trim (Js.toLowerCase name).

Definition trimEnd (l : list ascii) : list ascii := rev (Js.trimStart (rev l)).

Definition headIsNoSpace (l : list ascii) : Prop :=
  match l with
  | [] => True
  | c :: _ => Js.is_space c = false
  end.

Definition tweetIds (w : World) : list string := map IPost.tweetId (posts w).

(** What a step leaves alone when it only writes posts. *)
Definition sameButPosts (w w' : World) : Prop :=
  subscriptions w' = subscriptions w /\ users w' = users w /\ clock w' = clock w.

(** A row committed by another task. *)
Definition foreign (sched : Scheduler) (p : IPost.t) : Prop :=
  exists t, In p (beforeCheck sched t) \/ In p (beforeSave sched t).

(** The rows a list of commits leaves behind. *)
Definition committed (rows ps : list IPost.t) : list IPost.t :=
  fold_left (fun ps r => match Post.insert r ps with Ok ps' => ps' | Throw _ => ps end)
    rows ps.

(** [grows P w w']: from [w] to [w'] only rows that satisfy [P] were
    appended to the posts, and nothing else changed. *)
Definition grows (P : IPost.t -> Prop) (w w' : World) : Prop :=
  sameButPosts w w' /\
  (exists extra, posts w' = posts w ++ extra /\ Forall P extra) /\
  (List.NoDup (tweetIds w) -> List.NoDup (tweetIds w')).

Definition afterCall (api : TwitterApi) (w : World) : World :=
  withClock (clock w + Z.of_N (latency api)) w.

(** The tweets [getUserTweets] returns for a subscription, whatever the
    state: the fetched posts. *)
Definition fetches (build : Build) (api : TwitterApi) (s : ISubscription.t)
    (tweets : list TweetData.t) : Prop :=
  exists u,
    userByUsername api (ISubscription.targetUsername s) = inr (Some u) /\
    forall w,
      fst (TwitterService.getUserTweets build api (UserV2.id u)
             (TwitterService.subscriptionOptions build s) w) = Ok tweets.

Definition checkpointed (s : ISubscription.t) (w : World) : World :=
  withSubscriptions
    (Subscription.updateFirst
       (fun s' => Nat.eqb (ISubscription._id s') (ISubscription._id s))
       (ISubscription.setLastChecked (clock w)) (subscriptions w)) w.

(** A row of this run: the document built for one of the tweets. *)
Definition builtFrom (s : ISubscription.t) (u : UserV2.t)
    (tweets : list TweetData.t) (p : IPost.t) : Prop :=
  exists t, In t tweets /\ p = TwitterService.newPost s u t.

(** The parameters of the timeline request [processSubscriptionTweets]
    makes for a subscription. *)
Definition timelineRequest (build : Build) (s : ISubscription.t) : TimelineParams.t :=
  TimelineParams.mk
    (Z.min (subscriptionMaxResults build) (apiLimit build))
    (TwitterService.excludeTypes (ISubscription.includeReplies s)
       (ISubscription.includeRetweets s))
    (Some (ISubscription.lastChecked s)).

(** The key of the unique index of the subscriptions. *)
Definition pairOf (s : ISubscription.t) : ObjectId * string :=
  (ISubscription.userId s, ISubscription.targetUsername s).

Definition intervalInBounds (s : ISubscription.t) : Prop :=
  15 <= ISubscription.checkInterval s <= 1440.

(** What holds of every state the server reaches. *)
Record Invariant (w : World) : Prop := mkInvariant {
  inv_ids : List.NoDup (map ISubscription._id (subscriptions w));
  inv_pairs : List.NoDup (map pairOf (subscriptions w));
  inv_intervals : Forall intervalInBounds (subscriptions w);
  inv_targets :
    Forall (fun s => Js.nonEmpty (ISubscription.targetUsername s) = true) (subscriptions w);
  inv_normal :
    Forall (fun s => normalName (ISubscription.targetUsername s)
                     = ISubscription.targetUsername s) (subscriptions w);
  inv_checkpoints :
    Forall (fun s => ISubscription.lastChecked s <= clock w) (subscriptions w);
  inv_tweetIds : List.NoDup (tweetIds w)
}.

(** The document a repeated create request makes of an inactive one. *)
Definition reactivated (existingSub : ISubscription.t) (body : Server.CreateBody.t)
    (date : Date) : ISubscription.t :=
  ISubscription.mk (ISubscription._id existingSub)
    (ISubscription.userId existingSub)
    (ISubscription.targetUsername existingSub)
    true
    (Server.orDefault 60 (Server.CreateBody.checkInterval body))
    date
    (map Js.trim (Server.orDefault [] (Server.CreateBody.keywords body)))
    (Server.orDefault false (Server.CreateBody.includeReplies body))
    (Server.orDefault false (Server.CreateBody.includeRetweets body)).

Definition byId (id : ObjectId) (s : ISubscription.t) : bool :=
  Nat.eqb (ISubscription._id s) id.

(** Is the subscription due at this time? *)
Definition due (s : ISubscription.t) (t : Date) : bool :=
  ISubscription.checkInterval s * 60 * 1000 <=? t - ISubscription.lastChecked s.

(** The summary after a subscription was reconciled with [count] new
    posts, and after its reconciliation threw [e]. *)
Definition counted (acc : Summary.t) (count : nat) : Summary.t :=
  Summary.mk (S (Summary.processed acc)) (Summary.newTweets acc + count)%nat
    (Summary.errors acc).

Definition failed (acc : Summary.t) (s : ISubscription.t) (e : JsError) : Summary.t :=
  Summary.mk (Summary.processed acc) (Summary.newTweets acc)
    (Summary.errors acc ++ [ISubscription.targetUsername s +:+ ": " +:+ errMessage e]).

Definition owned (id userId : ObjectId) (s : ISubscription.t) : bool :=
  Nat.eqb (ISubscription._id s) id && Nat.eqb (ISubscription.userId s) userId.

(** ** Keywords *)

(** The strings a regular expression matches as a whole. *)
Inductive matches : RegExp.regex -> list ascii -> Prop :=
| matches_eps : matches RegExp.Eps []
| matches_class p c : p c = true -> matches (RegExp.Class p) [c]
| matches_cat r1 r2 s1 s2 :
    matches r1 s1 -> matches r2 s2 -> matches (RegExp.Cat r1 r2) (s1 ++ s2)
| matches_alt_l r1 r2 s : matches r1 s -> matches (RegExp.Alt r1 r2) s
| matches_alt_r r1 r2 s : matches r2 s -> matches (RegExp.Alt r1 r2) s
| matches_star_nil r : matches (RegExp.Star r) []
| matches_star_app r s1 s2 :
    matches r s1 -> matches (RegExp.Star r) s2 -> matches (RegExp.Star r) (s1 ++ s2).

(** [s] is [k] up to the case of the letters. *)
Definition sameIgnoringCase (k s : list ascii) : Prop :=
  map Js.canonicalize s = map Js.canonicalize k.

(** The text contains the keyword, ignoring case. *)
Definition containsIgnoringCase (text keyword : string) : Prop :=
  exists a mid b,
    Js.chars text = a ++ mid ++ b /\ sameIgnoringCase (Js.chars keyword) mid.

(** A keyword without syntax characters of the pattern language. *)
Definition plainKeyword (k : string) : Prop :=
  Forall (fun c => RegExp.isSyntaxChar c = false) (Js.chars k).

(** The frame of the parser after the characters of a plain keyword, and
    after a list of plain keywords separated by [|]. *)
Definition pushChars (k : list ascii) (f : RegExp.frame) : RegExp.frame :=
  fold_left (fun f c => RegExp.pushAtom (RegExp.lit true c) f) k f.

Fixpoint readKeywords (kws : list string) (f : RegExp.frame) : RegExp.frame :=
  match kws with
  | [] => f
  | [k] => pushChars (Js.chars k) f
  | k :: rest => readKeywords rest (RegExp.closeAlternative (pushChars (Js.chars k) f))
  end.

Definition optAlt (a b : option RegExp.regex) : option RegExp.regex :=
  match a, b with
  | Some a, Some b => Some (RegExp.Alt a b)
  | Some a, None => Some a
  | None, o => o
  end.

(** The parameters of the timeline request [getUserTweets] makes. *)
Definition requestFor (build : Build) (options : Options.t) : TimelineParams.t :=
  TimelineParams.mk
    (Z.min (default (defaultMaxResults build) (Options.maxResults options))
       (apiLimit build))
    (TwitterService.excludeTypes (default false (Options.includeReplies options))
       (default false (Options.includeRetweets options)))
    (Options.sinceTime options).

Definition keywordsOnly (kws : list string) : Options.t :=
  Options.mk None None None None (Some kws).

(** ** Concrete scenarios *)

Definition acme : UserV2.t := UserV2.mk "42" "Acme" None.

Definition plainTweet (id text : string) (created : Date) : TweetData.t :=
  TweetData.mk id text "42" (Some created) (PublicMetrics.mk 1 2 3 None) None None None.

Definition tweetLaunch : TweetData.t := plainTweet "1" "We LAUNCH today" 101.

(** A reply, written by another account. *)
Definition tweetReply : TweetData.t :=
  TweetData.mk "2" "thanks!" "77" (Some 102) (PublicMetrics.mk 0 0 0 None) None None
    (Some [ReferencedTweet.mk "replied_to" "1"]).

(** A tweet whose timestamp is ahead of the clock of the server. *)
Definition tweetAhead : TweetData.t := plainTweet "3" "see you soon" 5000.

Definition apiOf (timeline : list TweetData.t) : TwitterApi :=
  mkApi (fun _ => inr (Some acme)) (fun _ _ => inr (Some timeline)) 5 (fun _ => None).

Definition apiAcme : TwitterApi := apiOf [tweetLaunch; tweetReply].

Definition subAcme : ISubscription.t :=
  ISubscription.mk 1%nat 7%nat "acme" true 60 100 [] false false.

Definition world0 : World := mkWorld [] [subAcme] [] 1000.

(** Another reconciliation of the same subscription saves its row between
    the existence check of this one and its save. *)
Definition racing : Scheduler :=
  mkScheduler (fun _ => []) (fun t => [TwitterService.newPost subAcme acme t])
    (fun _ => None) None.

(** A user with credentials subscribes to "acme" (written with capitals
    and blanks), and deletes the subscription. *)
Definition userSeven : IUser.t :=
  IUser.mk 7%nat "seven@example.com" "$2b$10$hash" true None
    (Some (TwitterCredentials.mk "k" "s" "t" "ts")).

Definition bodyAcme : Server.CreateBody.t :=
  Server.CreateBody.mk (Some " Acme ") Server.Absent Server.Absent Server.Absent
    Server.Absent.

Definition bodyAgain : Server.CreateBody.t :=
  Server.CreateBody.mk (Some "acme") (Server.Given 30) (Server.Given [" launch "])
    (Server.Given true) Server.Absent.

Definition worldEmpty : World := mkWorld [] [] [userSeven] 1000.

Definition worldCreated : World :=
  Server.step (Server.CreateSubscription apiAcme 7%nat bodyAcme) worldEmpty.

Definition worldDeleted : World :=
  Server.step (Server.DeleteSubscription (Some 1%nat) 7%nat) worldCreated.

Definition subCreated : ISubscription.t :=
  ISubscription.mk 1%nat 7%nat "acme" true 60 1005 [] false false.

(** Three due subscriptions; the timeline of the second is unavailable. *)
Definition apiFlaky : TwitterApi :=
  mkApi (fun name => inr (Some (UserV2.mk name name None)))
    (fun uid _ =>
       if String.eqb uid "b"
       then inl (mkError "ApiRequestError" (Some 503) "Service Unavailable")
       else inr (Some [plainTweet (uid +:+ "-1") "news" 10]))
    5 (fun _ => None).

Definition subOf (id : ObjectId) (target : string) : ISubscription.t :=
  ISubscription.mk id 7%nat target true 15 0 [] false false.

Definition worldThree : World :=
  mkWorld [] [subOf 1%nat "a"; subOf 2%nat "b"; subOf 3%nat "c"] [userSeven] 1000000.

(** ** Further vocabulary *)

Definition knownId (known : list string) (id : string) : bool :=
  existsb (String.eqb id) known.

(** The tweets of a timeline that have no row yet: those whose identifier
    is not among the known ones, and of several with one identifier the
    first. *)
Fixpoint freshTweets (known : list string) (tweets : list TweetData.t)
    : list TweetData.t :=
  match tweets with
  | [] => []
  | t :: rest =>
      if knownId known (TweetData.id t)
      then freshTweets known rest
      else t :: freshTweets (known ++ [TweetData.id t]) rest
  end.

(** The state a run leaves that made its two remote calls and saved
    [rows]. *)
Definition afterSaving (api : TwitterApi) (rows : list IPost.t) (w : World) : World :=
  withPosts (posts w ++ rows) (afterCall api (afterCall api w)).

(** A tweet whose timestamp [new Date] cannot read. *)
Definition tweetUndated : TweetData.t :=
  TweetData.mk "9" "no date" "42" None (PublicMetrics.mk 0 0 0 None) None None None.


(** [l'] is [l], but for the checkpoint of some documents that satisfy
    [P]. *)
Definition onlyCheckpoints (P : ISubscription.t -> Prop)
    (l l' : list ISubscription.t) : Prop :=
  Forall2 (fun s s' =>
    s' = s \/ (P s /\ exists d, s' = ISubscription.setLastChecked d s)) l l'.

(** The subscriptions of the other users. *)
Definition othersOf (userId : ObjectId) (l : list ISubscription.t)
    : list ISubscription.t :=
  List.filter (fun s => negb (Nat.eqb (ISubscription.userId s) userId)) l.

(** The user for whom a request or a turn of the scheduled job acts. *)
Definition actsFor (e : Server.Event) : option ObjectId :=
  match e with
  | Server.CreateSubscription _ userId _ => Some userId
  | Server.DeleteSubscription _ userId => Some userId
  | Server.RefreshSubscription _ _ _ _ userId => Some userId
  | Server.ScheduledUser _ _ _ userId => Some userId
  | Server.TimePasses _ => None
  | Server.UsersWritten _ => None
  end.


(** The document a create request stores for a pair that has none. *)
Definition created (userId : ObjectId) (body : Server.CreateBody.t)
    (id : ObjectId) (date : Date) : ISubscription.t :=
  ISubscription.mk id userId (Server.sanitizedTarget body) true
    (Server.orDefault 60 (Server.CreateBody.checkInterval body))
    date
    (map Js.trim (Server.orDefault [] (Server.CreateBody.keywords body)))
    (Server.orDefault false (Server.CreateBody.includeReplies body))
    (Server.orDefault false (Server.CreateBody.includeRetweets body)).

(** A create request for an account the lookup does not know. *)
Definition apiUnknown : TwitterApi :=
  mkApi (fun _ => inr None) (fun _ _ => inr None) 5 (fun _ => None).


(** [sub] occurs in [s]. *)
Definition occursIn (sub s : string) : Prop :=
  exists a b, Js.chars s = a ++ Js.chars sub ++ b.

(** The links and the references of a tweet, none when the field is
    missing. *)
Definition linksOf (tweet : TweetData.t) : list UrlEntity.t :=
  match TweetData.entities tweet with
  | Some entities => default [] (Entities.urls entities)
  | None => []
  end.

Definition referencesOf (tweet : TweetData.t) : list ReferencedTweet.t :=
  default [] (TweetData.referenced_tweets tweet).


(** The users the scheduled job visits. *)
Definition visited (w : World) : list ObjectId :=
  map IUser._id
    (List.filter (fun u =>
       IUser.isActive u
       && match IUser.twitterCredentials u with Some _ => true | None => false end)
       (users w)).

(** The state after the turns of the job for these users. *)
Definition afterTurns (build : Build) (clientOf : ObjectId -> TwitterApi)
    (sched : Scheduler) (us : list ObjectId) (w : World) : World :=
  fold_left (fun w u => Server.step (Server.ScheduledUser build (clientOf u) sched u) w)
    us w.


(** No link begins anywhere in the text. *)
Definition noUrl (l : list ascii) : Prop :=
  forall a b, l = a ++ b -> Text.urlStartsAt b = false.

(** Every white space character is a single blank. *)
Fixpoint singleSpaces (afterSpace : bool) (l : list ascii) : Prop :=
  match l with
  | [] => True
  | c :: l' =>
      if Js.is_space c
      then afterSpace = false /\ c = " "%char /\ singleSpaces true l'
      else singleSpaces false l'
  end.

(** A text that neither begins nor ends with white space and whose words
    are separated by one blank. *)
Definition tidy (l : list ascii) : Prop :=
  headIsNoSpace l /\ headIsNoSpace (rev l) /\ singleSpaces false l.


(** What no request changes in a subscription. *)
Definition identityOf (s : ISubscription.t) : ObjectId * ObjectId * string :=
  (ISubscription._id s, ISubscription.userId s, ISubscription.targetUsername s).

(** The other tasks that write posts while an event is handled. *)
Definition schedulerOf (e : Server.Event) : Scheduler :=
  match e with
  | Server.RefreshSubscription _ _ sched _ _ => sched
  | Server.ScheduledUser _ _ sched _ => sched
  | _ => sequential
  end.

(** The post belongs to a subscription of the collection, and to the user
    of that subscription. *)
Definition belongs (w : World) (p : IPost.t) : Prop :=
  exists s,
    In s (subscriptions w) /\
    ISubscription._id s = IPost.subscriptionId p /\
    ISubscription.userId s = IPost.userId p.

(** The states the server reaches when no task writes posts while
    another reconciles. *)
Inductive reachableAlone : World -> Prop :=
| alone_start (us : list IUser.t) (t : Date) :
    reachableAlone (mkWorld [] [] us t)
| alone_step (e : Server.Event) (w : World) :
    reachableAlone w ->
    (forall t, beforeCheck (schedulerOf e) t = [] /\ beforeSave (schedulerOf e) t = []) ->
    reachableAlone (Server.step e w).


(** Two users with credentials subscribe to an account each, and an hour
    and more passes; the database rejects the query for the subscriptions of
    the second user. *)
Definition userEight : IUser.t :=
  IUser.mk 8%nat "eight@example.com" "$2b$10$hash" true None
    (Some (TwitterCredentials.mk "k" "s" "t" "ts")).

Definition bodyOf (target : string) : Server.CreateBody.t :=
  Server.CreateBody.mk (Some target) Server.Absent Server.Absent Server.Absent
    Server.Absent.

Definition worldTwoUsers : World :=
  Server.step (Server.TimePasses 4000000)
    (Server.step (Server.CreateSubscription apiFlaky 8%nat (bodyOf "c"))
       (Server.step (Server.CreateSubscription apiFlaky 7%nat (bodyOf "a"))
          (mkWorld [] [] [userSeven; userEight] 1000))).

Definition outage : Scheduler :=
  mkScheduler (fun _ => []) (fun _ => [])
    (fun userId =>
       if Nat.eqb userId 8
       then Some (mkError "MongoNetworkError" None "connection lost")
       else None)
    None.

(** The text of a small identifier. *)
Definition idText (id : ObjectId) : string :=
  String (ascii_of_nat (48 + id)) "".


(** Is the link one to a picture or a video of the service? *)
Definition mediaLink (url : string) : bool :=
  Js.includes url "pic.twitter.com" || Js.includes url "video.twitter.com".

(** User 7 subscribes to two accounts and refreshes the first
    subscription, which stores the two tweets of the timeline; then the
    first subscription is deleted. *)
Definition worldRefreshed : World :=
  Server.step (Server.RefreshSubscription tsBuild apiAcme sequential (Some 1%nat) 7%nat)
    (Server.step (Server.CreateSubscription apiAcme 7%nat (bodyOf "beta")) worldCreated).

Definition worldRefreshedDeleted : World :=
  Server.step (Server.DeleteSubscription (Some 1%nat) 7%nat) worldRefreshed.

(** * Properties *)

(** ** The collection of posts *)

Ltac async :=
  unfold bind, ret, throw, tryCatch, modify, now, elapse, get in *; simpl in *.

Lemma sameButPosts_refl w : sameButPosts w w.
Proof. by repeat split. Qed.

Lemma sameButPosts_trans w1 w2 w3 :
  sameButPosts w1 w2 -> sameButPosts w2 w3 -> sameButPosts w1 w3.
Proof. unfold sameButPosts. intros (?&?&?) (?&?&?). repeat split; congruence. Qed.

Lemma hasTweetId_In id ps :
  Post.hasTweetId id ps = true <-> In id (map IPost.tweetId ps).
Proof.
  unfold Post.hasTweetId. rewrite existsb_exists, in_map_iff. split.
  - intros (q & Hq & He). apply String.eqb_eq in He. eauto.
  - intros (q & He & Hq). exists q. split; [done|]. by apply String.eqb_eq.
Qed.

Lemma hasTweetId_app id ps qs :
  Post.hasTweetId id (ps ++ qs) = Post.hasTweetId id ps || Post.hasTweetId id qs.
Proof. unfold Post.hasTweetId. apply existsb_app. Qed.

Lemma find_hasTweetId id ps :
  find (fun p => String.eqb (IPost.tweetId p) id) ps = None <->
  Post.hasTweetId id ps = false.
Proof.
  unfold Post.hasTweetId. induction ps as [|p ps IH]; simpl; [done|].
  destruct (String.eqb (IPost.tweetId p) id); simpl; [split; discriminate|done].
Qed.

Lemma insert_Ok p ps ps' :
  Post.insert p ps = Ok ps' ->
  ps' = ps ++ [p] /\ Post.hasTweetId (IPost.tweetId p) ps = false.
Proof.
  unfold Post.insert. destruct (Post.hasTweetId _ ps) eqn:E; [discriminate|].
  intros [= <-]. done.
Qed.

Lemma insert_NoDup p ps ps' :
  Post.insert p ps = Ok ps' ->
  List.NoDup (map IPost.tweetId ps) -> List.NoDup (map IPost.tweetId ps').
Proof.
  intros H Hnd. apply insert_Ok in H as [-> Hfresh].
  rewrite map_app. simpl.
  apply List.NoDup_app; [done| |].
  - constructor; [by intros []|constructor].
  - intros x Hx [<-|[]]. apply hasTweetId_In in Hx. congruence.
Qed.

Lemma committed_spec rows ps :
  exists extra,
    committed rows ps = ps ++ extra /\
    Forall (fun p => In p rows) extra /\
    (List.NoDup (map IPost.tweetId ps) ->
     List.NoDup (map IPost.tweetId (committed rows ps))).
Proof.
  unfold committed. revert ps. induction rows as [|r rows IH]; intros ps; simpl.
  - exists []. by rewrite app_nil_r.
  - destruct (Post.insert r ps) as [ps'|e] eqn:E.
    + destruct (IH ps') as (extra & Heq & Hall & Hnd).
      pose proof (insert_Ok _ _ _ E) as [Hps' _].
      exists (r :: extra). split; [|split].
      * rewrite Heq, Hps', <- app_assoc. done.
      * constructor; [by left|]. eapply Forall_impl; [exact Hall|]. simpl. tauto.
      * intros H. apply Hnd. eapply insert_NoDup; [exact E|done].
    + destruct (IH ps) as (extra & Heq & Hall & Hnd).
      exists extra. split; [done|]. split; [|done].
      eapply Forall_impl; [exact Hall|]. simpl. tauto.
Qed.

Lemma commit_eq rows w :
  Post.commit rows w = (Ok tt, withPosts (committed rows (posts w)) w).
Proof. reflexivity. Qed.

Lemma save_Ok p w w' :
  Post.save p w = (Ok tt, w') ->
  posts w' = posts w ++ [p] /\ sameButPosts w w' /\
  Post.hasTweetId (IPost.tweetId p) (posts w) = false.
Proof.
  unfold Post.save. destruct (Post.validate p); [discriminate|].
  destruct (Post.insert p (posts w)) as [ps|e] eqn:E; [|discriminate].
  intros [= <-]. apply insert_Ok in E as [-> ?]. by repeat split.
Qed.

Lemma save_Throw p e w w' : Post.save p w = (Throw e, w') -> w' = w.
Proof.
  unfold Post.save. destruct (Post.validate p); [by intros [= _ <-]|].
  destruct (Post.insert p (posts w)); [discriminate|by intros [= _ <-]].
Qed.

Lemma save_unit p r w w' : Post.save p w = (r, w') -> r = Ok tt \/ exists e, r = Throw e.
Proof. destruct r as [[]|e]; eauto. Qed.

Lemma grows_refl P w : grows P w w.
Proof.
  split; [apply sameButPosts_refl|]. split; [|done].
  exists []. by rewrite app_nil_r.
Qed.

Lemma grows_trans P w1 w2 w3 : grows P w1 w2 -> grows P w2 w3 -> grows P w1 w3.
Proof.
  intros (Hs1 & (e1 & He1 & Hf1) & Hn1) (Hs2 & (e2 & He2 & Hf2) & Hn2).
  split; [by eapply sameButPosts_trans|]. split; [|tauto].
  exists (e1 ++ e2). rewrite He2, He1, <- app_assoc. split; [done|].
  by apply Forall_app.
Qed.

Lemma grows_weaken (P Q : IPost.t -> Prop) w w' :
  (forall p, P p -> Q p) -> grows P w w' -> grows Q w w'.
Proof.
  intros H (Hs & (e & He & Hf) & Hn). split; [done|]. split; [|done].
  exists e. split; [done|]. eapply Forall_impl; [exact Hf|done].
Qed.

Lemma grows_commit rows w :
  grows (fun p => In p rows) w (withPosts (committed rows (posts w)) w).
Proof.
  destruct (committed_spec rows (posts w)) as (extra & Heq & Hall & Hnd).
  split; [by repeat split|]. split; [|exact Hnd].
  exists extra. by split.
Qed.

Lemma grows_save p w w' :
  Post.save p w = (Ok tt, w') -> grows (fun q => q = p) w w'.
Proof.
  intros H. pose proof (save_Ok _ _ _ H) as (Hp & Hs & Hfresh).
  split; [done|]. split.
  - exists [p]. split; [done|]. by constructor.
  - unfold tweetIds. rewrite Hp. intros Hnd.
    eapply insert_NoDup; [|exact Hnd]. unfold Post.insert. by rewrite Hfresh.
Qed.

Lemma grows_hasTweetId P w w' id :
  grows P w w' -> Post.hasTweetId id (posts w) = true ->
  Post.hasTweetId id (posts w') = true.
Proof.
  intros (_ & (e & -> & _) & _) H. rewrite hasTweetId_app, H. done.
Qed.

Lemma grows_In P w w' p : grows P w w' -> In p (posts w') -> In p (posts w) \/ P p.
Proof.
  intros (_ & (e & -> & Hf) & _) H. apply in_app_or in H as [H|H]; [by left|].
  right. rewrite Forall_forall in Hf. apply Hf. by apply list_elem_of_In.
Qed.

Lemma grows_prefix P w w' : grows P w w' -> exists extra, posts w' = posts w ++ extra.
Proof. intros (_ & (e & -> & _) & _). eauto. Qed.

(** ** The loop over the fetched tweets *)

Section StoreTweets.

Variable sched : Scheduler.
Variable s : ISubscription.t.
Variable u : UserV2.t.

Lemma storeTweets_step t rest count w :
  let w1 := withPosts (committed (beforeCheck sched t) (posts w)) w in
  let w2 := withPosts (committed (beforeSave sched t) (posts w1)) w1 in
  TwitterService.storeTweets sched s u (t :: rest) count w =
  if Post.hasTweetId (TweetData.id t) (posts w1)
  then TwitterService.storeTweets sched s u rest count w1
  else match Post.save (TwitterService.newPost s u t) w2 with
       | (Ok _, w3) => TwitterService.storeTweets sched s u rest (S count) w3
       | (Throw e, w3) => (Throw e, w3)
       end.
Proof.
  simpl. unfold bind at 1. rewrite commit_eq. unfold bind at 1.
  unfold Post.findOne.
  destruct (find _ _) as [q|] eqn:Hfind.
  - destruct (Post.hasTweetId _ _) eqn:Hhas; [done|].
    apply find_hasTweetId in Hhas. simpl in Hfind, Hhas. congruence.
  - apply find_hasTweetId in Hfind. simpl in Hfind. simpl. rewrite Hfind.
    unfold bind at 1. rewrite commit_eq. unfold bind at 1.
    destruct (Post.save _ _) as [[[]|e] w3]; done.
Qed.

Lemma storeTweets_grows tweets : forall count w res w',
  TwitterService.storeTweets sched s u tweets count w = (res, w') ->
  grows (fun p => foreign sched p \/ builtFrom s u tweets p) w w'.
Proof.
  induction tweets as [|t rest IH]; intros count w res w' H.
  - injection H as <- <-. apply grows_refl.
  - rewrite storeTweets_step in H. cbv zeta in H.
    set (w1 := withPosts (committed (beforeCheck sched t) (posts w)) w) in *.
    set (w2 := withPosts (committed (beforeSave sched t) (posts w1)) w1) in *.
    assert (G1 : grows (fun p => foreign sched p \/ builtFrom s u (t :: rest) p) w w1).
    { eapply grows_weaken; [|apply grows_commit]. intros p Hp. left. exists t. by left. }
    assert (G2 : grows (fun p => foreign sched p \/ builtFrom s u (t :: rest) p) w1 w2).
    { eapply grows_weaken; [|apply grows_commit]. intros p Hp. left. exists t. by right. }
    assert (Hrest : forall p, foreign sched p \/ builtFrom s u rest p ->
                              foreign sched p \/ builtFrom s u (t :: rest) p).
    { intros p [Hp|(t' & Hin & ->)]; [by left|]. right. exists t'. split; [by right|done]. }
    destruct (Post.hasTweetId _ _).
    + eapply grows_trans; [exact G1|]. eapply grows_weaken; [exact Hrest|]. by eapply IH.
    + destruct (Post.save _ w2) as [[[]|e] w3] eqn:Hsave.
      * eapply grows_trans; [exact G1|]. eapply grows_trans; [exact G2|].
        eapply grows_trans.
        -- eapply grows_weaken; [|by apply grows_save]. intros p ->. right.
           exists t. split; [by left|done].
        -- eapply grows_weaken; [exact Hrest|]. by eapply IH.
      * injection H as <- <-. apply save_Throw in Hsave as ->.
        eapply grows_trans; [exact G1|exact G2].
Qed.

(** After a loop that completes, every fetched tweet has a row. *)
Lemma storeTweets_stored tweets : forall count w n w',
  TwitterService.storeTweets sched s u tweets count w = (Ok n, w') ->
  Forall (fun t => Post.hasTweetId (TweetData.id t) (posts w') = true) tweets.
Proof.
  induction tweets as [|t rest IH]; intros count w n w' H; [constructor|].
  rewrite storeTweets_step in H. cbv zeta in H.
  set (w1 := withPosts (committed (beforeCheck sched t) (posts w)) w) in *.
  set (w2 := withPosts (committed (beforeSave sched t) (posts w1)) w1) in *.
  destruct (Post.hasTweetId (TweetData.id t) (posts w1)) eqn:Hhas.
  - constructor; [|by eapply IH].
    eapply grows_hasTweetId; [by eapply storeTweets_grows|done].
  - destruct (Post.save _ w2) as [[[]|e] w3] eqn:Hsave; [|discriminate].
    constructor; [|by eapply IH].
    eapply grows_hasTweetId; [by eapply storeTweets_grows|].
    apply save_Ok in Hsave as (-> & _ & _).
    rewrite hasTweetId_app. simpl.
    replace (IPost.tweetId (TwitterService.newPost s u t)) with (TweetData.id t) by done.
    rewrite String.eqb_refl. by rewrite orb_true_r.
Qed.

(** When every fetched tweet already has a row, the loop saves nothing
    and leaves the count as it was. *)
Lemma storeTweets_skip tweets : forall count w,
  Forall (fun t => Post.hasTweetId (TweetData.id t) (posts w) = true) tweets ->
  exists w',
    TwitterService.storeTweets sched s u tweets count w = (Ok count, w') /\
    grows (fun p => exists t, In p (beforeCheck sched t)) w w'.
Proof.
  induction tweets as [|t rest IH]; intros count w Hall.
  - exists w. split; [done|]. apply grows_refl.
  - rewrite storeTweets_step. cbv zeta.
    set (w1 := withPosts (committed (beforeCheck sched t) (posts w)) w) in *.
    assert (G1 : grows (fun p => exists t, In p (beforeCheck sched t)) w w1).
    { eapply grows_weaken; [|apply grows_commit]. intros p Hp. by exists t. }
    inversion Hall as [|? ? Ht Hrest]; subst.
    rewrite (grows_hasTweetId _ _ _ _ G1 Ht).
    destruct (IH count w1) as (w' & Hrun & G).
    { eapply Forall_impl; [exact Hrest|]. intros t' Ht'. simpl in Ht'.
      by eapply grows_hasTweetId. }
    exists w'. split; [done|]. by eapply grows_trans.
Qed.

End StoreTweets.

(** ** The remote calls *)

Lemma getUserByUsername_eq api name w :
  TwitterService.getUserByUsername api name w =
  (match userByUsername api name with
   | inr data => Ok data
   | inl error =>
       Throw (Error ("User @" +:+ name +:+ " not found: " +:+ errMessage error))
   end, afterCall api w).
Proof.
  unfold TwitterService.getUserByUsername. async.
  by destruct (userByUsername api name).
Qed.

Lemma getUserTweets_world build api uid o w :
  snd (TwitterService.getUserTweets build api uid o w) = afterCall api w.
Proof.
  unfold TwitterService.getUserTweets. async.
  destruct (userTimeline api uid _) as [e|[[|t data]|]]; simpl.
  - by destruct (hasCode 429 e).
  - done.
  - destruct (0 <? _)%nat; [|done].
    destruct (TwitterService.keywordRegex _ _) as [f|e]; simpl; [done|].
    by destruct (hasCode 429 e).
  - done.
Qed.

Lemma getUserTweets_pure build api uid o w w0 :
  fst (TwitterService.getUserTweets build api uid o w) =
  fst (TwitterService.getUserTweets build api uid o w0).
Proof.
  unfold TwitterService.getUserTweets. async.
  destruct (userTimeline api uid _) as [e|[[|t data]|]]; simpl.
  - by destruct (hasCode 429 e).
  - done.
  - destruct (0 <? _)%nat; [|done].
    destruct (TwitterService.keywordRegex _ _) as [f|e]; simpl; [done|].
    by destruct (hasCode 429 e).
  - done.
Qed.

(** [processSubscriptionTweets], one step after the other. *)
Lemma processSubscriptionTweets_eq build api sched s w :
  TwitterService.processSubscriptionTweets build api sched s w =
  let w1 := afterCall api w in
  match userByUsername api (ISubscription.targetUsername s) with
  | inl error =>
      (Throw (Error ("User @" +:+ ISubscription.targetUsername s +:+ " not found: "
                     +:+ errMessage error)), w1)
  | inr None =>
      (Throw (TypeError "Cannot read properties of undefined (reading 'id')"), w1)
  | inr (Some u) =>
      let w2 := afterCall api w1 in
      match fst (TwitterService.getUserTweets build api (UserV2.id u)
                   (TwitterService.subscriptionOptions build s) w1) with
      | Throw e => (Throw e, w2)
      | Ok tweets =>
          match TwitterService.storeTweets sched s u tweets 0%nat w2 with
          | (Ok n, w3) => (Ok n, checkpointed s w3)
          | (Throw e, w3) => (Throw e, w3)
          end
      end
  end.
Proof.
  unfold TwitterService.processSubscriptionTweets.
  unfold tryCatch at 1. unfold bind at 1. rewrite getUserByUsername_eq.
  cbv zeta. destruct (userByUsername api _) as [e|[u|]]; [done| |done].
  unfold bind at 1.
  pose proof (getUserTweets_world build api (UserV2.id u)
                (TwitterService.subscriptionOptions build s) (afterCall api w)) as Hw.
  destruct (TwitterService.getUserTweets _ _ _ _ _) as [[tweets|e] w2]; simpl in *;
    subst w2; [|done].
  unfold bind at 1.
  destruct (TwitterService.storeTweets _ _ _ _ _ _) as [[n|e] w3]; done.
Qed.

(** ** One reconciliation *)

Lemma posts_afterCall api w : posts (afterCall api w) = posts w.
Proof. reflexivity. Qed.

Lemma posts_checkpointed s w : posts (checkpointed s w) = posts w.
Proof. reflexivity. Qed.

(** The rows of the posts after a run: the rows before it, then rows of
    other tasks and documents built by this run. *)
Lemma process_posts build api sched s w res w' :
  TwitterService.processSubscriptionTweets build api sched s w = (res, w') ->
  (exists extra,
     posts w' = posts w ++ extra /\
     Forall (fun p => foreign sched p \/
                      exists u t, p = TwitterService.newPost s u t) extra) /\
  (List.NoDup (tweetIds w) -> List.NoDup (tweetIds w')).
Proof.
  rewrite processSubscriptionTweets_eq. cbv zeta.
  assert (Hnone : forall w0, posts w0 = posts w ->
    (exists extra, posts w0 = posts w ++ extra /\
       Forall (fun p => foreign sched p \/
                        exists u t, p = TwitterService.newPost s u t) extra) /\
    (List.NoDup (tweetIds w) -> List.NoDup (tweetIds w0))).
  { intros w0 Hw0. split; [exists []; by rewrite app_nil_r|].
    unfold tweetIds. by rewrite Hw0. }
  destruct (userByUsername api _) as [e|[u|]].
  - intros [= <- <-]. by apply Hnone.
  - destruct (fst (TwitterService.getUserTweets _ _ _ _ _)) as [tweets|e].
    + destruct (TwitterService.storeTweets _ _ _ _ _ _) as [r w3] eqn:Hstore.
      apply storeTweets_grows in Hstore as (_ & (extra & Hext & Hall) & Hnd).
      intros H. assert (posts w' = posts w3) as Hp.
      { destruct r; injection H as <- <-; done. }
      split.
      * exists extra. rewrite Hp, Hext. split; [done|].
        eapply Forall_impl; [exact Hall|]. intros p [Hp'|(t & _ & ->)]; [by left|].
        right. by exists u, t.
      * unfold tweetIds in *. rewrite Hp. exact Hnd.
    + intros [= <- <-]. by apply Hnone.
  - intros [= <- <-]. by apply Hnone.
Qed.

Lemma fetches_unique build api s tweets tweets' :
  fetches build api s tweets -> fetches build api s tweets' -> tweets = tweets'.
Proof.
  intros (u & Hu & H) (u' & Hu' & H'). rewrite Hu in Hu'. injection Hu' as <-.
  specialize (H (mkWorld [] [] [] 0)). specialize (H' (mkWorld [] [] [] 0)). congruence.
Qed.

(** A run that completes fetched some tweets and ran the loop over them. *)
Lemma process_Ok build api sched s w n w' :
  TwitterService.processSubscriptionTweets build api sched s w = (Ok n, w') ->
  exists u tweets w3,
    userByUsername api (ISubscription.targetUsername s) = inr (Some u) /\
    fetches build api s tweets /\
    TwitterService.storeTweets sched s u tweets 0%nat (afterCall api (afterCall api w))
      = (Ok n, w3) /\
    w' = checkpointed s w3.
Proof.
  rewrite processSubscriptionTweets_eq. cbv zeta.
  destruct (userByUsername api _) as [e|[u|]] eqn:Hu; [discriminate| |discriminate].
  destruct (fst (TwitterService.getUserTweets _ _ _ _ _)) as [tweets|e] eqn:Hf;
    [|discriminate].
  destruct (TwitterService.storeTweets _ _ _ _ _ _) as [[n'|e] w3] eqn:Hs; [|discriminate].
  intros [= <- <-]. exists u, tweets, w3. repeat split; try done.
  exists u. split; [done|]. intros w0. rewrite <- Hf. apply getUserTweets_pure.
Qed.

(** A run over tweets that all have a row completes with count 0. *)
Lemma process_all_known build api sched s tweets w :
  fetches build api s tweets ->
  Forall (fun t => Post.hasTweetId (TweetData.id t) (posts w) = true) tweets ->
  exists w3,
    TwitterService.processSubscriptionTweets build api sched s w
      = (Ok 0%nat, checkpointed s w3) /\
    grows (fun p => exists t, In p (beforeCheck sched t)) (afterCall api (afterCall api w)) w3.
Proof.
  intros (u & Hu & Hf) Hall.
  destruct (storeTweets_skip sched s u tweets 0%nat (afterCall api (afterCall api w)))
    as (w3 & Hrun & G); [done|].
  exists w3. split; [|done].
  rewrite processSubscriptionTweets_eq. cbv zeta. rewrite Hu, Hf, Hrun. done.
Qed.

(** C1. Idempotence of reconciliation: when [processSubscriptionTweets]
    runs again after a run that completed, and the remote source returns
    the same posts ([tweets]) and no new ones, every fetched post is skipped
    by the existence check: the run returns the count 0 and saves no row
    (the only rows that can appear are those other tasks commit meanwhile;
    without them the collection is unchanged), and no two rows share a
    tweet identifier. *)
Theorem reconcile_again_stores_nothing
    (build : Build) (api1 api2 : TwitterApi) (sched1 sched2 : Scheduler)
    (s s2 : ISubscription.t) (tweets : list TweetData.t) (w w1 : World) (n : nat) :
  TwitterService.processSubscriptionTweets build api1 sched1 s w = (Ok n, w1) ->
  fetches build api1 s tweets ->
  fetches build api2 s2 tweets ->
  exists w2,
    TwitterService.processSubscriptionTweets build api2 sched2 s2 w1 = (Ok 0%nat, w2) /\
    (exists extra,
       posts w2 = posts w1 ++ extra /\
       Forall (fun p => exists t, In p (beforeCheck sched2 t)) extra) /\
    ((forall t, beforeCheck sched2 t = []) -> posts w2 = posts w1) /\
    (List.NoDup (tweetIds w) -> List.NoDup (tweetIds w2)).
Proof.
  intros Hrun1 Hf1 Hf2.
  pose proof (process_posts _ _ _ _ _ _ _ Hrun1) as [_ Hnd1].
  apply process_Ok in Hrun1 as (u & tweets1 & w3 & Hu & Hf1' & Hstore & ->).
  pose proof (fetches_unique _ _ _ _ _ Hf1 Hf1') as <-.
  apply storeTweets_stored in Hstore.
  destruct (process_all_known build api2 sched2 s2 tweets (checkpointed s w3) Hf2 Hstore)
    as (w4 & Hrun2 & (_ & (extra & Hext & Hall) & Hnd2)).
  exists (checkpointed s2 w4). split; [done|].
  assert (Hposts : posts (checkpointed s2 w4) = posts (checkpointed s w3) ++ extra) by done.
  split; [by exists extra|]. split.
  - intros Hseq. rewrite Hposts. destruct extra as [|p extra]; [by rewrite app_nil_r|].
    inversion Hall as [|? ? (t & Hin) _]; subst. rewrite Hseq in Hin. destruct Hin.
  - intros Hnd. apply Hnd2, Hnd1, Hnd.
Qed.

Lemma apiOf_fetches build timeline s :
  ISubscription.keywords s = [] ->
  fetches build (apiOf timeline) s (map TwitterService.toTweetData timeline).
Proof.
  intros Hk. exists acme. split; [done|]. intros w.
  unfold TwitterService.getUserTweets, TwitterService.subscriptionOptions. simpl.
  rewrite Hk. async. by destruct timeline.
Qed.

Lemma reconcile_again_stores_nothing_witness :
  exists w2,
    TwitterService.processSubscriptionTweets tsBuild apiAcme sequential subAcme
      (snd (TwitterService.processSubscriptionTweets tsBuild apiAcme sequential
              subAcme world0))
    = (Ok 0%nat, w2) /\
    map IPost.tweetId (posts w2) = ["1"; "2"].
Proof.
  destruct (reconcile_again_stores_nothing tsBuild apiAcme apiAcme sequential sequential
              subAcme subAcme [tweetLaunch; tweetReply] world0
              (snd (TwitterService.processSubscriptionTweets tsBuild apiAcme sequential
                      subAcme world0)) 2%nat)
    as (w2 & Hrun & _ & Hsame & _).
  - reflexivity.
  - apply (apiOf_fetches tsBuild [tweetLaunch; tweetReply] subAcme). reflexivity.
  - apply (apiOf_fetches tsBuild [tweetLaunch; tweetReply] subAcme). reflexivity.
  - exists w2. split; [exact Hrun|]. rewrite Hsame; [reflexivity|done].
Defined.

(** ** Exclusion of replies and retweets *)

(** The timeline request made for a subscription. *)
Lemma getUserTweets_request build api api' uid s w :
  latency api' = latency api ->
  regexpBeyond api' = regexpBeyond api ->
  userTimeline api' uid (timelineRequest build s)
    = userTimeline api uid (timelineRequest build s) ->
  TwitterService.getUserTweets build api' uid (TwitterService.subscriptionOptions build s) w
  = TwitterService.getUserTweets build api uid (TwitterService.subscriptionOptions build s) w.
Proof.
  intros Hl Hr Ht.
  unfold TwitterService.getUserTweets, TwitterService.keywordRegex,
    TwitterService.subscriptionOptions. simpl.
  fold (timelineRequest build s). rewrite Ht, Hl, Hr. done.
Qed.

(** C6, as the code has it. With [includeReplies = false] the timeline
    request asks the remote source to leave replies out ([exclude] holds
    ["replies"]; likewise ["retweets"] for [includeRetweets = false]), and
    the request is all the service does about it: a run that completes
    leaves a row for every fetched tweet, a reply or retweet that the
    source returned anyway included, and the document it builds records the
    reference as [isReply] or [isRetweet]. *)
Theorem exclusion_is_requested_not_enforced
    (build : Build) (api : TwitterApi) (sched : Scheduler) (s : ISubscription.t) :
  (In "replies" (TimelineParams.exclude (timelineRequest build s))
     <-> ISubscription.includeReplies s = false) /\
  (In "retweets" (TimelineParams.exclude (timelineRequest build s))
     <-> ISubscription.includeRetweets s = false) /\
  (forall api' uid w,
     latency api' = latency api ->
     regexpBeyond api' = regexpBeyond api ->
     userTimeline api' uid (timelineRequest build s)
       = userTimeline api uid (timelineRequest build s) ->
     TwitterService.getUserTweets build api' uid
       (TwitterService.subscriptionOptions build s) w
     = TwitterService.getUserTweets build api uid
         (TwitterService.subscriptionOptions build s) w) /\
  (forall tweets w n w',
     fetches build api s tweets ->
     TwitterService.processSubscriptionTweets build api sched s w = (Ok n, w') ->
     Forall (fun t => Post.hasTweetId (TweetData.id t) (posts w') = true) tweets) /\
  (forall u t,
     IPost.isReply (TwitterService.newPost s u t)
       = TwitterService.hasReference "replied_to" t /\
     IPost.isRetweet (TwitterService.newPost s u t)
       = TwitterService.hasReference "retweeted" t).
Proof.
  split; [|split; [|split; [|split]]].
  - unfold timelineRequest, TwitterService.excludeTypes. simpl.
    destruct (ISubscription.includeReplies s), (ISubscription.includeRetweets s);
      simpl; split; intros H; try done; try (by left);
      destruct H as [H|H]; try discriminate; destruct H.
  - unfold timelineRequest, TwitterService.excludeTypes. simpl.
    destruct (ISubscription.includeReplies s), (ISubscription.includeRetweets s);
      simpl; split; intros H; try done; try (by left); try (by right; left);
      repeat (destruct H as [H|H]; try discriminate); destruct H.
  - intros. by apply getUserTweets_request.
  - intros tweets w n w' Hf Hrun.
    apply process_Ok in Hrun as (u & tweets' & w3 & _ & Hf' & Hstore & ->).
    rewrite (fetches_unique _ _ _ _ _ Hf Hf').
    apply storeTweets_stored in Hstore. exact Hstore.
  - intros u t. by split.
Qed.

Lemma exclusion_is_requested_not_enforced_witness :
  In "replies" (TimelineParams.exclude (timelineRequest tsBuild subAcme)) /\
  Forall (fun t =>
    Post.hasTweetId (TweetData.id t)
      (posts (snd (TwitterService.processSubscriptionTweets tsBuild apiAcme sequential
                     subAcme world0))) = true)
    [tweetLaunch; tweetReply].
Proof.
  destruct (exclusion_is_requested_not_enforced tsBuild apiAcme sequential subAcme)
    as (Hreq & _ & _ & Hstored & _).
  split.
  - apply Hreq. reflexivity.
  - apply (Hstored [tweetLaunch; tweetReply] world0 2%nat).
    + apply (apiOf_fetches tsBuild [tweetLaunch; tweetReply] subAcme). reflexivity.
    + reflexivity.
Defined.

(** C6, as stated, fails: the subscription excludes replies, the source
    returns a reply all the same, and the run stores it. *)
Lemma reply_returned_by_source_is_stored :
  ISubscription.includeReplies subAcme = false /\
  TwitterService.hasReference "replied_to" tweetReply = true /\
  fetches tsBuild apiAcme subAcme [tweetLaunch; tweetReply] /\
  Post.hasTweetId (TweetData.id tweetReply) (posts world0) = false /\
  exists w',
    TwitterService.processSubscriptionTweets tsBuild apiAcme sequential subAcme world0
      = (Ok 2%nat, w') /\
    In (TwitterService.newPost subAcme acme tweetReply) (posts w') /\
    IPost.isReply (TwitterService.newPost subAcme acme tweetReply) = true.
Proof.
  split; [reflexivity|]. split; [reflexivity|]. split.
  { apply (apiOf_fetches tsBuild [tweetLaunch; tweetReply] subAcme). reflexivity. }
  split; [reflexivity|].
  eexists. split; [reflexivity|]. split; [|reflexivity].
  right. left. reflexivity.
Qed.

(** ** Errors *)

Lemma save_duplicate p w :
  Post.validate p = None ->
  Post.hasTweetId (IPost.tweetId p) (posts w) = true ->
  Post.save p w = (Throw (DuplicateKey (IPost.tweetId p)), w).
Proof.
  intros Hv Hd. unfold Post.save, Post.insert. by rewrite Hv, Hd.
Qed.

Lemma process_Throw_subscriptions build api sched s w e w' :
  TwitterService.processSubscriptionTweets build api sched s w = (Throw e, w') ->
  subscriptions w' = subscriptions w /\ users w' = users w.
Proof.
  rewrite processSubscriptionTweets_eq. cbv zeta.
  destruct (userByUsername api _) as [e0|[u|]]; [by intros [= _ <-]| |by intros [= _ <-]].
  destruct (fst (TwitterService.getUserTweets _ _ _ _ _)) as [tweets|e0];
    [|by intros [= _ <-]].
  destruct (TwitterService.storeTweets _ _ _ _ _ _) as [[n|e0] w3] eqn:Hs; [discriminate|].
  intros [= _ <-]. apply storeTweets_grows in Hs as ((Hsub & Hus & _) & _).
  by rewrite Hsub, Hus.
Qed.

(** C3, as the code has it. [processSubscriptionTweets] absorbs no error:
    its [catch] logs and rethrows. The error of the account lookup, the
    error of the fetch and the error of a save leave the method as they
    were raised, and a save that the unique index on [tweetId] rejects is
    one of them: the [DuplicateKey] error ends the run, and the checkpoint
    is not written. A tweet is skipped, without count or error, only when
    the existence check finds its row. *)
Theorem no_error_is_absorbed
    (build : Build) (api : TwitterApi) (sched : Scheduler) (s : ISubscription.t)
    (w : World) :
  (forall e w1,
     TwitterService.getUserByUsername api (ISubscription.targetUsername s) w
       = (Throw e, w1) ->
     TwitterService.processSubscriptionTweets build api sched s w = (Throw e, w1)) /\
  (forall u w1 e w2,
     TwitterService.getUserByUsername api (ISubscription.targetUsername s) w
       = (Ok (Some u), w1) ->
     TwitterService.getUserTweets build api (UserV2.id u)
       (TwitterService.subscriptionOptions build s) w1 = (Throw e, w2) ->
     TwitterService.processSubscriptionTweets build api sched s w = (Throw e, w2)) /\
  (forall u w1 tweets w2 e w3,
     TwitterService.getUserByUsername api (ISubscription.targetUsername s) w
       = (Ok (Some u), w1) ->
     TwitterService.getUserTweets build api (UserV2.id u)
       (TwitterService.subscriptionOptions build s) w1 = (Ok tweets, w2) ->
     TwitterService.storeTweets sched s u tweets 0%nat w2 = (Throw e, w3) ->
     TwitterService.processSubscriptionTweets build api sched s w = (Throw e, w3)) /\
  (forall u t rest count w0,
     let w1 := withPosts (committed (beforeCheck sched t) (posts w0)) w0 in
     let w2 := withPosts (committed (beforeSave sched t) (posts w1)) w1 in
     Post.hasTweetId (TweetData.id t) (posts w1) = false ->
     Post.hasTweetId (TweetData.id t) (posts w2) = true ->
     Post.validate (TwitterService.newPost s u t) = None ->
     TwitterService.storeTweets sched s u (t :: rest) count w0
       = (Throw (DuplicateKey (TweetData.id t)), w2)) /\
  (forall u t rest count w0,
     let w1 := withPosts (committed (beforeCheck sched t) (posts w0)) w0 in
     Post.hasTweetId (TweetData.id t) (posts w1) = true ->
     TwitterService.storeTweets sched s u (t :: rest) count w0
       = TwitterService.storeTweets sched s u rest count w1) /\
  (forall e w',
     TwitterService.processSubscriptionTweets build api sched s w = (Throw e, w') ->
     subscriptions w' = subscriptions w).
Proof.
  split; [|split; [|split; [|split; [|split]]]].
  - intros e w1. rewrite getUserByUsername_eq, processSubscriptionTweets_eq. cbv zeta.
    destruct (userByUsername api _) as [e0|[u|]];
      [by intros [= <- <-]|discriminate|discriminate].
  - intros u w1 e w2. rewrite getUserByUsername_eq, processSubscriptionTweets_eq.
    cbv zeta. destruct (userByUsername api _) as [e0|[u0|]]; try discriminate.
    intros [= -> <-] Hf.
    pose proof (getUserTweets_world build api (UserV2.id u)
                  (TwitterService.subscriptionOptions build s) (afterCall api w)) as Hw.
    rewrite Hf in *. simpl in *. by subst w2.
  - intros u w1 tweets w2 e w3. rewrite getUserByUsername_eq, processSubscriptionTweets_eq.
    cbv zeta. destruct (userByUsername api _) as [e0|[u0|]]; try discriminate.
    intros [= -> <-] Hf Hs.
    pose proof (getUserTweets_world build api (UserV2.id u)
                  (TwitterService.subscriptionOptions build s) (afterCall api w)) as Hw.
    rewrite Hf in *. simpl in *. subst w2. by rewrite Hs.
  - intros u t rest count w0 w1 w2 Hnew Hdup Hvalid.
    rewrite storeTweets_step. cbv zeta. fold w1. fold w2. rewrite Hnew.
    rewrite save_duplicate; [done|done|]. exact Hdup.
  - intros u t rest count w0 w1 Hknown.
    rewrite storeTweets_step. cbv zeta. fold w1. by rewrite Hknown.
  - intros e w' H. by apply process_Throw_subscriptions in H as [? _].
Qed.

Lemma no_error_is_absorbed_witness :
  TwitterService.storeTweets racing subAcme acme [tweetLaunch] 0%nat world0
  = (Throw (DuplicateKey "1"),
     withPosts [TwitterService.newPost subAcme acme tweetLaunch] world0).
Proof.
  destruct (no_error_is_absorbed tsBuild apiAcme racing subAcme world0)
    as (_ & _ & _ & H & _ & _).
  apply (H acme tweetLaunch [] 0%nat world0); reflexivity.
Defined.

(** C3, as stated, fails: a concurrent reconciliation saves the row of the
    first tweet between the check and the save of this run; the unique index
    rejects the save, the error reaches the caller and the checkpoint stays
    where it was. *)
Lemma duplicate_key_reaches_the_caller :
  exists w',
    TwitterService.processSubscriptionTweets tsBuild apiAcme racing subAcme world0
      = (Throw (DuplicateKey "1"), w') /\
    isDuplicateKey (DuplicateKey "1") = true /\
    subscriptions w' = subscriptions world0.
Proof. eexists. split; [reflexivity|]. split; reflexivity. Qed.

(** ** The normal form of a name *)

Lemma lower_idem c : Js.lower (Js.lower c) = Js.lower c.
Proof. destruct c as [[] [] [] [] [] [] [] []]; reflexivity. Qed.

Lemma is_space_lower c : Js.is_space (Js.lower c) = Js.is_space c.
Proof. destruct c as [[] [] [] [] [] [] [] []]; reflexivity. Qed.

Lemma chars_str l : Js.chars (Js.str l) = l.
Proof. apply list_ascii_of_string_of_list_ascii. Qed.

Lemma trimStart_lower l :
  Js.trimStart (map Js.lower l) = map Js.lower (Js.trimStart l).
Proof.
  induction l as [|c l IH]; simpl; [done|].
  rewrite is_space_lower. by destruct (Js.is_space c).
Qed.

Lemma trimStart_head l : headIsNoSpace (Js.trimStart l).
Proof.
  induction l as [|c l IH]; simpl; [done|].
  destruct (Js.is_space c) eqn:E; [done|]. exact E.
Qed.

Lemma trimStart_fixed l : headIsNoSpace l -> Js.trimStart l = l.
Proof. destruct l as [|c l]; simpl; [done|]. by intros ->. Qed.

Lemma trimStart_suffix l : exists pre, l = pre ++ Js.trimStart l.
Proof.
  induction l as [|c l [pre IH]]; simpl; [by exists []|].
  destruct (Js.is_space c); [|by exists []].
  exists (c :: pre). simpl. by rewrite <- IH.
Qed.

Lemma trimEnd_prefix l : exists rest, l = trimEnd l ++ rest.
Proof.
  unfold trimEnd. destruct (trimStart_suffix (rev l)) as [pre H].
  exists (rev pre). rewrite <- rev_app_distr, <- H. by rewrite rev_involutive.
Qed.

Lemma trimEnd_head l : headIsNoSpace l -> headIsNoSpace (trimEnd l).
Proof.
  destruct (trimEnd_prefix l) as [rest H]. intros Hl. rewrite H in Hl.
  by destruct (trimEnd l).
Qed.

Lemma trimEnd_idem l : trimEnd (trimEnd l) = trimEnd l.
Proof.
  unfold trimEnd. rewrite rev_involutive.
  by rewrite (trimStart_fixed _ (trimStart_head (rev l))).
Qed.

Lemma trimEnd_lower l : trimEnd (map Js.lower l) = map Js.lower (trimEnd l).
Proof. unfold trimEnd. by rewrite <- map_rev, trimStart_lower, map_rev. Qed.

(** Normalising a normal name changes nothing. *)
Lemma normalName_idem name : normalName (normalName name) = normalName name.
Proof.
  unfold normalName, Js.trim, Js.toLowerCase. rewrite !chars_str. f_equal.
  set (l := map Js.lower (Js.chars name)).
  change (trimEnd (Js.trimStart (map Js.lower (trimEnd (Js.trimStart l))))
          = trimEnd (Js.trimStart l)).
  assert (Hl : map Js.lower (trimEnd (Js.trimStart l)) = trimEnd (Js.trimStart l)).
  { rewrite <- trimEnd_lower, <- trimStart_lower. unfold l. rewrite map_map.
    by rewrite (map_ext _ Js.lower) by (intros; apply lower_idem). }
  rewrite Hl, (trimStart_fixed (trimEnd (Js.trimStart l))).
  - apply trimEnd_idem.
  - apply trimEnd_head, trimStart_head.
Qed.

(** ** The collection of subscriptions *)

Lemma updateFirst_map {B : Type} (g : ISubscription.t -> B) sel f l :
  (forall x, In x l -> sel x = true -> g (f x) = g x) ->
  map g (Subscription.updateFirst sel f l) = map g l.
Proof.
  induction l as [|x l IH]; intros H; simpl; [done|].
  destruct (sel x) eqn:E; simpl.
  - rewrite H; [done|by left|done].
  - rewrite IH; [done|]. intros y Hy. apply H. by right.
Qed.

Lemma updateFirst_length sel f l :
  length (Subscription.updateFirst sel f l) = length l.
Proof.
  induction l as [|x l IH]; simpl; [done|]. destruct (sel x); simpl; by rewrite ?IH.
Qed.

Lemma updateFirst_Forall (P : ISubscription.t -> Prop) sel f l :
  Forall P l ->
  (forall x, In x l -> sel x = true -> P x -> P (f x)) ->
  Forall P (Subscription.updateFirst sel f l).
Proof.
  induction l as [|x l IH]; intros Hall H; simpl; [done|].
  inversion Hall as [|? ? Hx Hl]; subst.
  destruct (sel x) eqn:E; constructor; try done.
  - apply H; [by left|done|done].
  - apply IH; [done|]. intros y Hy. apply H. by right.
Qed.

Lemma updateFirst_none sel f l :
  find sel l = None -> Subscription.updateFirst sel f l = l.
Proof.
  induction l as [|x l IH]; simpl; [done|].
  destruct (sel x); [discriminate|]. intros H. by rewrite IH.
Qed.

(** The document that is updated is the one [find] returns. *)
Lemma updateFirst_In sel f l x :
  find sel l = Some x ->
  In (f x) (Subscription.updateFirst sel f l) /\ In x l /\ sel x = true.
Proof.
  induction l as [|y l IH]; simpl; [done|].
  destruct (sel y) eqn:E.
  - intros [= ->]. split; [by left|]. split; [by left|done].
  - intros H. destruct (IH H) as (? & ? & ?). split; [by right|]. split; [by right|done].
Qed.

(** Every other document stays. *)
Lemma updateFirst_others sel f l y :
  In y l -> sel y = false -> In y (Subscription.updateFirst sel f l).
Proof.
  induction l as [|x l IH]; simpl; [done|].
  intros [->|Hy] Hs.
  - rewrite Hs. by left.
  - destruct (sel x); [by right|]. right. by apply IH.
Qed.

Lemma updateFirst_inv sel f l y :
  In y (Subscription.updateFirst sel f l) ->
  In y l \/ exists x, In x l /\ sel x = true /\ y = f x.
Proof.
  induction l as [|x l IH]; simpl; [done|].
  destruct (sel x) eqn:E; simpl.
  - intros [<-|Hy]; [|by left; right]. right. exists x. split; [by left|done].
  - intros [<-|Hy]; [by left; left|].
    destruct (IH Hy) as [?|(x' & ? & ? & ?)]; [by left; right|].
    right. exists x'. split; [by right|done].
Qed.

Lemma find_by_id l s :
  List.NoDup (map ISubscription._id l) -> In s l ->
  find (byId (ISubscription._id s)) l = Some s.
Proof.
  induction l as [|x l IH]; simpl; [done|].
  intros Hnd Hin. apply NoDup_cons_iff in Hnd as [Hx Hnd].
  unfold byId at 1. destruct (Nat.eqb_spec (ISubscription._id x) (ISubscription._id s)) as [E|E].
  - destruct Hin as [->|Hin]; [done|].
    exfalso. apply Hx. rewrite E. by apply in_map.
  - destruct Hin as [->|Hin]; [done|]. by apply IH.
Qed.

Lemma freshId_above l s : In s l -> (ISubscription._id s < Subscription.freshId l)%nat.
Proof.
  unfold Subscription.freshId. induction l as [|x l IH]; simpl; [done|].
  intros [->|H]; [lia|]. specialize (IH H). lia.
Qed.

Lemma freshId_fresh l : ~ In (Subscription.freshId l) (map ISubscription._id l).
Proof.
  intros H. apply in_map_iff in H as (s & Heq & Hin).
  apply freshId_above in Hin. lia.
Qed.

Lemma samePair_pairOf userId target s :
  Subscription.samePair userId target s = true <-> pairOf s = (userId, target).
Proof.
  unfold Subscription.samePair, pairOf. rewrite andb_true_iff, Nat.eqb_eq, String.eqb_eq.
  split; [by intros [-> ->]|by intros [= -> ->]].
Qed.

Lemma existsb_samePair userId target l :
  existsb (Subscription.samePair userId target) l = false ->
  ~ In (userId, target) (map pairOf l).
Proof.
  intros H Hin. apply in_map_iff in Hin as (s & Heq & Hin).
  assert (existsb (Subscription.samePair userId target) l = true); [|congruence].
  apply existsb_exists. exists s. split; [done|]. by apply samePair_pairOf.
Qed.

Lemma validate_None s :
  Subscription.validate s = None ->
  Js.nonEmpty (ISubscription.targetUsername s) = true /\ intervalInBounds s.
Proof.
  unfold Subscription.validate, intervalInBounds.
  destruct (Js.nonEmpty _); simpl; [|discriminate].
  destruct (Z.ltb_spec (ISubscription.checkInterval s) 15); [discriminate|].
  destruct (Z.ltb_spec 1440 (ISubscription.checkInterval s)); [discriminate|].
  intros _. split; [done|lia].
Qed.

Lemma validateModified_None s :
  Subscription.validateModified s = None <-> intervalInBounds s.
Proof.
  unfold Subscription.validateModified, intervalInBounds.
  destruct (Z.ltb_spec (ISubscription.checkInterval s) 15); [split; [discriminate|lia]|].
  destruct (Z.ltb_spec 1440 (ISubscription.checkInterval s)); [split; [discriminate|lia]|].
  split; [lia|done].
Qed.

(** ** The invariant *)

Lemma Invariant_later w c :
  Invariant w -> clock w <= c -> Invariant (withClock c w).
Proof.
  intros [] Hc. constructor; try done. simpl.
  eapply Forall_impl; [eassumption|]. simpl. intros. lia.
Qed.

Lemma Invariant_afterCall api w : Invariant w -> Invariant (afterCall api w).
Proof. intros H. apply Invariant_later; [done|]. simpl. lia. Qed.

(** An update of one document that keeps its identity and its validity. *)
Lemma Invariant_update w sel f :
  Invariant w ->
  (forall x, In x (subscriptions w) -> sel x = true ->
     ISubscription._id (f x) = ISubscription._id x /\
     pairOf (f x) = pairOf x /\
     intervalInBounds (f x) /\
     ISubscription.lastChecked (f x) <= clock w) ->
  Invariant (withSubscriptions (Subscription.updateFirst sel f (subscriptions w)) w).
Proof.
  intros [Hids Hpairs Hint Htar Hnorm Hchk Htw] H. constructor; simpl; try done.
  - rewrite updateFirst_map; [done|]. intros x Hx Hs. by apply H.
  - rewrite updateFirst_map; [done|]. intros x Hx Hs. by apply H.
  - apply updateFirst_Forall; [done|]. intros x Hx Hs _. by apply H.
  - apply updateFirst_Forall; [done|]. intros x Hx Hs Hne.
    destruct (H x Hx Hs) as (_ & Hp & _). unfold pairOf in Hp.
    injection Hp as _ ->. done.
  - apply updateFirst_Forall; [done|]. intros x Hx Hs Hne.
    destruct (H x Hx Hs) as (_ & Hp & _). unfold pairOf in Hp.
    injection Hp as _ ->. done.
  - apply updateFirst_Forall; [done|]. intros x Hx Hs _. by apply H.
Qed.

Lemma Invariant_posts w w' :
  Invariant w -> sameButPosts w w' ->
  (List.NoDup (tweetIds w) -> List.NoDup (tweetIds w')) -> Invariant w'.
Proof.
  intros [] (Hs & _ & Hc) Hnd. constructor; rewrite ?Hs, ?Hc; auto.
Qed.

Lemma Invariant_checkpointed s w : Invariant w -> Invariant (checkpointed s w).
Proof.
  intros H. apply Invariant_update; [done|]. intros x Hx _.
  pose proof (inv_intervals _ H) as Hint. rewrite Forall_forall in Hint.
  split; [done|]. split; [done|]. split.
  - apply (Hint x). by apply list_elem_of_In.
  - simpl. lia.
Qed.

Lemma process_Invariant build api sched s w res w' :
  TwitterService.processSubscriptionTweets build api sched s w = (res, w') ->
  Invariant w -> Invariant w'.
Proof.
  rewrite processSubscriptionTweets_eq. cbv zeta. intros Hrun Hinv.
  pose proof (Invariant_afterCall api _ Hinv) as H1.
  pose proof (Invariant_afterCall api _ H1) as H2.
  destruct (userByUsername api _) as [e|[u|]]; [by injection Hrun as <- <-| |
    by injection Hrun as <- <-].
  destruct (fst (TwitterService.getUserTweets _ _ _ _ _)) as [tweets|e];
    [|by injection Hrun as <- <-].
  destruct (TwitterService.storeTweets _ _ _ _ _ _) as [r w3] eqn:Hs.
  apply storeTweets_grows in Hs as (Hsame & _ & Hnd).
  pose proof (Invariant_posts _ _ H2 Hsame Hnd) as H3.
  destruct r; injection Hrun as <- <-; [by apply Invariant_checkpointed|done].
Qed.

(** ** The routes *)

Lemma createForUser_cases api userId w :
  TwitterService.createForUser api userId w = (Ok (Some api), w) \/
  TwitterService.createForUser api userId w = (Ok None, w).
Proof.
  unfold TwitterService.createForUser, User.findById. async.
  destruct (find _ (users w)) as [u|]; [|by right].
  destruct (IUser.twitterCredentials u) as [c|]; [|by right].
  destruct (_ && _); [by left|by right].
Qed.

(** [POST /api/subscriptions], one step after the other. *)
Lemma createSubscription_eq api userId body w :
  Server.createSubscription api userId body w =
  if negb (Server.validCreate body) then (400, w)
  else if negb (Server.hasCredentials
                  (find (fun u => Nat.eqb (IUser._id u) userId) (users w)))
  then (400, w)
  else
    match fst (TwitterService.createForUser api userId w) with
    | Throw _ => (500, w)
    | Ok None => (400, w)
    | Ok (Some service) =>
        let w1 := afterCall service w in
        match userByUsername service (Server.sanitizedTarget body) with
        | inl _ => (500, w1)
        | inr targetUser =>
            match find (Subscription.samePair userId (Server.sanitizedTarget body))
                    (subscriptions w) with
            | Some existingSub =>
                if ISubscription.isActive existingSub then (400, w1)
                else
                  match Subscription.validateModified
                          (reactivated existingSub body (clock w1)) with
                  | Some _ => (500, w1)
                  | None =>
                      (200,
                       withSubscriptions
                         (Subscription.updateFirst (byId (ISubscription._id existingSub))
                            (fun _ => reactivated existingSub body (clock w1))
                            (subscriptions w)) w1)
                  end
            | None =>
                match Subscription.saveNew
                        (ISubscription.mk 0%nat userId (Server.sanitizedTarget body) true
                           (Server.orDefault 60 (Server.CreateBody.checkInterval body))
                           (clock w1)
                           (Server.orDefault [] (Server.CreateBody.keywords body))
                           (Server.orDefault false (Server.CreateBody.includeReplies body))
                           (Server.orDefault false (Server.CreateBody.includeRetweets body)))
                        w1 with
                | (Ok _, w2) =>
                    (match targetUser with Some _ => 201 | None => 500 end, w2)
                | (Throw _, w2) => (500, w2)
                end
            end
        end
    end.
Proof.
  unfold Server.createSubscription.
  destruct (negb (Server.validCreate body)); [done|].
  unfold Server.respond. unfold bind at 1. unfold User.findById at 1.
  destruct (negb (Server.hasCredentials _)); [done|].
  unfold bind at 1.
  destruct (createForUser_cases api userId w) as [-> | ->]; cbn [fst]; [|done].
  unfold bind at 1. rewrite getUserByUsername_eq.
  destruct (userByUsername api _) as [e|targetUser]; [done|].
  unfold bind at 1. unfold Subscription.findOne at 1. cbv beta iota.
  change (subscriptions (afterCall api w)) with (subscriptions w).
  destruct (find _ (subscriptions w)) as [existingSub|].
  - destruct (ISubscription.isActive existingSub); [done|].
    unfold bind at 1. unfold now at 1. unfold bind at 1.
    unfold Subscription.saveExisting.
    fold (reactivated existingSub body (clock (afterCall api w))).
    change (clock w + Z.of_N (latency api)) with (clock (afterCall api w)).
    fold (reactivated existingSub body (clock (afterCall api w))).
    destruct (Subscription.validateModified _); done.
  - unfold bind at 1. unfold now at 1. unfold bind at 1.
    change (clock w + Z.of_N (latency api)) with (clock (afterCall api w)).
    destruct (Subscription.saveNew _ _) as [[s|e] w2]; [|done].
    by destruct targetUser.
Qed.

Lemma saveNew_Ok f w s w' :
  Subscription.saveNew f w = (Ok s, w') ->
  w' = withSubscriptions (subscriptions w ++ [s]) w /\
  ISubscription._id s = Subscription.freshId (subscriptions w) /\
  ISubscription.userId s = ISubscription.userId f /\
  ISubscription.targetUsername s = normalName (ISubscription.targetUsername f) /\
  ISubscription.lastChecked s = ISubscription.lastChecked f /\
  Subscription.validate s = None /\
  existsb (Subscription.samePair (ISubscription.userId s) (ISubscription.targetUsername s))
    (subscriptions w) = false.
Proof.
  unfold Subscription.saveNew. cbv zeta.
  destruct (Subscription.validate _) eqn:Hv; [discriminate|].
  destruct (existsb _ _) eqn:Hex; [discriminate|].
  intros [= <- <-]. by repeat split.
Qed.

Lemma saveNew_Throw f w e w' : Subscription.saveNew f w = (Throw e, w') -> w' = w.
Proof.
  unfold Subscription.saveNew. cbv zeta.
  destruct (Subscription.validate _); [by intros [= _ <-]|].
  destruct (existsb _ _); [by intros [= _ <-]|discriminate].
Qed.

Lemma Invariant_saveNew f w s w' :
  Subscription.saveNew f w = (Ok s, w') ->
  ISubscription.lastChecked f <= clock w ->
  Invariant w -> Invariant w'.
Proof.
  intros H Hc [Hids Hpairs Hint Htar Hnorm Hchk Htw].
  apply saveNew_Ok in H as (-> & Hid & _ & Hname & Hlc & Hv & Hex).
  apply validate_None in Hv as [Hne Hb].
  constructor; simpl; rewrite ?map_app; simpl.
  - apply List.NoDup_app; [done|constructor; [by intros []|constructor]|].
    intros x Hx [<-|[]]. rewrite Hid in Hx. by apply freshId_fresh in Hx.
  - apply List.NoDup_app; [done|constructor; [by intros []|constructor]|].
    intros x Hx [<-|[]]. by apply existsb_samePair in Hex.
  - apply Forall_app. split; [done|]. by constructor.
  - apply Forall_app. split; [done|]. by constructor.
  - apply Forall_app. split; [done|]. constructor; [|done].
    rewrite Hname. apply normalName_idem.
  - apply Forall_app. split; [done|]. constructor; [|done]. by rewrite Hlc.
  - done.
Qed.

Lemma createSubscription_Invariant api userId body w :
  Invariant w -> Invariant (snd (Server.createSubscription api userId body w)).
Proof.
  intros Hinv. rewrite createSubscription_eq.
  destruct (negb (Server.validCreate body)); [done|].
  destruct (negb (Server.hasCredentials _)); [done|].
  destruct (fst (TwitterService.createForUser api userId w)) as [[service|]|e];
    [|done|done].
  cbv zeta. pose proof (Invariant_afterCall service _ Hinv) as H1.
  destruct (userByUsername service _) as [e|targetUser]; [done|].
  destruct (find _ (subscriptions w)) as [ex|] eqn:Hfind.
  - destruct (ISubscription.isActive ex); [done|].
    destruct (Subscription.validateModified _) eqn:Hv; [done|].
    apply validateModified_None in Hv as Hb. simpl.
    apply (Invariant_update (afterCall service w)); [done|].
    intros x Hx Hsel. apply Nat.eqb_eq in Hsel.
    assert (x = ex) as ->.
    { apply find_some in Hfind as [Hin _]. pose proof (inv_ids _ Hinv) as Hids.
      pose proof (find_by_id _ _ Hids Hx) as F1.
      pose proof (find_by_id _ _ Hids Hin) as F2.
      rewrite Hsel in F1. congruence. }
    split; [done|]. split; [done|]. split; [done|]. simpl. lia.
  - destruct (Subscription.saveNew _ _) as [[s|e] w2] eqn:Hs.
    + simpl. eapply Invariant_saveNew; [exact Hs| |done]. simpl. lia.
    + simpl. apply saveNew_Throw in Hs as ->. done.
Qed.

(** [DELETE /api/subscriptions/:id], one step after the other. *)
Lemma deleteSubscription_eq id userId w :
  Server.deleteSubscription (Some id) userId w =
  match find (owned id userId) (subscriptions w) with
  | None => (404, w)
  | Some _ =>
      (200,
       withSubscriptions
         (Subscription.updateFirst (owned id userId) (ISubscription.setIsActive false)
            (subscriptions w)) w)
  end.
Proof.
  unfold Server.deleteSubscription, Server.respond, Subscription.findOneAndUpdate.
  unfold bind at 1. unfold bind at 1. unfold Subscription.findOwned at 1.
  fold (owned id userId). by destruct (find _ _).
Qed.

Lemma deleteSubscription_Invariant id userId w :
  Invariant w -> Invariant (snd (Server.deleteSubscription id userId w)).
Proof.
  intros Hinv. destruct id as [id|]; [|done]. rewrite deleteSubscription_eq.
  destruct (find _ _); [|done]. simpl.
  apply Invariant_update; [done|]. intros x Hx _.
  pose proof (inv_intervals _ Hinv) as Hint. pose proof (inv_checkpoints _ Hinv) as Hchk.
  rewrite Forall_forall in Hint, Hchk.
  apply list_elem_of_In in Hx.
  split; [done|]. split; [done|]. split; [by apply (Hint x)|by apply (Hchk x)].
Qed.

(** One turn of the loop of [processAllUserSubscriptions]: it never
    throws. *)
Lemma processOne_eq build api sched acc s w :
  TwitterService.processOne build api sched acc s w =
  if due s (clock w) then
    match TwitterService.processSubscriptionTweets build api sched s w with
    | (Ok count, w') => (Ok (counted acc count), withClock (clock w' + 1000) w')
    | (Throw e, w') => (Ok (failed acc s e), w')
    end
  else (Ok acc, w).
Proof.
  unfold TwitterService.processOne, due. unfold tryCatch, bind at 1, now at 1.
  destruct (_ <=? _); [|done].
  unfold bind at 1.
  destruct (TwitterService.processSubscriptionTweets _ _ _ _ _) as [[n|e] w']; done.
Qed.

Lemma processOne_Invariant build api sched acc s w r w' :
  TwitterService.processOne build api sched acc s w = (r, w') ->
  Invariant w -> Invariant w'.
Proof.
  rewrite processOne_eq. destruct (due _ _); [|by intros [= _ <-]].
  destruct (TwitterService.processSubscriptionTweets _ _ _ _ _) as [[n|e] w1] eqn:Hrun;
    intros [= _ <-] Hinv; apply process_Invariant in Hrun; try done.
  apply Invariant_later; [done|lia].
Qed.

Lemma processOne_total build api sched acc s w :
  exists acc' w', TwitterService.processOne build api sched acc s w = (Ok acc', w').
Proof.
  rewrite processOne_eq. destruct (due _ _); [|eauto].
  destruct (TwitterService.processSubscriptionTweets _ _ _ _ _) as [[n|e] w1]; eauto.
Qed.

Lemma processEach_cons build api sched s rest acc w :
  TwitterService.processEach build api sched (s :: rest) acc w =
  match TwitterService.processOne build api sched acc s w with
  | (Ok acc', w') => TwitterService.processEach build api sched rest acc' w'
  | (Throw e, w') => (Throw e, w')
  end.
Proof. reflexivity. Qed.

(** The batch never throws. *)
Lemma processEach_total build api sched l : forall acc w,
  exists acc' w', TwitterService.processEach build api sched l acc w = (Ok acc', w').
Proof.
  induction l as [|s rest IH]; intros acc w; [by exists acc, w|].
  rewrite processEach_cons.
  destruct (processOne_total build api sched acc s w) as (acc1 & w1 & ->). apply IH.
Qed.

Lemma processEach_Invariant build api sched l : forall acc w r w',
  TwitterService.processEach build api sched l acc w = (r, w') ->
  Invariant w -> Invariant w'.
Proof.
  induction l as [|s rest IH]; intros acc w r w'; [by intros [= _ <-]|].
  rewrite processEach_cons.
  destruct (TwitterService.processOne _ _ _ _ _ _) as [[acc1|e] w1] eqn:H1.
  - intros H Hinv. eapply IH; [exact H|]. by eapply processOne_Invariant.
  - intros [= _ <-] Hinv. by eapply processOne_Invariant.
Qed.

Lemma refreshSubscription_Invariant build api sched id userId w :
  Invariant w -> Invariant (snd (Server.refreshSubscription build api sched id userId w)).
Proof.
  intros Hinv. destruct id as [id|]; [|done].
  unfold Server.refreshSubscription, Server.respond.
  unfold bind at 1. unfold Subscription.findOwned at 1.
  destruct (find _ _) as [s|]; [|done].
  unfold bind at 1.
  destruct (createForUser_cases api userId w) as [-> | ->]; [|done].
  unfold bind at 1.
  destruct (TwitterService.processSubscriptionTweets _ _ _ _ _) as [[n|e] w1] eqn:Hrun;
    simpl; by eapply process_Invariant.
Qed.

(** [processAllUserSubscriptions]: the query, then the loop over its
    answer. *)
Lemma processAllUserSubscriptions_eq build api sched userId w :
  TwitterService.processAllUserSubscriptions build api sched userId w =
  match subscriptionsQuery sched userId with
  | Some error => (Throw error, w)
  | None =>
      TwitterService.processEach build api sched
        (List.filter (fun s => Nat.eqb (ISubscription.userId s) userId
                               && ISubscription.isActive s) (subscriptions w))
        (Summary.mk 0 0 []) w
  end.
Proof.
  unfold TwitterService.processAllUserSubscriptions, Subscription.findActive.
  unfold bind at 1. by destruct (subscriptionsQuery sched userId).
Qed.

(** The state a turn of the scheduled job for a user leaves: a rejected
    query ends the turn before its wait. *)
Lemma scheduledUser_state build api sched userId w :
  snd (Server.scheduledUser build api sched userId w) =
  match fst (TwitterService.createForUser api userId w) with
  | Ok (Some service) =>
      match subscriptionsQuery sched userId with
      | Some _ => w
      | None =>
          let w1 :=
            snd (TwitterService.processEach build service sched
                   (List.filter (fun s => Nat.eqb (ISubscription.userId s) userId
                                          && ISubscription.isActive s) (subscriptions w))
                   (Summary.mk 0 0 []) w) in
          withClock (clock w1 + 2000) w1
      end
  | _ => withClock (clock w + 2000) w
  end.
Proof.
  unfold Server.scheduledUser, Server.respond. unfold bind at 1.
  destruct (createForUser_cases api userId w) as [-> | ->]; [|done]. cbn [fst].
  unfold bind at 1. unfold bind at 1. rewrite processAllUserSubscriptions_eq.
  destruct (subscriptionsQuery sched userId) as [error|]; [done|].
  by destruct (processEach_total build api sched
                 (List.filter (fun s => Nat.eqb (ISubscription.userId s) userId
                                        && ISubscription.isActive s) (subscriptions w))
                 (Summary.mk 0 0 []) w) as (sum & w1 & ->).
Qed.

Lemma scheduledUser_Invariant build api sched userId w :
  Invariant w -> Invariant (snd (Server.scheduledUser build api sched userId w)).
Proof.
  intros Hinv. unfold Server.scheduledUser, Server.respond.
  unfold bind at 1.
  destruct (createForUser_cases api userId w) as [-> | ->].
  - unfold bind at 1. unfold bind at 1.
    rewrite processAllUserSubscriptions_eq.
    destruct (subscriptionsQuery sched userId) as [error|]; [done|].
    destruct (TwitterService.processEach _ _ _ _ _ _) as [[acc|e] w1] eqn:Hrun;
      apply processEach_Invariant in Hrun; try done.
    simpl. apply Invariant_later; [done|lia].
  - simpl. apply Invariant_later; [done|lia].
Qed.

Lemma reachable_Invariant w : Server.reachable w -> Invariant w.
Proof.
  induction 1 as [us t|e w Hw IH].
  - constructor; simpl; constructor.
  - destruct e; simpl.
    + by apply createSubscription_Invariant.
    + by apply deleteSubscription_Invariant.
    + by apply refreshSubscription_Invariant.
    + by apply scheduledUser_Invariant.
    + apply Invariant_later; [done|lia].
    + by destruct IH.
Qed.

(** ** The documents a run builds *)

Lemma newPost_fields s u t :
  IPost.tweetId (TwitterService.newPost s u t) = TweetData.id t /\
  IPost.authorUsername (TwitterService.newPost s u t)
    = Js.trim (Js.toLowerCase (ISubscription.targetUsername s)) /\
  IPost.subscriptionId (TwitterService.newPost s u t) = ISubscription._id s /\
  IPost.userId (TwitterService.newPost s u t) = ISubscription.userId s /\
  IPost.isReply (TwitterService.newPost s u t)
    = TwitterService.hasReference "replied_to" t /\
  IPost.isRetweet (TwitterService.newPost s u t)
    = TwitterService.hasReference "retweeted" t.
Proof. by repeat split. Qed.

(** C9. Every post a run of [processSubscriptionTweets] stores is the
    document built from a fetched tweet and the subscription: its
    [authorUsername] is the [targetUsername] of the subscription in the
    normal form of the schema (lower case, trimmed), which for a
    subscription of the collection is the [targetUsername] itself, whatever
    the [author_id] and the references of the tweet; its [subscriptionId]
    and [userId] are those of the subscription. *)
Theorem stored_post_carries_subscription
    (build : Build) (api : TwitterApi) (sched : Scheduler) (s : ISubscription.t)
    (w w' : World) (res : Result nat) (p : IPost.t) :
  TwitterService.processSubscriptionTweets build api sched s w = (res, w') ->
  In p (posts w') ->
  In p (posts w) \/ foreign sched p \/
  (exists u t,
     p = TwitterService.newPost s u t /\
     IPost.tweetId p = TweetData.id t /\
     IPost.authorUsername p = normalName (ISubscription.targetUsername s) /\
     (Server.reachable w -> In s (subscriptions w) ->
      IPost.authorUsername p = ISubscription.targetUsername s) /\
     IPost.subscriptionId p = ISubscription._id s /\
     IPost.userId p = ISubscription.userId s).
Proof.
  intros Hrun Hin.
  apply process_posts in Hrun as [(extra & Hext & Hall) _].
  rewrite Hext in Hin. apply in_app_or in Hin as [Hin|Hin]; [by left|].
  right. rewrite Forall_forall in Hall.
  destruct (Hall p) as [Hf|(u & t & ->)]; [by apply list_elem_of_In|by left|].
  right. exists u, t. split; [done|]. split; [done|]. split; [done|].
  split; [|done]. intros Hreach Hs.
  pose proof (inv_normal _ (reachable_Invariant _ Hreach)) as Hnorm.
  rewrite Forall_forall in Hnorm. apply list_elem_of_In in Hs.
  exact (Hnorm s Hs).
Qed.

Lemma stored_post_carries_subscription_witness :
  let p := TwitterService.newPost subCreated acme tweetReply in
  TweetData.author_id tweetReply = "77" /\
  UserV2.id acme = "42" /\
  IPost.authorUsername p = "acme" /\
  IPost.subscriptionId p = 1%nat /\ IPost.userId p = 7%nat.
Proof.
  pose proof (stored_post_carries_subscription tsBuild apiAcme sequential subCreated
                worldCreated
                (snd (TwitterService.processSubscriptionTweets tsBuild apiAcme sequential
                        subCreated worldCreated))
                (Ok 2%nat) (TwitterService.newPost subCreated acme tweetReply)) as H.
  destruct H as [[]|[(t & [[]|[]])|(u & t & _ & _ & _ & Hname & Hsub & Huser)]].
  - reflexivity.
  - right. left. reflexivity.
  - split; [reflexivity|]. split; [reflexivity|]. split; [|split].
    + rewrite Hname; [reflexivity| |by left].
      apply Server.reachable_step, Server.reachable_start.
    + exact Hsub.
    + exact Huser.
Defined.

(** ** Subscriptions: uniqueness, bounds, deletion and reactivation *)

Lemma validCreate_interval body :
  Server.validCreate body = true ->
  15 <= Server.orDefault 60 (Server.CreateBody.checkInterval body) <= 1440.
Proof.
  unfold Server.validCreate. rewrite !andb_true_iff. intros [[[[_ H] _] _] _].
  destruct (Server.CreateBody.checkInterval body) as [| |n]; simpl in *;
    [lia|discriminate|].
  apply andb_true_iff in H as [H1 H2]. lia.
Qed.

Lemma found_is_selected w (sel : ISubscription.t -> bool) ex x :
  Invariant w ->
  find sel (subscriptions w) = Some ex ->
  In x (subscriptions w) -> byId (ISubscription._id ex) x = true -> x = ex.
Proof.
  intros Hinv Hfind Hx Hsel. pose proof (inv_ids _ Hinv) as Hids. apply Nat.eqb_eq in Hsel.
  apply find_some in Hfind as [Hin _].
  pose proof (find_by_id _ _ Hids Hx) as F1.
  pose proof (find_by_id _ _ Hids Hin) as F2.
  rewrite Hsel in F1. congruence.
Qed.

Lemma createForUser_hasCredentials api userId w service :
  TwitterService.createForUser api userId w = (Ok (Some service), w) ->
  Server.hasCredentials (find (fun u => Nat.eqb (IUser._id u) userId) (users w)) = true /\
  service = api.
Proof.
  unfold TwitterService.createForUser, User.findById, Server.hasCredentials. async.
  destruct (find _ (users w)) as [u|]; [|discriminate].
  destruct (IUser.twitterCredentials u) as [c|]; [|discriminate].
  destruct (_ && _); [|discriminate]. by intros [= <-].
Qed.

(** C7. In every state the server reaches there is at most one
    subscription for a user and a target account, and the [checkInterval]
    of every subscription lies between 15 and 1440 minutes. A create request
    for a pair that has a subscription inserts nothing: it is refused when
    the subscription is active, and when it is inactive the request either
    reactivates that document in place (status 200) or is refused. Which of
    the two is settled by the request: a valid request of a user with
    credentials, whose account lookup is answered, is refused with status 400
    when the subscription is active, and answered with status 200 when it is
    inactive, the document being active again in its place. *)
Theorem subscription_invariants (w : World) :
  Server.reachable w ->
  List.NoDup (map pairOf (subscriptions w)) /\
  Forall intervalInBounds (subscriptions w) /\
  (forall api userId body status w' existingSub,
     Server.createSubscription api userId body w = (status, w') ->
     find (Subscription.samePair userId (Server.sanitizedTarget body)) (subscriptions w)
       = Some existingSub ->
     length (subscriptions w') = length (subscriptions w) /\
     map pairOf (subscriptions w') = map pairOf (subscriptions w) /\
     status <> 201 /\
     (ISubscription.isActive existingSub = true ->
        status <> 200 /\ subscriptions w' = subscriptions w) /\
     (status = 200 ->
        subscriptions w' =
          Subscription.updateFirst (byId (ISubscription._id existingSub))
            (fun _ => reactivated existingSub body (clock w')) (subscriptions w)) /\
     (status <> 200 -> subscriptions w' = subscriptions w) /\
     (Server.validCreate body = true ->
      TwitterService.createForUser api userId w = (Ok (Some api), w) ->
      (exists targetUser,
         userByUsername api (Server.sanitizedTarget body) = inr targetUser) ->
      (ISubscription.isActive existingSub = true -> status = 400) /\
      (ISubscription.isActive existingSub = false ->
       status = 200 /\
       In (reactivated existingSub body (clock w')) (subscriptions w') /\
       ISubscription.isActive (reactivated existingSub body (clock w')) = true))).
Proof.
  intros Hreach. pose proof (reachable_Invariant _ Hreach) as Hinv.
  split; [by destruct Hinv|]. split; [by destruct Hinv|].
  intros api userId body status w' ex Hrun Hfind.
  rewrite createSubscription_eq in Hrun.
  assert (Hsettled :
    Server.validCreate body = true ->
    TwitterService.createForUser api userId w = (Ok (Some api), w) ->
    (exists targetUser,
       userByUsername api (Server.sanitizedTarget body) = inr targetUser) ->
    (ISubscription.isActive ex = true -> status = 400) /\
    (ISubscription.isActive ex = false ->
     status = 200 /\
     In (reactivated ex body (clock w')) (subscriptions w') /\
     ISubscription.isActive (reactivated ex body (clock w')) = true)).
  { intros Hvalid Hservice [targetUser Hu].
    pose proof (createForUser_hasCredentials _ _ _ _ Hservice) as [Hcred _].
    pose proof (validCreate_interval _ Hvalid) as Hint.
    rewrite Hvalid, Hcred, Hservice in Hrun. cbn [negb fst] in Hrun. cbv zeta in Hrun.
    rewrite Hu, Hfind in Hrun.
    destruct (ISubscription.isActive ex) eqn:Hact.
    - injection Hrun as <- <-. by split.
    - assert (Subscription.validateModified
                (reactivated ex body (clock (afterCall api w))) = None) as Hv.
      { unfold Subscription.validateModified, reactivated.
        cbn [ISubscription.checkInterval].
        destruct (Z.ltb_spec (Server.orDefault 60 (Server.CreateBody.checkInterval body))
                    15); [lia|].
        by destruct (Z.ltb_spec 1440
                       (Server.orDefault 60 (Server.CreateBody.checkInterval body)));
          [lia|]. }
      rewrite Hv in Hrun. injection Hrun as <- <-. split; [done|]. intros _.
      split; [done|]. split; [|done]. simpl.
      apply find_some in Hfind as [Hin _].
      pose proof (find_by_id _ _ (inv_ids _ Hinv) Hin) as Hbyid.
      by apply (updateFirst_In _
                  (fun _ => reactivated ex body (clock w + Z.of_N (latency api))))
        in Hbyid as [H _]. }
  cut (length (subscriptions w') = length (subscriptions w) /\
       map pairOf (subscriptions w') = map pairOf (subscriptions w) /\
       status <> 201 /\
       (ISubscription.isActive ex = true ->
          status <> 200 /\ subscriptions w' = subscriptions w) /\
       (status = 200 ->
          subscriptions w' =
            Subscription.updateFirst (byId (ISubscription._id ex))
              (fun _ => reactivated ex body (clock w')) (subscriptions w)) /\
       (status <> 200 -> subscriptions w' = subscriptions w)).
  { intros (H1 & H2 & H3 & H4 & H5 & H6).
    split; [exact H1|]. split; [exact H2|]. split; [exact H3|]. split; [exact H4|].
    split; [exact H5|]. split; [exact H6|exact Hsettled]. }
  clear Hsettled.
  assert (Hnone : forall st w0, subscriptions w0 = subscriptions w ->
            (st, w0) = (status, w') -> st <> 200 -> st <> 201 ->
            length (subscriptions w') = length (subscriptions w) /\
            map pairOf (subscriptions w') = map pairOf (subscriptions w) /\
            status <> 201 /\
            (ISubscription.isActive ex = true ->
               status <> 200 /\ subscriptions w' = subscriptions w) /\
            (status = 200 ->
               subscriptions w' =
                 Subscription.updateFirst (byId (ISubscription._id ex))
                   (fun _ => reactivated ex body (clock w')) (subscriptions w)) /\
            (status <> 200 -> subscriptions w' = subscriptions w)).
  { intros st w0 Hw0 [= <- <-] H200 H201. rewrite Hw0. by repeat split. }
  destruct (negb (Server.validCreate body)); [by refine (Hnone _ _ _ Hrun _ _)|].
  destruct (negb (Server.hasCredentials _)); [by refine (Hnone _ _ _ Hrun _ _)|].
  destruct (fst (TwitterService.createForUser api userId w)) as [[service|]|e];
    [|by refine (Hnone _ _ _ Hrun _ _)|by refine (Hnone _ _ _ Hrun _ _)].
  cbv zeta in Hrun.
  destruct (userByUsername service _) as [e|targetUser]; [by refine (Hnone _ _ _ Hrun _ _)|].
  rewrite Hfind in Hrun.
  destruct (ISubscription.isActive ex) eqn:Hact; [by refine (Hnone _ _ _ Hrun _ _)|].
  destruct (Subscription.validateModified _); [by refine (Hnone _ _ _ Hrun _ _)|].
  injection Hrun as <- <-. simpl.
  split; [apply updateFirst_length|]. split.
  - apply updateFirst_map. intros x Hx Hsel.
    by rewrite (found_is_selected w _ ex x Hinv Hfind Hx Hsel).
  - by repeat split.
Qed.

Lemma worldCreated_reachable : Server.reachable worldCreated.
Proof. apply Server.reachable_step, Server.reachable_start. Qed.

Lemma worldDeleted_reachable : Server.reachable worldDeleted.
Proof. apply Server.reachable_step, worldCreated_reachable. Qed.

(** The pair is active: the request is refused and nothing changes. The
    pair was deleted: the request is answered with status 200 and the
    document is active again. *)
Lemma subscription_invariants_witness :
  fst (Server.createSubscription apiAcme 7%nat bodyAcme worldCreated) = 400 /\
  subscriptions (snd (Server.createSubscription apiAcme 7%nat bodyAcme worldCreated))
    = [subCreated] /\
  fst (Server.createSubscription apiAcme 7%nat bodyAgain worldDeleted) = 200 /\
  In (reactivated (ISubscription.setIsActive false subCreated) bodyAgain 1010)
    (subscriptions (snd (Server.createSubscription apiAcme 7%nat bodyAgain worldDeleted))).
Proof.
  destruct (subscription_invariants worldCreated worldCreated_reachable) as (_ & _ & H).
  destruct (H apiAcme 7%nat bodyAcme
              (fst (Server.createSubscription apiAcme 7%nat bodyAcme worldCreated))
              (snd (Server.createSubscription apiAcme 7%nat bodyAcme worldCreated))
              subCreated)
    as (_ & _ & _ & Hactive & _ & _ & Hsettled); [reflexivity|reflexivity|].
  destruct Hsettled as [H400 _]; [reflexivity|reflexivity|by eexists|].
  destruct (subscription_invariants worldDeleted worldDeleted_reachable) as (_ & _ & H').
  destruct (H' apiAcme 7%nat bodyAgain
              (fst (Server.createSubscription apiAcme 7%nat bodyAgain worldDeleted))
              (snd (Server.createSubscription apiAcme 7%nat bodyAgain worldDeleted))
              (ISubscription.setIsActive false subCreated))
    as (_ & _ & _ & _ & _ & _ & Hsettled'); [reflexivity|reflexivity|].
  destruct Hsettled' as [_ H200]; [reflexivity|reflexivity|by eexists|].
  destruct H200 as (H200 & Hin & _); [reflexivity|].
  split; [by apply H400|]. split; [by apply Hactive|]. split; [exact H200|exact Hin].
Defined.

Lemma setIsActive_fields b s :
  ISubscription._id (ISubscription.setIsActive b s) = ISubscription._id s /\
  ISubscription.userId (ISubscription.setIsActive b s) = ISubscription.userId s /\
  ISubscription.targetUsername (ISubscription.setIsActive b s)
    = ISubscription.targetUsername s /\
  ISubscription.isActive (ISubscription.setIsActive b s) = b /\
  ISubscription.checkInterval (ISubscription.setIsActive b s)
    = ISubscription.checkInterval s /\
  ISubscription.lastChecked (ISubscription.setIsActive b s) = ISubscription.lastChecked s /\
  ISubscription.keywords (ISubscription.setIsActive b s) = ISubscription.keywords s /\
  ISubscription.includeReplies (ISubscription.setIsActive b s)
    = ISubscription.includeReplies s /\
  ISubscription.includeRetweets (ISubscription.setIsActive b s)
    = ISubscription.includeRetweets s.
Proof. by repeat split. Qed.

Lemma updateFirst_Forall2 sel f l :
  Forall2 (fun s s' => s' = s \/ s' = f s) l (Subscription.updateFirst sel f l).
Proof.
  induction l as [|x l IH]; simpl; [constructor|].
  destruct (sel x); constructor; auto.
  clear. induction l; constructor; auto.
Qed.

(** C8. Deleting a subscription removes nothing: the request changes at
    most one document, and only its [isActive] flag, which becomes false;
    every other field of it, every other subscription and every post stay as
    they were. A repeated create request for a deleted subscription
    reactivates the same document: [isActive] is true again, [checkInterval],
    [keywords] (trimmed by the schema), [includeReplies] and
    [includeRetweets] are the values of the request (or their defaults), and
    [lastChecked] is the current time. *)
Theorem soft_delete_and_reactivation (w : World) :
  Server.reachable w ->
  (forall id userId status w',
     Server.deleteSubscription id userId w = (status, w') ->
     posts w' = posts w /\ users w' = users w /\ clock w' = clock w /\
     Forall2 (fun s s' => s' = s \/ s' = ISubscription.setIsActive false s)
       (subscriptions w) (subscriptions w') /\
     (forall i s,
        id = Some i -> find (owned i userId) (subscriptions w) = Some s ->
        status = 200 /\
        subscriptions w' =
          Subscription.updateFirst (owned i userId) (ISubscription.setIsActive false)
            (subscriptions w) /\
        In (ISubscription.setIsActive false s) (subscriptions w'))) /\
  (forall s,
     ISubscription.isActive (ISubscription.setIsActive false s) = false /\
     ISubscription._id (ISubscription.setIsActive false s) = ISubscription._id s /\
     ISubscription.userId (ISubscription.setIsActive false s) = ISubscription.userId s /\
     ISubscription.targetUsername (ISubscription.setIsActive false s)
       = ISubscription.targetUsername s /\
     ISubscription.checkInterval (ISubscription.setIsActive false s)
       = ISubscription.checkInterval s /\
     ISubscription.lastChecked (ISubscription.setIsActive false s)
       = ISubscription.lastChecked s /\
     ISubscription.keywords (ISubscription.setIsActive false s)
       = ISubscription.keywords s /\
     ISubscription.includeReplies (ISubscription.setIsActive false s)
       = ISubscription.includeReplies s /\
     ISubscription.includeRetweets (ISubscription.setIsActive false s)
       = ISubscription.includeRetweets s) /\
  (forall api userId body existingSub targetUser,
     Server.validCreate body = true ->
     TwitterService.createForUser api userId w = (Ok (Some api), w) ->
     userByUsername api (Server.sanitizedTarget body) = inr targetUser ->
     find (Subscription.samePair userId (Server.sanitizedTarget body)) (subscriptions w)
       = Some existingSub ->
     ISubscription.isActive existingSub = false ->
     exists w',
       Server.createSubscription api userId body w = (200, w') /\
       posts w' = posts w /\
       length (subscriptions w') = length (subscriptions w) /\
       subscriptions w' =
         Subscription.updateFirst (byId (ISubscription._id existingSub))
           (fun _ => reactivated existingSub body (clock w')) (subscriptions w) /\
       In (ISubscription.mk (ISubscription._id existingSub)
             (ISubscription.userId existingSub)
             (ISubscription.targetUsername existingSub)
             true
             (Server.orDefault 60 (Server.CreateBody.checkInterval body))
             (clock w')
             (map Js.trim (Server.orDefault [] (Server.CreateBody.keywords body)))
             (Server.orDefault false (Server.CreateBody.includeReplies body))
             (Server.orDefault false (Server.CreateBody.includeRetweets body)))
          (subscriptions w')).
Proof.
  intros Hreach. pose proof (reachable_Invariant _ Hreach) as Hinv.
  split; [|split].
  - intros [id|] userId status w' Hrun.
    + rewrite deleteSubscription_eq in Hrun.
      destruct (find _ _) as [s|] eqn:Hfind; injection Hrun as <- <-; simpl.
      * split; [done|]. split; [done|]. split; [done|].
        split; [apply updateFirst_Forall2|].
        intros i s' [= <-] Hs'. rewrite Hfind in Hs'. injection Hs' as <-.
        split; [done|]. split; [done|]. by apply updateFirst_In.
      * split; [done|]. split; [done|]. split; [done|]. split.
        -- clear. induction (subscriptions w); constructor; auto.
        -- intros i s' [= <-] Hs'. congruence.
    + injection Hrun as <- <-.
      split; [done|]. split; [done|]. split; [done|]. split; [|done].
      clear. induction (subscriptions w); constructor; auto.
  - intros s. by repeat split.
  - intros api userId body ex targetUser Hvalid Hsvc Hlookup Hfind Hinactive.
    rewrite createSubscription_eq, Hvalid.
    destruct (createForUser_hasCredentials _ _ _ _ Hsvc) as [-> _].
    rewrite Hsvc. cbn [negb fst]. cbv zeta. rewrite Hlookup, Hfind, Hinactive.
    assert (Hv : Subscription.validateModified
                   (reactivated ex body (clock (afterCall api w))) = None).
    { apply validateModified_None. apply (validCreate_interval body Hvalid). }
    rewrite Hv. eexists. split; [reflexivity|]. simpl.
    split; [done|]. split; [apply updateFirst_length|]. split; [done|].
    assert (Hex : find (byId (ISubscription._id ex)) (subscriptions w) = Some ex).
    { pose proof (inv_ids _ Hinv) as Hids. apply find_by_id; [done|].
      by apply find_some in Hfind as [Hin _]. }
    by apply (updateFirst_In _ (fun _ => reactivated ex body (clock (afterCall api w))))
      in Hex as [H _].
Qed.

Lemma soft_delete_and_reactivation_witness :
  exists w',
    Server.createSubscription apiAcme 7%nat bodyAgain worldDeleted = (200, w') /\
    subscriptions worldDeleted = [ISubscription.setIsActive false subCreated] /\
    subscriptions w'
      = [ISubscription.mk 1%nat 7%nat "acme" true 30 1010 ["launch"] true false].
Proof.
  destruct (soft_delete_and_reactivation worldDeleted worldDeleted_reachable)
    as (_ & _ & H).
  destruct (H apiAcme 7%nat bodyAgain (ISubscription.setIsActive false subCreated)
              (Some acme))
    as (w' & Hrun & _ & _ & Hsubs & _); try reflexivity.
  exists w'. split; [exact Hrun|]. split; [reflexivity|].
  rewrite Hsubs.
  assert (clock w' = 1010) as ->.
  { change (Server.createSubscription apiAcme 7%nat bodyAgain worldDeleted)
      with (200, snd (Server.createSubscription apiAcme 7%nat bodyAgain worldDeleted))
      in Hrun.
    injection Hrun as <-. reflexivity. }
  reflexivity.
Defined.

(** ** The checkpoint *)

Lemma process_clock build api sched s w res w' :
  TwitterService.processSubscriptionTweets build api sched s w = (res, w') ->
  clock w <= clock w'.
Proof.
  rewrite processSubscriptionTweets_eq. cbv zeta.
  destruct (userByUsername api _) as [e|[u|]];
    [intros [= _ <-]; simpl; lia| |intros [= _ <-]; simpl; lia].
  destruct (fst (TwitterService.getUserTweets _ _ _ _ _)) as [tweets|e];
    [|intros [= _ <-]; simpl; lia].
  destruct (TwitterService.storeTweets _ _ _ _ _ _) as [r w3] eqn:Hs.
  apply storeTweets_grows in Hs as ((_ & _ & Hc) & _).
  destruct r; intros [= _ <-]; simpl in *; lia.
Qed.

(** A loop that throws has completed over the tweets before the one
    whose save threw, and nothing of what it did is undone: the state of the
    failure holds every row of the state the loop had reached. *)
Lemma storeTweets_Throw sched s u tweets : forall count w e w',
  TwitterService.storeTweets sched s u tweets count w = (Throw e, w') ->
  exists saved t rest n wd,
    tweets = saved ++ t :: rest /\
    TwitterService.storeTweets sched s u saved count w = (Ok n, wd) /\
    (exists later, posts w' = posts wd ++ later) /\
    Post.save (TwitterService.newPost s u t) w' = (Throw e, w').
Proof.
  induction tweets as [|t0 rest0 IH]; intros count w e w' H; [discriminate|].
  rewrite storeTweets_step in H. cbv zeta in H.
  set (w1 := withPosts (committed (beforeCheck sched t0) (posts w)) w) in *.
  set (w2 := withPosts (committed (beforeSave sched t0) (posts w1)) w1) in *.
  destruct (Post.hasTweetId (TweetData.id t0) (posts w1)) eqn:Hhas.
  - apply IH in H as (saved & t & rest & n & wd & -> & Hrun & Hlater & Hsave).
    exists (t0 :: saved), t, rest, n, wd. split; [done|]. split; [|by split].
    rewrite storeTweets_step. cbv zeta. fold w1. by rewrite Hhas.
  - destruct (Post.save _ w2) as [[[]|e0] w3] eqn:Hsave0.
    + apply IH in H as (saved & t & rest & n & wd & -> & Hrun & Hlater & Hsave).
      exists (t0 :: saved), t, rest, n, wd. split; [done|]. split; [|by split].
      rewrite storeTweets_step. cbv zeta. fold w1. fold w2. by rewrite Hhas, Hsave0.
    + injection H as <- <-. pose proof (save_Throw _ _ _ _ Hsave0) as ->.
      exists [], t0, rest0, count, w. split; [done|]. split; [done|]. split; [|done].
      destruct (grows_prefix _ _ _ (grows_commit (beforeCheck sched t0) w)) as [x1 H1].
      destruct (grows_prefix _ _ _ (grows_commit (beforeSave sched t0) w1)) as [x2 H2].
      exists (x1 ++ x2). fold w1 in H1. fold w2 in H2. by rewrite H2, H1, <- app_assoc.
Qed.

(** C2, as the code has it. In a state the server reaches, a run of
    [processSubscriptionTweets] that completes writes the current time of
    the server into [lastChecked] of the subscription; this time is not
    before the start of the run, so it is at or after the prior checkpoint
    and after the creation time of every fetched post that was created
    before the run began (the timestamps of the posts themselves are never
    read), and every fetched post has its row. A run that fails at the
    lookup of the account, at the fetch or at a save leaves every
    subscription as it was. In both cases the rows the collection of posts
    had remain, and a run that fails at a save undoes nothing: it has
    completed the loop over the fetched posts before the one whose save
    failed, the rows of the state it had reached are in the state it leaves,
    and each of those posts has its row there. *)
Theorem checkpoint_discipline
    (build : Build) (api : TwitterApi) (sched : Scheduler) (s : ISubscription.t)
    (w w' : World) (res : Result nat) :
  Server.reachable w ->
  In s (subscriptions w) ->
  TwitterService.processSubscriptionTweets build api sched s w = (res, w') ->
  (exists extra, posts w' = posts w ++ extra) /\
  clock w <= clock w' /\
  match res with
  | Ok _ =>
      subscriptions w' =
        Subscription.updateFirst (byId (ISubscription._id s))
          (ISubscription.setLastChecked (clock w')) (subscriptions w) /\
      In (ISubscription.setLastChecked (clock w') s) (subscriptions w') /\
      ISubscription.lastChecked s <= clock w' /\
      (forall tweets t c,
         fetches build api s tweets -> In t tweets ->
         TweetData.created_at t = Some c -> c < clock w -> c < clock w') /\
      (forall tweets,
         fetches build api s tweets ->
         Forall (fun t => Post.hasTweetId (TweetData.id t) (posts w') = true) tweets)
  | Throw e =>
      subscriptions w' = subscriptions w /\
      (forall u tweets,
         userByUsername api (ISubscription.targetUsername s) = inr (Some u) ->
         fetches build api s tweets ->
         exists saved t rest n wd,
           tweets = saved ++ t :: rest /\
           TwitterService.storeTweets sched s u saved 0%nat
             (afterCall api (afterCall api w)) = (Ok n, wd) /\
           (exists later, posts w' = posts wd ++ later) /\
           Forall (fun t' => Post.hasTweetId (TweetData.id t') (posts w') = true) saved /\
           Post.save (TwitterService.newPost s u t) w' = (Throw e, w'))
  end.
Proof.
  intros Hreach Hin Hrun. pose proof (reachable_Invariant _ Hreach) as Hinv.
  pose proof (process_clock _ _ _ _ _ _ _ Hrun) as Hclock.
  split; [|split; [done|]].
  - apply process_posts in Hrun as [(extra & Hext & _) _]. eauto.
  - destruct res as [n|e].
    + apply process_Ok in Hrun as (u & tweets & w3 & _ & Hf & Hstore & ->).
      pose proof (storeTweets_stored _ _ _ _ _ _ _ _ Hstore) as Hstored.
      apply storeTweets_grows in Hstore as ((Hsubs & _ & Hc) & _).
      simpl in *. rewrite Hsubs.
      split; [done|]. split; [|split; [|split]].
      * pose proof (inv_ids _ Hinv) as Hids.
        pose proof (find_by_id _ _ Hids Hin) as Hfind.
        by apply (updateFirst_In _ (ISubscription.setLastChecked (clock w3))) in Hfind
          as [H _].
      * pose proof (inv_checkpoints _ Hinv) as Hchk. rewrite Forall_forall in Hchk.
        apply list_elem_of_In in Hin. specialize (Hchk s Hin). simpl in Hchk. lia.
      * intros. lia.
      * intros tweets' Hf'. by rewrite (fetches_unique _ _ _ _ _ Hf' Hf).
    + split; [by apply process_Throw_subscriptions in Hrun as [? _]|].
      intros u tweets Hu (u' & Hu' & Hf).
      rewrite Hu in Hu'. injection Hu' as <-.
      rewrite processSubscriptionTweets_eq in Hrun. cbv zeta in Hrun.
      rewrite Hu, Hf in Hrun.
      destruct (TwitterService.storeTweets _ _ _ _ _ _) as [[n|e0] w3] eqn:Hstore;
        [discriminate|]. injection Hrun as <- <-.
      apply storeTweets_Throw in Hstore
        as (saved & t & rest & n & wd & -> & Hloop & (later & Hlater) & Hsave).
      exists saved, t, rest, n, wd. split; [done|]. split; [done|].
      split; [by exists later|]. split; [|done].
      apply storeTweets_stored in Hloop.
      eapply Forall_impl; [exact Hloop|]. intros t' Ht'. simpl in Ht'.
      by rewrite Hlater, hasTweetId_app, Ht'.
Qed.

(** A run that completes, and a run that fails at the save of its second
    post: the row of the first stays and the checkpoint is not written. *)
Lemma checkpoint_discipline_witness :
  (exists w',
     TwitterService.processSubscriptionTweets tsBuild apiAcme sequential subCreated
       worldCreated = (Ok 2%nat, w') /\
     subscriptions w' = [ISubscription.setLastChecked 1015 subCreated] /\
     clock w' = 1015) /\
  (exists w',
     TwitterService.processSubscriptionTweets tsBuild
       (apiOf [tweetLaunch; tweetUndated; tweetReply]) sequential subCreated worldCreated
     = (Throw (ValidationError "tweetCreatedAt"), w') /\
     subscriptions w' = [subCreated] /\
     Post.hasTweetId "1" (posts w') = true).
Proof.
  split.
  - exists (snd (TwitterService.processSubscriptionTweets tsBuild apiAcme sequential
                   subCreated worldCreated)).
    split; [reflexivity|].
    destruct (checkpoint_discipline tsBuild apiAcme sequential subCreated worldCreated
                (snd (TwitterService.processSubscriptionTweets tsBuild apiAcme sequential
                        subCreated worldCreated)) (Ok 2%nat))
      as (_ & _ & Hsubs & _).
    + exact worldCreated_reachable.
    + left. reflexivity.
    + reflexivity.
    + split; [|reflexivity]. rewrite Hsubs. reflexivity.
  - exists (snd (TwitterService.processSubscriptionTweets tsBuild
                   (apiOf [tweetLaunch; tweetUndated; tweetReply]) sequential subCreated
                   worldCreated)).
    split; [reflexivity|].
    destruct (checkpoint_discipline tsBuild (apiOf [tweetLaunch; tweetUndated; tweetReply])
                sequential subCreated worldCreated
                (snd (TwitterService.processSubscriptionTweets tsBuild
                        (apiOf [tweetLaunch; tweetUndated; tweetReply]) sequential
                        subCreated worldCreated))
                (Throw (ValidationError "tweetCreatedAt")))
      as (_ & _ & Hsubs & Hrows).
    + exact worldCreated_reachable.
    + left. reflexivity.
    + reflexivity.
    + split; [exact Hsubs|].
      destruct (Hrows acme
                  (map TwitterService.toTweetData [tweetLaunch; tweetUndated; tweetReply]))
        as (saved & t & rest & n & wd & Hsplit & _ & _ & Hall & Hsave);
        [reflexivity|by apply apiOf_fetches|].
      destruct saved as [|t1 saved].
      * injection Hsplit as <- _. discriminate Hsave.
      * injection Hsplit as <- _. by inversion Hall.
Defined.

(** C2, as stated, fails: the source returns a post whose creation time is
    ahead of the clock of the server; the run completes and the checkpoint
    is the time of the server, which is before the creation time of the
    fetched post. *)
Lemma checkpoint_before_fetched_post :
  fetches tsBuild (apiOf [tweetAhead]) subCreated [tweetAhead] /\
  TweetData.created_at tweetAhead = Some 5000 /\
  exists w',
    TwitterService.processSubscriptionTweets tsBuild (apiOf [tweetAhead]) sequential
      subCreated worldCreated = (Ok 1%nat, w') /\
    subscriptions w' = [ISubscription.setLastChecked 1015 subCreated] /\
    ~ 5000 < 1015.
Proof.
  split.
  { apply (apiOf_fetches tsBuild [tweetAhead] subCreated). reflexivity. }
  split; [reflexivity|].
  eexists. split; [reflexivity|]. split; [reflexivity|]. lia.
Qed.

(** ** The batch over the subscriptions of a user *)

Lemma processEach_app build api sched l1 l2 : forall acc w,
  TwitterService.processEach build api sched (l1 ++ l2) acc w =
  match TwitterService.processEach build api sched l1 acc w with
  | (Ok acc1, w1) => TwitterService.processEach build api sched l2 acc1 w1
  | (Throw e, w1) => (Throw e, w1)
  end.
Proof.
  induction l1 as [|s l1 IH]; intros acc w; [done|].
  rewrite <- app_comm_cons, !processEach_cons.
  destruct (TwitterService.processOne _ _ _ _ _ _) as [[acc1|e] w1]; [apply IH|done].
Qed.

(** The errors recorded so far stay in the list. *)
Lemma processEach_errors build api sched l : forall acc w acc' w',
  TwitterService.processEach build api sched l acc w = (Ok acc', w') ->
  exists later, Summary.errors acc' = Summary.errors acc ++ later.
Proof.
  induction l as [|s rest IH]; intros acc w acc' w'.
  - intros [= <- <-]. exists []. by rewrite app_nil_r.
  - rewrite processEach_cons, processOne_eq.
    destruct (due _ _).
    + destruct (TwitterService.processSubscriptionTweets _ _ _ _ _) as [[n|e] w1];
        intros H; apply IH in H as (later & ->); simpl.
      * by exists later.
      * eexists. by rewrite <- app_assoc.
    + apply IH.
Qed.

(** C4. Batch resilience of [processAllUserSubscriptions]: when the
    reconciliation of a due subscription throws, the loop records one entry
    for it ([targetUsername: message]) and goes on: the subscriptions after
    it are processed as a batch of their own from the state the failure
    left, the batch completes, and the entries recorded before stay in the
    list, followed by the new entry. *)
Theorem batch_resilience
    (build : Build) (api : TwitterApi) (sched : Scheduler)
    (before after : list ISubscription.t) (s : ISubscription.t)
    (acc acc1 : Summary.t) (w w1 w2 : World) (e : JsError) :
  TwitterService.processEach build api sched before acc w = (Ok acc1, w1) ->
  due s (clock w1) = true ->
  TwitterService.processSubscriptionTweets build api sched s w1 = (Throw e, w2) ->
  exists acc' w',
    TwitterService.processEach build api sched (before ++ s :: after) acc w
      = (Ok acc', w') /\
    TwitterService.processEach build api sched after (failed acc1 s e) w2
      = (Ok acc', w') /\
    Summary.processed (failed acc1 s e) = Summary.processed acc1 /\
    exists later,
      Summary.errors acc' =
        Summary.errors acc1
        ++ [ISubscription.targetUsername s +:+ ": " +:+ errMessage e] ++ later.
Proof.
  intros Hbefore Hdue Hthrow.
  destruct (processEach_total build api sched after (failed acc1 s e) w2)
    as (acc' & w' & Hafter).
  exists acc', w'. split; [|split; [done|split; [done|]]].
  - rewrite processEach_app, Hbefore, processEach_cons, processOne_eq, Hdue, Hthrow.
    exact Hafter.
  - apply processEach_errors in Hafter as (later & ->). exists later.
    simpl. by rewrite <- app_assoc.
Qed.

(** Three due subscriptions, the fetch of the second throws: the third is
    processed and the list of errors has one entry, for the second. *)
Lemma batch_resilience_witness :
  exists w',
    TwitterService.processAllUserSubscriptions tsBuild apiFlaky sequential 7%nat worldThree
    = (Ok (Summary.mk 2 2 ["b: Failed to fetch tweets: Service Unavailable"]), w') /\
    map IPost.authorUsername (posts w') = ["a"; "c"].
Proof.
  destruct (batch_resilience tsBuild apiFlaky sequential
              [subOf 1%nat "a"] [subOf 3%nat "c"] (subOf 2%nat "b")
              (Summary.mk 0 0 []) (Summary.mk 1 1 [])
              worldThree
              (snd (TwitterService.processEach tsBuild apiFlaky sequential
                      [subOf 1%nat "a"] (Summary.mk 0 0 []) worldThree))
              (snd (TwitterService.processSubscriptionTweets tsBuild apiFlaky sequential
                      (subOf 2%nat "b")
                      (snd (TwitterService.processEach tsBuild apiFlaky sequential
                              [subOf 1%nat "a"] (Summary.mk 0 0 []) worldThree))))
              (Error "Failed to fetch tweets: Service Unavailable"))
    as (acc' & w' & Hall & Hafter & _ & _); try reflexivity.
  exists w'.
  change (TwitterService.processAllUserSubscriptions tsBuild apiFlaky sequential 7%nat
            worldThree)
    with (TwitterService.processEach tsBuild apiFlaky sequential
            ([subOf 1%nat "a"] ++ subOf 2%nat "b" :: [subOf 3%nat "c"])
            (Summary.mk 0 0 []) worldThree).
  rewrite Hall.
  assert (Heq : (Ok acc', w')
    = TwitterService.processEach tsBuild apiFlaky sequential
        ([subOf 1%nat "a"] ++ subOf 2%nat "b" :: [subOf 3%nat "c"])
        (Summary.mk 0 0 []) worldThree) by (symmetry; exact Hall).
  vm_compute in Heq. injection Heq as -> ->. split; reflexivity.
Defined.

(** ** The matcher *)

Lemma matches_eps_inv s : matches RegExp.Eps s -> s = [].
Proof. by inversion 1. Qed.

Lemma matches_class_inv p s : matches (RegExp.Class p) s -> exists c, s = [c] /\ p c = true.
Proof. inversion 1; subst; eauto. Qed.

Lemma matches_cat_inv r1 r2 s :
  matches (RegExp.Cat r1 r2) s ->
  exists s1 s2, s = s1 ++ s2 /\ matches r1 s1 /\ matches r2 s2.
Proof. inversion 1; subst; eauto. Qed.

Lemma matches_alt_inv r1 r2 s :
  matches (RegExp.Alt r1 r2) s -> matches r1 s \/ matches r2 s.
Proof. inversion 1; subst; auto. Qed.

Lemma nullable_spec r : RegExp.nullable r = true <-> matches r [].
Proof.
  induction r as [|p|r1 IH1 r2 IH2|r1 IH1 r2 IH2|r IH]; simpl.
  - split; [constructor|done].
  - split; [discriminate|]. intros H. apply matches_class_inv in H as (c & ? & _).
    discriminate.
  - rewrite andb_true_iff, IH1, IH2. split.
    + intros [H1 H2]. by apply (matches_cat r1 r2 [] []).
    + intros H. apply matches_cat_inv in H as (s1 & s2 & E & H1 & H2).
      symmetry in E. apply app_eq_nil in E as [-> ->]. done.
  - rewrite orb_true_iff, IH1, IH2. split.
    + intros [H|H]; [by apply matches_alt_l|by apply matches_alt_r].
    + apply matches_alt_inv.
  - split; [constructor|done].
Qed.

(** A non-empty match of a star starts with a non-empty match of its body. *)
Lemma matches_star_cons r c s :
  matches (RegExp.Star r) (c :: s) ->
  exists s1 s2, s = s1 ++ s2 /\ matches r (c :: s1) /\ matches (RegExp.Star r) s2.
Proof.
  intros H. remember (RegExp.Star r) as r' eqn:Er. remember (c :: s) as s' eqn:Es.
  revert s Es. induction H as [| | | | | |r0 s1 s2 H1 _ H2 IH2]; intros t Et;
    try discriminate.
  injection Er as ->. destruct s1 as [|c1 s1]; simpl in Et.
  - apply IH2; done.
  - injection Et as -> <-. exists s1, s2. done.
Qed.

Lemma optAlt_spec a b s :
  (exists d, optAlt a b = Some d /\ matches d s) <->
  (exists d, a = Some d /\ matches d s) \/ (exists d, b = Some d /\ matches d s).
Proof.
  destruct a as [a|], b as [b|]; simpl; split.
  - intros (d & [= <-] & H). apply matches_alt_inv in H as [H|H]; eauto.
  - intros [(d & [= <-] & H)|(d & [= <-] & H)]; eexists; split; try done.
    + by apply matches_alt_l.
    + by apply matches_alt_r.
  - eauto.
  - intros [H|(d & ? & _)]; [done|discriminate].
  - eauto.
  - intros [(d & ? & _)|H]; [discriminate|done].
  - intros (d & ? & _). discriminate.
  - intros [(d & ? & _)|(d & ? & _)]; discriminate.
Qed.

Lemma deriv_cat_left r1 r2 c s :
  (forall s', matches r1 (c :: s') <->
              exists d, RegExp.deriv c r1 = Some d /\ matches d s') ->
  (exists d, (fun d => RegExp.Cat d r2) <$> RegExp.deriv c r1 = Some d /\ matches d s) <->
  exists s1 s2, s = s1 ++ s2 /\ matches r1 (c :: s1) /\ matches r2 s2.
Proof.
  intros IH1. split.
  - destruct (RegExp.deriv c r1) as [d1|] eqn:E; simpl; intros (d & [= <-] & H).
    apply matches_cat_inv in H as (s1 & s2 & -> & H1 & H2).
    exists s1, s2. split; [done|]. split; [|done]. apply IH1. eauto.
  - intros (s1 & s2 & -> & H1 & H2). apply IH1 in H1 as (d1 & -> & H1).
    simpl. eexists. split; [done|]. by constructor.
Qed.

Lemma deriv_spec r : forall c s,
  matches r (c :: s) <-> exists d, RegExp.deriv c r = Some d /\ matches d s.
Proof.
  induction r as [|p|r1 IH1 r2 IH2|r1 IH1 r2 IH2|r IH]; intros c s; simpl.
  - split.
    + intros H. apply matches_eps_inv in H. discriminate.
    + intros (d & ? & _). discriminate.
  - split.
    + intros H. apply matches_class_inv in H as (c' & [= -> ->] & Hp).
      exists RegExp.Eps. rewrite Hp. split; [done|constructor].
    + destruct (p c) eqn:E; intros (d & [= <-] & H).
      apply matches_eps_inv in H as ->. by constructor.
  - pose proof (deriv_cat_left r1 r2 c s (IH1 c)) as Hleft.
    split.
    + intros H. apply matches_cat_inv in H as (s1 & s2 & E & H1 & H2).
      destruct s1 as [|c1 s1]; simpl in E.
      * subst s2. apply nullable_spec in H1 as ->.
        apply (optAlt_spec _ (RegExp.deriv c r2)). right. by apply IH2.
      * injection E as -> ->.
        assert (exists d, (fun d => RegExp.Cat d r2) <$> RegExp.deriv c1 r1 = Some d
                          /\ matches d (s1 ++ s2)) as Hl.
        { apply Hleft. eauto. }
        destruct (RegExp.nullable r1); [|done].
        apply (optAlt_spec _ (RegExp.deriv c1 r2)). by left.
    + destruct (RegExp.nullable r1) eqn:En.
      * intros H. apply (optAlt_spec _ (RegExp.deriv c r2)) in H as [H|H].
        -- apply Hleft in H as (s1 & s2 & -> & H1 & H2).
           by apply (matches_cat r1 r2 (c :: s1) s2).
        -- apply IH2 in H. apply nullable_spec in En.
           by apply (matches_cat r1 r2 [] (c :: s)).
      * intros H. apply Hleft in H as (s1 & s2 & -> & H1 & H2).
        by apply (matches_cat r1 r2 (c :: s1) s2).
  - rewrite (optAlt_spec (RegExp.deriv c r1) (RegExp.deriv c r2) s), <- IH1, <- IH2.
    split; [apply matches_alt_inv|].
    intros [H|H]; [by apply matches_alt_l|by apply matches_alt_r].
  - split.
    + intros H. apply matches_star_cons in H as (s1 & s2 & -> & H1 & H2).
      apply IH in H1 as (d & -> & H1). simpl. eexists. split; [done|]. by constructor.
    + destruct (RegExp.deriv c r) as [d|] eqn:E; simpl; intros (d' & [= <-] & H).
      apply matches_cat_inv in H as (s1 & s2 & -> & H1 & H2).
      apply (matches_star_app r (c :: s1) s2); [|done]. apply IH. eauto.
Qed.

Lemma matchesAtStart_spec r : forall s,
  RegExp.matchesAtStart r s = true <-> exists mid b, s = mid ++ b /\ matches r mid.
Proof.
  intros s. revert r. induction s as [|c s IH]; intros r; simpl.
  - rewrite orb_false_r, nullable_spec. split.
    + intros H. by exists [], [].
    + intros (mid & b & E & H). symmetry in E. apply app_eq_nil in E as [-> _]. done.
  - rewrite orb_true_iff, nullable_spec. split.
    + intros [H|H]; [by exists [], (c :: s)|].
      destruct (RegExp.deriv c r) as [d|] eqn:E; [|discriminate].
      apply IH in H as (mid & b & -> & H). exists (c :: mid), b. split; [done|].
      apply deriv_spec. eauto.
    + intros (mid & b & E & H). destruct mid as [|c' mid]; [by left|].
      injection E as <- ->. right. apply deriv_spec in H as (d & -> & H).
      apply IH. eauto.
Qed.

Lemma search_spec r : forall s,
  RegExp.search r s = true <-> exists a mid b, s = a ++ mid ++ b /\ matches r mid.
Proof.
  induction s as [|c s IH].
  - change (RegExp.search r []) with (RegExp.matchesAtStart r [] || false).
    rewrite orb_false_r, matchesAtStart_spec. split.
    + intros (mid & b & E & H). by exists [], mid, b.
    + intros (a & mid & b & E & H). symmetry in E.
      apply app_eq_nil in E as [-> E]. apply app_eq_nil in E as [-> ->].
      by exists [], [].
  - change (RegExp.search r (c :: s))
      with (RegExp.matchesAtStart r (c :: s) || RegExp.search r s).
    rewrite orb_true_iff. split.
    + intros [H|H].
      * apply matchesAtStart_spec in H as (mid & b & E & H). by exists [], mid, b.
      * apply IH in H as (a & mid & b & -> & H). by exists (c :: a), mid, b.
    + intros (a & mid & b & E & H). destruct a as [|c' a].
      * left. apply matchesAtStart_spec. exists mid, b. done.
      * injection E as <- ->. right. apply IH. eauto.
Qed.

(** ** The pattern of a list of plain keywords *)

Lemma parse_plain_char ic c rest cur outer :
  RegExp.isSyntaxChar c = false ->
  RegExp.parse ic (c :: rest) cur outer
  = RegExp.parse ic rest (RegExp.pushAtom (RegExp.lit ic c) cur) outer.
Proof.
  destruct c as [[] [] [] [] [] [] [] []]; intros H; try discriminate H; reflexivity.
Qed.

Lemma parse_plain k : forall rest cur outer,
  Forall (fun c => RegExp.isSyntaxChar c = false) k ->
  RegExp.parse true (k ++ rest) cur outer
  = RegExp.parse true rest (pushChars k cur) outer.
Proof.
  induction k as [|c k IH]; intros rest cur outer Hk; [done|].
  inversion Hk as [|? ? Hc Hk']; subst.
  rewrite <- app_comm_cons, parse_plain_char by done. by rewrite IH.
Qed.

Lemma chars_app a b : Js.chars (a +:+ b) = Js.chars a ++ Js.chars b.
Proof.
  unfold Js.chars. induction a as [|c a IH]; simpl; [done|]. by rewrite IH.
Qed.

Lemma parse_keywords kws : forall f,
  Forall plainKeyword kws ->
  RegExp.parse true (Js.chars (Js.join "|" kws)) f []
  = RegExp.Pattern (RegExp.disjunction (readKeywords kws f)).
Proof.
  induction kws as [|k kws IH]; intros f Hall; [done|].
  inversion Hall as [|? ? Hk Hrest]; subst.
  destruct kws as [|k2 kws].
  - pose proof (parse_plain (Js.chars k) [] f [] Hk) as H.
    rewrite app_nil_r in H. exact H.
  - change (Js.join "|" (k :: k2 :: kws)) with (k +:+ "|" +:+ Js.join "|" (k2 :: kws)).
    rewrite chars_app, chars_app, parse_plain by done.
    change (Js.chars "|") with ["|"%char].
    change (RegExp.parse true (["|"%char] ++ Js.chars (Js.join "|" (k2 :: kws)))
              (pushChars (Js.chars k) f) [])
      with (RegExp.parse true (Js.chars (Js.join "|" (k2 :: kws)))
              (RegExp.closeAlternative (pushChars (Js.chars k) f)) []).
    by rewrite IH.
Qed.

Lemma pushChars_frame k : forall f,
  RegExp.alts (pushChars k f) = RegExp.alts f /\
  RegExp.terms (pushChars k f) = rev (map (RegExp.lit true) k) ++ RegExp.terms f.
Proof.
  unfold pushChars. induction k as [|c k IH]; intros f; simpl; [done|].
  destruct (IH (RegExp.pushAtom (RegExp.lit true c) f)) as [-> ->]. simpl.
  by rewrite <- app_assoc.
Qed.

Lemma matches_lit c s :
  matches (RegExp.lit true c) s <->
  exists d, s = [d] /\ Js.canonicalize d = Js.canonicalize c.
Proof.
  unfold RegExp.lit. split.
  - intros H. apply matches_class_inv in H as (d & -> & Hd).
    exists d. split; [done|]. by apply Ascii.eqb_eq.
  - intros (d & -> & Hd). constructor. by apply Ascii.eqb_eq.
Qed.

(** The terms of a keyword, folded by [sequence], match the keyword up to
    case, followed by what the accumulator matches. *)
Lemma matches_literals k : forall acc s,
  matches (fold_left (fun acc t => RegExp.Cat t acc) (rev (map (RegExp.lit true) k)) acc) s
  <-> exists s1 s2, s = s1 ++ s2 /\ sameIgnoringCase k s1 /\ matches acc s2.
Proof.
  unfold sameIgnoringCase.
  induction k as [|c k IH]; intros acc s; simpl.
  - split.
    + intros H. by exists [], s.
    + intros (s1 & s2 & -> & E & H). apply map_eq_nil in E as ->. done.
  - rewrite fold_left_app. simpl. split.
    + intros H. apply matches_cat_inv in H as (s1 & s2 & -> & H1 & H2).
      apply matches_lit in H1 as (d & -> & Hd).
      apply IH in H2 as (t1 & t2 & -> & Ht1 & Ht2).
      exists (d :: t1), t2. split; [done|]. split; [|done]. simpl. by rewrite Hd, Ht1.
    + intros (s1 & s2 & -> & E & H). destruct s1 as [|d s1]; [discriminate|].
      simpl in E. injection E as Hd Hs1.
      apply (matches_cat _ _ [d] (s1 ++ s2)).
      * apply matches_lit. eauto.
      * apply IH. eauto.
Qed.

Lemma matches_alternatives alts : forall r0 s,
  matches (fold_left (fun acc a => RegExp.Alt a acc) alts r0) s
  <-> matches r0 s \/ exists a, In a alts /\ matches a s.
Proof.
  induction alts as [|a alts IH]; intros r0 s; simpl.
  - split; [by left|]. intros [H|(a & [] & _)]. done.
  - rewrite IH. split.
    + intros [H|(a' & Hin & H)].
      * apply matches_alt_inv in H as [H|H]; [right; exists a; by split; [left|]|by left].
      * right. exists a'. split; [by right|done].
    + intros [H|(a' & [<-|Hin] & H)].
      * left. by apply matches_alt_r.
      * left. by apply matches_alt_l.
      * right. eauto.
Qed.

Lemma matches_keyword_frame k f s :
  RegExp.terms f = [] ->
  matches (RegExp.sequence (RegExp.terms (pushChars (Js.chars k) f))) s
  <-> sameIgnoringCase (Js.chars k) s.
Proof.
  intros Hf. destruct (pushChars_frame (Js.chars k) f) as [_ ->].
  rewrite Hf, app_nil_r. unfold RegExp.sequence. rewrite matches_literals. split.
  - intros (s1 & s2 & -> & H1 & H2). apply matches_eps_inv in H2 as ->.
    by rewrite app_nil_r.
  - intros H. exists s, []. rewrite app_nil_r. split; [done|]. split; [done|constructor].
Qed.

Lemma matches_readKeywords kws : forall f s,
  kws <> [] -> RegExp.terms f = [] ->
  matches (RegExp.disjunction (readKeywords kws f)) s
  <-> (exists a, In a (RegExp.alts f) /\ matches a s)
      \/ exists k, In k kws /\ sameIgnoringCase (Js.chars k) s.
Proof.
  induction kws as [|k kws IH]; intros f s Hne Hf; [done|].
  destruct kws as [|k2 kws].
  - simpl. unfold RegExp.disjunction. rewrite matches_alternatives.
    rewrite matches_keyword_frame by done.
    destruct (pushChars_frame (Js.chars k) f) as [-> _]. split.
    + intros [H|H]; [right; exists k; by split; [left|]|by left].
    + intros [H|(k' & [<-|[]] & H)]; [by right|by left].
  - change (readKeywords (k :: k2 :: kws) f)
      with (readKeywords (k2 :: kws) (RegExp.closeAlternative (pushChars (Js.chars k) f))).
    rewrite IH by done. simpl RegExp.alts.
    destruct (pushChars_frame (Js.chars k) f) as [-> _]. split.
    + intros [(a & [<-|Hin] & H)|(k' & Hin & H)].
      * right. exists k. split; [by left|]. by apply (matches_keyword_frame k f s).
      * left. eauto.
      * right. exists k'. split; [by right|done].
    + intros [H|(k' & [<-|Hin] & H)].
      * left. destruct H as (a & Hin & H). exists a. split; [by right|done].
      * left. eexists. split; [by left|]. by apply (matches_keyword_frame k f s).
      * right. eauto.
Qed.

(** The test of the keyword pattern, for plain keywords. *)
Lemma keywordRegex_plain api kws :
  kws <> [] -> Forall plainKeyword kws ->
  exists test,
    TwitterService.keywordRegex api kws = Ok test /\
    forall text,
      test text = true <-> exists k, In k kws /\ containsIgnoringCase text k.
Proof.
  intros Hne Hplain. unfold TwitterService.keywordRegex, RegExp.compile.
  rewrite parse_keywords by done. eexists. split; [done|].
  intros text. unfold RegExp.test. rewrite search_spec. unfold containsIgnoringCase.
  split.
  - intros (a & mid & b & E & H).
    apply (proj1 (matches_readKeywords kws RegExp.emptyFrame mid Hne eq_refl)) in H
      as [(r & [] & _)|(k & Hin & H)].
    exists k. split; [done|]. by exists a, mid, b.
  - intros (k & Hin & a & mid & b & E & H). exists a, mid, b. split; [done|].
    apply (proj2 (matches_readKeywords kws RegExp.emptyFrame mid Hne eq_refl)).
    right. eauto.
Qed.

(** ** The keyword filter *)

Lemma toTweetData_id t : TwitterService.toTweetData t = t.
Proof. by destruct t. Qed.

Lemma map_toTweetData l : map TwitterService.toTweetData l = l.
Proof. induction l as [|t l IH]; simpl; [done|]. by rewrite toTweetData_id, IH. Qed.

(** [getUserTweets] on the answer of the timeline: an empty timeline is
    returned before the pattern is built. *)
Lemma getUserTweets_data build api uid options data w :
  userTimeline api uid (requestFor build options) = inr (Some data) ->
  fst (TwitterService.getUserTweets build api uid options w) =
  match data, default [] (Options.keywords options) with
  | [], _ => Ok []
  | _, [] => Ok data
  | _, kws =>
      match TwitterService.keywordRegex api kws with
      | Ok test => Ok (List.filter (fun tweet => test (TweetData.text tweet)) data)
      | Throw error =>
          if hasCode 429 error
          then Throw (Error "Rate limit exceeded. Please try again later.")
          else Throw (Error ("Failed to fetch tweets: " +:+ errMessage error))
      end
  end.
Proof.
  intros Hdata. unfold TwitterService.getUserTweets. async.
  fold (requestFor build options). rewrite Hdata.
  destruct data as [|t data]; [done|].
  destruct (default [] (Options.keywords options)) as [|k kws]; simpl.
  - by rewrite toTweetData_id, map_toTweetData.
  - destruct (TwitterService.keywordRegex api (k :: kws)) as [test|error]; simpl.
    + by rewrite map_toTweetData.
    + by destruct (hasCode 429 error).
Qed.

(** C5, as the code has it. When the keyword list is empty every fetched
    post is kept. When it is not empty and no keyword holds a syntax
    character of the pattern language, a fetched post is kept if and only if
    its text contains one of the keywords, ignoring case, and the others are
    dropped before storage. In general the keywords are not matched one by
    one: they are joined by [|] into the source of one regular expression
    with the [i] flag; the posts kept are those the expression tests true
    on, and when the source does not compile the fetch throws. *)
Theorem keyword_filter
    (build : Build) (api : TwitterApi) (uid : string) (options : Options.t)
    (data : list TweetData.t) :
  userTimeline api uid (requestFor build options) = inr (Some data) ->
  (default [] (Options.keywords options) = [] ->
   forall w, fst (TwitterService.getUserTweets build api uid options w) = Ok data) /\
  (forall kws,
     Options.keywords options = Some kws -> kws <> [] -> Forall plainKeyword kws ->
     exists kept,
       (forall w, fst (TwitterService.getUserTweets build api uid options w) = Ok kept) /\
       (forall t,
          In t kept <->
          In t data /\
          exists k, In k kws /\ containsIgnoringCase (TweetData.text t) k)) /\
  (forall kws r,
     Options.keywords options = Some kws -> kws <> [] ->
     RegExp.compile true (Js.join "|" kws) = RegExp.Pattern r ->
     forall w,
       fst (TwitterService.getUserTweets build api uid options w)
       = Ok (List.filter (fun t => RegExp.test r (TweetData.text t)) data)) /\
  (forall kws,
     Options.keywords options = Some kws -> kws <> [] -> data <> [] ->
     RegExp.compile true (Js.join "|" kws) = RegExp.SyntaxErr ->
     exists message,
       forall w,
         fst (TwitterService.getUserTweets build api uid options w)
         = Throw (Error ("Failed to fetch tweets: " +:+ message))).
Proof.
  intros Hdata. split; [|split; [|split]].
  - intros Hk w. rewrite (getUserTweets_data _ _ _ _ _ _ Hdata), Hk. by destruct data.
  - intros kws Hk Hne Hplain.
    destruct (keywordRegex_plain api kws Hne Hplain) as (test & Htest & Hspec).
    exists (List.filter (fun tweet => test (TweetData.text tweet)) data). split.
    + intros w. rewrite (getUserTweets_data _ _ _ _ _ _ Hdata), Hk. simpl.
      destruct kws as [|k kws]; [done|]. rewrite Htest. by destruct data.
    + intros t. rewrite filter_In, Hspec. tauto.
  - intros kws r Hk Hne Hr w.
    rewrite (getUserTweets_data _ _ _ _ _ _ Hdata), Hk. simpl.
    destruct kws as [|k kws]; [done|].
    unfold TwitterService.keywordRegex. rewrite Hr. by destruct data.
  - intros kws Hk Hne Hd Hr. eexists. intros w.
    rewrite (getUserTweets_data _ _ _ _ _ _ Hdata), Hk. simpl.
    destruct kws as [|k kws]; [done|]. destruct data as [|t data]; [done|].
    unfold TwitterService.keywordRegex. rewrite Hr. reflexivity.
Qed.

Lemma launch_is_plain : Forall plainKeyword ["launch"].
Proof. repeat constructor. Qed.

Lemma keyword_filter_witness :
  exists kept,
    (forall w,
       fst (TwitterService.getUserTweets tsBuild apiAcme "42" (keywordsOnly ["launch"]) w)
       = Ok kept) /\
    In tweetLaunch kept.
Proof.
  destruct (keyword_filter tsBuild apiAcme "42" (keywordsOnly ["launch"])
              [tweetLaunch; tweetReply] eq_refl) as (_ & H & _).
  destruct (H ["launch"] eq_refl) as (kept & Hfetch & Hkept);
    [discriminate|exact launch_is_plain|].
  exists kept. split; [exact Hfetch|].
  apply Hkept. split; [by left|].
  exists "launch". split; [by left|].
  exists (Js.chars "We "), (Js.chars "LAUNCH"), (Js.chars " today").
  split; reflexivity.
Defined.

(** C5, as stated, fails: the text of the fetched post contains the keyword
    ["launch"], but the list also holds ["c++"], the joined pattern
    [launch|c++] does not compile, and the fetch throws: no post is kept. *)
Lemma matching_post_is_not_kept :
  In "launch" ["launch"; "c++"] /\
  containsIgnoringCase (TweetData.text tweetLaunch) "launch" /\
  userTimeline apiAcme "42" (requestFor tsBuild (keywordsOnly ["launch"; "c++"]))
    = inr (Some [tweetLaunch; tweetReply]) /\
  RegExp.compile true (Js.join "|" ["launch"; "c++"]) = RegExp.SyntaxErr /\
  exists message,
    forall w,
      fst (TwitterService.getUserTweets tsBuild apiAcme "42"
             (keywordsOnly ["launch"; "c++"]) w)
      = Throw (Error ("Failed to fetch tweets: " +:+ message)).
Proof.
  split; [by left|]. split.
  { exists (Js.chars "We "), (Js.chars "LAUNCH"), (Js.chars " today").
    split; reflexivity. }
  split; [reflexivity|]. split; [reflexivity|].
  eexists. intros w. reflexivity.
Qed.

(** ** The public JSON of a user *)

Lemma setOptional_lookup key v (o : gmap string UserJson.Json) k :
  k <> key -> UserJson.setOptional key v o !! k = o !! k.
Proof.
  intros Hne. unfold UserJson.setOptional. destruct v; [|done].
  by rewrite lookup_insert_ne.
Qed.

(** C10. The JSON of a user made by the [toJSON] transform of the model
    has no [password] and no [twitterCredentials] field, whatever their
    stored values: two users that differ only in these fields have the same
    JSON. *)
Theorem user_json_hides_secrets (u : IUser.t) :
  UserJson.toJSON u !! "password" = None /\
  UserJson.toJSON u !! "twitterCredentials" = None /\
  forall (password' : string) (credentials' : option TwitterCredentials.t),
    UserJson.toJSON
      (IUser.mk (IUser._id u) (IUser.email u) password' (IUser.isActive u)
         (IUser.twitterUsername u) credentials')
    = UserJson.toJSON u.
Proof.
  unfold UserJson.toJSON, UserJson.transform. split; [|split].
  - rewrite lookup_delete_ne by done. apply lookup_delete_eq.
  - apply lookup_delete_eq.
  - intros password' credentials'. apply map_eq. intros k.
    destruct (decide (k = "twitterCredentials")) as [->|Hc];
      [by rewrite !lookup_delete_eq|].
    rewrite !(lookup_delete_ne _ "twitterCredentials") by done.
    destruct (decide (k = "password")) as [->|Hp]; [by rewrite !lookup_delete_eq|].
    rewrite !(lookup_delete_ne _ "password") by done.
    unfold UserJson.toObject. simpl.
    rewrite !(setOptional_lookup "twitterCredentials") by done.
    destruct (decide (k = "twitterUsername")) as [->|Hu].
    + unfold UserJson.setOptional. destruct (IUser.twitterUsername u); simpl.
      * by rewrite !lookup_insert_eq.
      * rewrite !(lookup_insert_ne _ "isActive") by done.
        by rewrite !(lookup_insert_ne _ "password") by done.
    + rewrite !(setOptional_lookup "twitterUsername") by done.
      destruct (decide (k = "isActive")) as [->|Ha]; [by rewrite !lookup_insert_eq|].
      rewrite !(lookup_insert_ne _ "isActive") by done.
      by rewrite !(lookup_insert_ne _ "password") by done.
Qed.

Lemma user_json_of_userSeven :
  UserJson.toJSON userSeven !! "email" = Some (UserJson.JString "seven@example.com") /\
  UserJson.toJSON userSeven !! "password" = None /\
  UserJson.toJSON userSeven !! "twitterCredentials" = None.
Proof. repeat split. Qed.

(** * Further properties of the code *)

(** ** The states the server reaches *)

(** X1. In every state the server reaches, whatever the other tasks commit, no
    two posts share a [tweetId] and no two subscriptions an [_id]; the
    [targetUsername] of every subscription is not empty and in the normal
    form of the schema. *)
Theorem reachable_collections_are_consistent (w : World) :
  Server.reachable w ->
  List.NoDup (tweetIds w) /\
  List.NoDup (map ISubscription._id (subscriptions w)) /\
  Forall (fun s =>
    Js.nonEmpty (ISubscription.targetUsername s) = true /\
    normalName (ISubscription.targetUsername s) = ISubscription.targetUsername s)
    (subscriptions w).
Proof.
  intros Hreach. destruct (reachable_Invariant _ Hreach) as [Hids _ _ Htar Hnorm _ Htw].
  split; [done|]. split; [done|].
  rewrite Forall_forall in *. intros s Hs. auto.
Qed.

Lemma worldRefreshed_reachable : Server.reachable worldRefreshed.
Proof. apply Server.reachable_step, Server.reachable_step, worldCreated_reachable. Qed.

(** Two subscriptions and the two posts a refresh stored. *)
Lemma reachable_collections_are_consistent_witness :
  tweetIds worldRefreshed = ["1"; "2"] /\
  List.NoDup (tweetIds worldRefreshed) /\
  map ISubscription._id (subscriptions worldRefreshed) = [1%nat; 2%nat] /\
  List.NoDup (map ISubscription._id (subscriptions worldRefreshed)) /\
  map ISubscription.targetUsername (subscriptions worldRefreshed) = ["acme"; "beta"].
Proof.
  destruct (reachable_collections_are_consistent worldRefreshed worldRefreshed_reachable)
    as (Hposts & Hsubs & _).
  split; [reflexivity|]. split; [exact Hposts|]. split; [reflexivity|].
  split; [exact Hsubs|reflexivity].
Defined.

(** ** [getUserTweets] *)

Lemma filter_sublist {A : Type} (f : A -> bool) (l : list A) :
  sublist (List.filter f l) l.
Proof.
  induction l as [|x l IH]; simpl; [constructor|].
  destruct (f x); by constructor.
Qed.

(** The answer of [getUserTweets], for each answer of the timeline. *)
Lemma getUserTweets_cases build api uid options w :
  fst (TwitterService.getUserTweets build api uid options w) =
  match userTimeline api uid (requestFor build options) with
  | inl error =>
      if hasCode 429 error
      then Throw (Error "Rate limit exceeded. Please try again later.")
      else Throw (Error ("Failed to fetch tweets: " +:+ errMessage error))
  | inr None => Ok []
  | inr (Some data) =>
      match data, default [] (Options.keywords options) with
      | [], _ => Ok []
      | _, [] => Ok data
      | _, kws =>
          match TwitterService.keywordRegex api kws with
          | Ok test => Ok (List.filter (fun tweet => test (TweetData.text tweet)) data)
          | Throw error =>
              if hasCode 429 error
              then Throw (Error "Rate limit exceeded. Please try again later.")
              else Throw (Error ("Failed to fetch tweets: " +:+ errMessage error))
          end
      end
  end.
Proof.
  destruct (userTimeline api uid (requestFor build options)) as [e|[data|]] eqn:Ht.
  - unfold TwitterService.getUserTweets. async.
    fold (requestFor build options). rewrite Ht. simpl. by destruct (hasCode 429 e).
  - by apply getUserTweets_data.
  - unfold TwitterService.getUserTweets. async.
    fold (requestFor build options). by rewrite Ht.
Qed.


(** X2. The tweets [getUserTweets] returns are tweets of the timeline, in the
    order of the timeline: whatever the keywords, the filter only drops. *)
Theorem getUserTweets_returns_timeline_tweets
    (build : Build) (api : TwitterApi) (uid : string) (options : Options.t)
    (w w' : World) (tweets : list TweetData.t) :
  TwitterService.getUserTweets build api uid options w = (Ok tweets, w') ->
  exists data,
    (userTimeline api uid (requestFor build options) = inr (Some data) \/
     userTimeline api uid (requestFor build options) = inr None /\ data = []) /\
    sublist tweets data /\
    (length tweets <= length data)%nat.
Proof.
  intros Hrun.
  pose proof (getUserTweets_cases build api uid options w) as Hc.
  rewrite Hrun in Hc. simpl in Hc.
  destruct (userTimeline api uid (requestFor build options)) as [e|[data|]].
  - by destruct (hasCode 429 e).
  - exists data. split; [by left|].
    assert (sublist tweets data) as Hs.
    { destruct data as [|t data]; [by injection Hc as ->|].
      destruct (default [] (Options.keywords options)) as [|k kws];
        [by injection Hc as ->|].
      destruct (TwitterService.keywordRegex api (k :: kws)) as [test|e].
      - injection Hc as ->.
        apply (filter_sublist (fun tweet => test (TweetData.text tweet)) (t :: data)).
      - by destruct (hasCode 429 e). }
    split; [done|]. by apply sublist_length.
  - exists []. injection Hc as ->. split; [by right|]. split; [constructor|done].
Qed.

Lemma getUserTweets_returns_timeline_tweets_witness :
  exists data,
    userTimeline apiAcme "42" (requestFor tsBuild (keywordsOnly ["launch"]))
      = inr (Some data) /\
    sublist [tweetLaunch] data.
Proof.
  destruct (getUserTweets_returns_timeline_tweets tsBuild apiAcme "42"
              (keywordsOnly ["launch"]) world0 (afterCall apiAcme world0) [tweetLaunch])
    as (data & [Hd|[Hd _]] & Hs & _).
  - reflexivity.
  - exists data. by split.
  - discriminate Hd.
Defined.

(** X3. A keyword list whose pattern does not compile fails the fetch only when
    the timeline has tweets: an empty or missing timeline is answered with
    the empty list before the pattern is built. *)
Theorem bad_pattern_fails_only_with_tweets
    (build : Build) (api : TwitterApi) (uid : string) (options : Options.t)
    (kws : list string) (answer : option (list TweetData.t)) (w : World) :
  Options.keywords options = Some kws ->
  kws <> [] ->
  RegExp.compile true (Js.join "|" kws) = RegExp.SyntaxErr ->
  userTimeline api uid (requestFor build options) = inr answer ->
  (default [] answer = [] ->
   fst (TwitterService.getUserTweets build api uid options w) = Ok []) /\
  (default [] answer <> [] ->
   exists e,
     fst (TwitterService.getUserTweets build api uid options w) = Throw e /\
     errCode e = None).
Proof.
  intros Hk Hne Hbad Ht. rewrite getUserTweets_cases, Ht, Hk. simpl.
  destruct kws as [|k kws]; [done|].
  unfold TwitterService.keywordRegex. rewrite Hbad. simpl.
  destruct answer as [[|t data]|]; simpl; split; try done; eauto.
Qed.

Lemma bad_pattern_fails_only_with_tweets_witness :
  fst (TwitterService.getUserTweets tsBuild (apiOf []) "42" (keywordsOnly ["c++"]) world0)
  = Ok [].
Proof.
  destruct (bad_pattern_fails_only_with_tweets tsBuild (apiOf []) "42"
              (keywordsOnly ["c++"]) ["c++"] (Some []) world0) as [H _];
    [reflexivity|discriminate|reflexivity|reflexivity|].
  apply H. reflexivity.
Defined.



(** ** A run without other tasks *)

Lemma withPosts_same w : withPosts (posts w) w = w.
Proof. by destruct w. Qed.

Lemma hasTweetId_known id ps :
  Post.hasTweetId id ps = knownId (map IPost.tweetId ps) id.
Proof.
  unfold Post.hasTweetId, knownId. induction ps as [|p ps IH]; simpl; [done|].
  by rewrite IH, String.eqb_sym.
Qed.

Lemma knownId_In known id : knownId known id = true <-> In id known.
Proof.
  unfold knownId. rewrite existsb_exists. split.
  - intros (x & Hx & He). apply String.eqb_eq in He. by subst.
  - intros H. exists id. split; [done|]. apply String.eqb_refl.
Qed.

Lemma knownId_same known known' id :
  (forall x, In x known <-> In x known') -> knownId known id = knownId known' id.
Proof.
  intros H. apply eq_true_iff_eq. by rewrite !knownId_In.
Qed.

Lemma freshTweets_same tweets : forall known known',
  (forall x, In x known <-> In x known') ->
  freshTweets known tweets = freshTweets known' tweets.
Proof.
  induction tweets as [|t rest IH]; intros known known' H; simpl; [done|].
  rewrite (knownId_same known known' _ H).
  destruct (knownId known' _); [by apply IH|]. f_equal. apply IH.
  intros x. rewrite !in_app_iff. by rewrite H.
Qed.

Lemma freshTweets_spec tweets : forall known,
  sublist (freshTweets known tweets) tweets /\
  List.NoDup (map TweetData.id (freshTweets known tweets)) /\
  (forall t, In t (freshTweets known tweets) -> ~ In (TweetData.id t) known) /\
  (forall t, In t tweets ->
     In (TweetData.id t) known \/
     In (TweetData.id t) (map TweetData.id (freshTweets known tweets))).
Proof.
  induction tweets as [|t rest IH]; intros known; simpl.
  - repeat split; [constructor|constructor|by intros ? []|by intros ? []].
  - destruct (knownId known (TweetData.id t)) eqn:Hk.
    + destruct (IH known) as (Hsub & Hnd & Hnew & Hall).
      repeat split; [by constructor|done|done|].
      intros t' [<-|Hin]; [left; by apply knownId_In|by apply Hall].
    + destruct (IH (known ++ [TweetData.id t])) as (Hsub & Hnd & Hnew & Hall).
      assert (Hnk : ~ In (TweetData.id t) known).
      { intros Hin. apply knownId_In in Hin. congruence. }
      repeat split.
      * by constructor.
      * simpl. constructor; [|done]. intros Hin. apply in_map_iff in Hin as (t' & Hid & Hin).
        apply (Hnew t' Hin). rewrite Hid, in_app_iff. right. by left.
      * intros t' [<-|Hin]; [done|]. intros Hk'. apply (Hnew t' Hin).
        rewrite in_app_iff. by left.
      * intros t' [<-|Hin]; [right; by left|].
        destruct (Hall t' Hin) as [Hin'|Hin']; [|right; by right].
        apply in_app_iff in Hin' as [Hin'|[Hin'|[]]]; [by left|right; left; done].
Qed.

Lemma freshTweets_resume tweets : forall known saved tail,
  freshTweets known tweets = saved ++ tail ->
  freshTweets (known ++ map TweetData.id saved) tweets = tail.
Proof.
  induction tweets as [|x tweets IH]; intros known saved tail H; simpl in *.
  - symmetry in H. by apply app_eq_nil in H as [_ ->].
  - destruct (knownId known (TweetData.id x)) eqn:Hk.
    + assert (knownId (known ++ map TweetData.id saved) (TweetData.id x) = true) as ->.
      { apply knownId_In, in_app_iff. left. by apply knownId_In. }
      by apply IH.
    + destruct saved as [|x' saved]; simpl in *.
      * by rewrite app_nil_r, Hk.
      * injection H as <- H.
        assert (knownId (known ++ TweetData.id x :: map TweetData.id saved)
                  (TweetData.id x) = true) as ->.
        { apply knownId_In, in_app_iff. right. by left. }
        apply IH in H. by rewrite <- app_assoc in H.
Qed.

Section Sequential.

Variable s : ISubscription.t.
Variable u : UserV2.t.

Lemma storeTweets_sequential_step t rest count w :
  TwitterService.storeTweets sequential s u (t :: rest) count w =
  if knownId (tweetIds w) (TweetData.id t)
  then TwitterService.storeTweets sequential s u rest count w
  else match Post.validate (TwitterService.newPost s u t) with
       | Some path => (Throw (ValidationError path), w)
       | None =>
           TwitterService.storeTweets sequential s u rest (S count)
             (withPosts (posts w ++ [TwitterService.newPost s u t]) w)
       end.
Proof.
  rewrite storeTweets_step. cbv zeta. simpl beforeCheck. simpl beforeSave.
  unfold committed. simpl fold_left. cbn [posts withPosts]. rewrite !withPosts_same.
  rewrite hasTweetId_known. fold (tweetIds w).
  destruct (knownId (tweetIds w) (TweetData.id t)) eqn:Hk; [done|].
  unfold Post.save. destruct (Post.validate _); [done|].
  unfold Post.insert.
  replace (IPost.tweetId (TwitterService.newPost s u t)) with (TweetData.id t) by done.
  rewrite hasTweetId_known. fold (tweetIds w). by rewrite Hk.
Qed.

Lemma tweetIds_saved w rows :
  tweetIds (withPosts (posts w ++ rows) w) = tweetIds w ++ map IPost.tweetId rows.
Proof. unfold tweetIds. simpl. by rewrite map_app. Qed.

(** The loop, when every document validates. *)
Lemma storeTweets_sequential_Ok tweets : forall count w,
  Forall (fun t => Post.validate (TwitterService.newPost s u t) = None)
    (freshTweets (tweetIds w) tweets) ->
  TwitterService.storeTweets sequential s u tweets count w =
  (Ok (count + length (freshTweets (tweetIds w) tweets))%nat,
   withPosts (posts w ++ map (TwitterService.newPost s u)
                           (freshTweets (tweetIds w) tweets)) w).
Proof.
  induction tweets as [|t rest IH]; intros count w Hall.
  - simpl. rewrite app_nil_r, withPosts_same, Nat.add_0_r. done.
  - rewrite storeTweets_sequential_step. simpl in *.
    destruct (knownId (tweetIds w) (TweetData.id t)); [by apply IH|].
    inversion Hall as [|? ? Hv Hrest]; subst. rewrite Hv.
    rewrite IH; rewrite tweetIds_saved; simpl; [|done].
    f_equal; [f_equal; lia|]. unfold withPosts. simpl. by rewrite <- app_assoc.
Qed.

(** The loop, when the document of a tweet does not validate. *)
Lemma storeTweets_sequential_Throw tweets : forall count w saved t rest path,
  freshTweets (tweetIds w) tweets = saved ++ t :: rest ->
  Forall (fun t => Post.validate (TwitterService.newPost s u t) = None) saved ->
  Post.validate (TwitterService.newPost s u t) = Some path ->
  TwitterService.storeTweets sequential s u tweets count w =
  (Throw (ValidationError path),
   withPosts (posts w ++ map (TwitterService.newPost s u) saved) w).
Proof.
  induction tweets as [|t0 tweets IH]; intros count w saved t rest path Hf Hall Hbad.
  - by destruct saved.
  - rewrite storeTweets_sequential_step. simpl in Hf.
    destruct (knownId (tweetIds w) (TweetData.id t0)); [by eapply IH|].
    destruct saved as [|t1 saved]; simpl in Hf; injection Hf as -> Hf.
    + rewrite Hbad. simpl. by rewrite app_nil_r, withPosts_same.
    + inversion Hall as [|? ? Hv Hrest]; subst. rewrite Hv.
      erewrite IH; [|by rewrite tweetIds_saved|done|done].
      unfold withPosts. simpl. by rewrite <- app_assoc.
Qed.

End Sequential.

(** X5. Run without other tasks, [processSubscriptionTweets] saves one row
    for every fetched tweet that has none, once for each identifier, in the
    order of the timeline, and returns their number: when the documents of
    these tweets validate, the run completes, the rows are appended and the
    checkpoint is written. *)
Theorem sequential_run_saves_each_new_tweet_once
    (build : Build) (api : TwitterApi) (s : ISubscription.t) (u : UserV2.t)
    (tweets : list TweetData.t) (w : World) :
  let new := freshTweets (tweetIds w) tweets in
  userByUsername api (ISubscription.targetUsername s) = inr (Some u) ->
  fetches build api s tweets ->
  Forall (fun t => Post.validate (TwitterService.newPost s u t) = None) new ->
  TwitterService.processSubscriptionTweets build api sequential s w =
    (Ok (length new),
     checkpointed s (afterSaving api (map (TwitterService.newPost s u) new) w)) /\
  sublist new tweets /\
  List.NoDup (map TweetData.id new) /\
  (forall t, In t new -> ~ In (TweetData.id t) (tweetIds w)) /\
  (forall t, In t tweets ->
     In (TweetData.id t) (tweetIds w) \/ In (TweetData.id t) (map TweetData.id new)).
Proof.
  intros new Hu (u' & Hu' & Hf) Hall. split; [|apply freshTweets_spec].
  rewrite Hu in Hu'. injection Hu' as <-.
  rewrite processSubscriptionTweets_eq. cbv zeta. rewrite Hu, Hf.
  rewrite storeTweets_sequential_Ok; [done|exact Hall].
Qed.

Lemma sequential_run_saves_each_new_tweet_once_witness :
  fst (TwitterService.processSubscriptionTweets tsBuild
         (apiOf [tweetLaunch; tweetReply; tweetLaunch]) sequential subAcme world0)
  = Ok 2%nat.
Proof.
  destruct (sequential_run_saves_each_new_tweet_once tsBuild
              (apiOf [tweetLaunch; tweetReply; tweetLaunch]) subAcme acme
              (map TwitterService.toTweetData [tweetLaunch; tweetReply; tweetLaunch])
              world0) as [H _].
  - reflexivity.
  - by apply apiOf_fetches.
  - repeat constructor.
  - by rewrite H.
Defined.

(** X6. A fetched tweet whose document does not validate ends the run with
    the [ValidationError] of its first failing path: the rows saved before
    it stay, the tweets after it are not saved and the checkpoint is not
    written. The next run, fetching the same tweets, fails on the same
    tweet and saves nothing. *)
Theorem invalid_tweet_blocks_the_subscription
    (build : Build) (api api' : TwitterApi) (s : ISubscription.t) (u : UserV2.t)
    (tweets saved rest : list TweetData.t) (t : TweetData.t) (path : string)
    (w : World) :
  userByUsername api (ISubscription.targetUsername s) = inr (Some u) ->
  fetches build api s tweets ->
  userByUsername api' (ISubscription.targetUsername s) = inr (Some u) ->
  fetches build api' s tweets ->
  freshTweets (tweetIds w) tweets = saved ++ t :: rest ->
  Forall (fun t => Post.validate (TwitterService.newPost s u t) = None) saved ->
  Post.validate (TwitterService.newPost s u t) = Some path ->
  let w' := afterSaving api (map (TwitterService.newPost s u) saved) w in
  TwitterService.processSubscriptionTweets build api sequential s w
    = (Throw (ValidationError path), w') /\
  subscriptions w' = subscriptions w /\
  TwitterService.processSubscriptionTweets build api' sequential s w'
    = (Throw (ValidationError path), afterSaving api' [] w').
Proof.
  intros Hu (u1 & Hu1 & Hf) Hu' (u2 & Hu2 & Hf') Hfresh Hall Hbad w'.
  rewrite Hu in Hu1. injection Hu1 as <-. rewrite Hu' in Hu2. injection Hu2 as <-.
  split; [|split; [done|]].
  - rewrite processSubscriptionTweets_eq. cbv zeta. rewrite Hu, Hf.
    erewrite storeTweets_sequential_Throw; [done|exact Hfresh|exact Hall|exact Hbad].
  - rewrite processSubscriptionTweets_eq. cbv zeta. rewrite Hu', Hf'.
    erewrite (storeTweets_sequential_Throw s u tweets 0%nat _ [] t rest);
      [done| |done|exact Hbad].
    change (tweetIds (afterCall api' (afterCall api' w')))
      with (tweetIds (withPosts (posts w ++ map (TwitterService.newPost s u) saved) w)).
    rewrite tweetIds_saved, map_map.
    by apply (freshTweets_resume tweets (tweetIds w) saved (t :: rest)).
Qed.

Lemma invalid_tweet_blocks_the_subscription_witness :
  fst (TwitterService.processSubscriptionTweets tsBuild
         (apiOf [tweetLaunch; tweetUndated; tweetReply]) sequential subAcme world0)
  = Throw (ValidationError "tweetCreatedAt").
Proof.
  destruct (invalid_tweet_blocks_the_subscription tsBuild
              (apiOf [tweetLaunch; tweetUndated; tweetReply])
              (apiOf [tweetLaunch; tweetUndated; tweetReply]) subAcme acme
              (map TwitterService.toTweetData [tweetLaunch; tweetUndated; tweetReply])
              [tweetLaunch] [tweetReply] tweetUndated "tweetCreatedAt" world0) as [H _].
  - reflexivity.
  - by apply apiOf_fetches.
  - reflexivity.
  - by apply apiOf_fetches.
  - reflexivity.
  - repeat constructor.
  - reflexivity.
  - by rewrite H.
Defined.

(** ** The summary of a batch *)









(** ** Whose subscriptions a run writes *)

Lemma onlyCheckpoints_refl P l : onlyCheckpoints P l l.
Proof. induction l; constructor; auto. Qed.

Lemma same_id l s x :
  List.NoDup (map ISubscription._id l) -> In s l -> In x l ->
  ISubscription._id x = ISubscription._id s -> x = s.
Proof.
  intros Hnd Hs Hx Hid.
  pose proof (find_by_id l s Hnd Hs) as H1.
  pose proof (find_by_id l x Hnd Hx) as H2.
  rewrite Hid in H2. congruence.
Qed.

Lemma onlyCheckpoints_update (P : ISubscription.t -> Prop) id d l0 : forall l,
  onlyCheckpoints P l0 l ->
  (forall x0, In x0 l0 -> ISubscription._id x0 = id -> P x0) ->
  onlyCheckpoints P l0
    (Subscription.updateFirst (byId id) (ISubscription.setLastChecked d) l).
Proof.
  induction l0 as [|x0 l0 IH]; intros l H HP; inversion H as [|? x ? l' R Hrest]; subst;
    simpl; [constructor|].
  assert (Hid : ISubscription._id x = ISubscription._id x0).
  { destruct R as [->|(_ & d0 & ->)]; done. }
  unfold byId at 1. destruct (Nat.eqb_spec (ISubscription._id x) id) as [E|E].
  - constructor; [|done]. right. split; [apply HP; [by left|congruence]|].
    exists d. destruct R as [->|(_ & d0 & ->)]; done.
  - constructor; [done|]. apply IH; [done|]. intros y Hy. apply HP. by right.
Qed.

(** What a reconciliation writes to the subscriptions: nothing, or the
    checkpoint of the first document with the identifier. *)
Lemma process_subscriptions build api sched s w res w' :
  TwitterService.processSubscriptionTweets build api sched s w = (res, w') ->
  users w' = users w /\
  (subscriptions w' = subscriptions w \/
   subscriptions w' =
     Subscription.updateFirst (byId (ISubscription._id s))
       (ISubscription.setLastChecked (clock w')) (subscriptions w)).
Proof.
  intros H. destruct res as [n|e].
  - apply process_Ok in H as (u & tweets & w3 & _ & _ & Hstore & ->).
    apply storeTweets_grows in Hstore as ((Hs & Hu & _) & _).
    split; [done|]. right. unfold checkpointed. simpl. by rewrite Hs.
  - apply process_Throw_subscriptions in H as [Hs Hu]. auto.
Qed.

Section Batch.

Variable build : Build.
Variable api : TwitterApi.
Variable sched : Scheduler.
Variable P : ISubscription.t -> Prop.
Variable l0 : list ISubscription.t.
Hypothesis l0_ids : List.NoDup (map ISubscription._id l0).

Lemma process_onlyCheckpoints s w res w' :
  In s l0 -> P s ->
  onlyCheckpoints P l0 (subscriptions w) ->
  TwitterService.processSubscriptionTweets build api sched s w = (res, w') ->
  onlyCheckpoints P l0 (subscriptions w') /\ users w' = users w.
Proof.
  intros Hin HP Hinv Hrun.
  apply process_subscriptions in Hrun as [Hu [->| ->]]; [done|].
  split; [|done]. apply onlyCheckpoints_update; [done|].
  intros x0 Hx0 Hid. by rewrite (same_id l0 s x0 l0_ids Hin Hx0 Hid).
Qed.

Lemma processEach_onlyCheckpoints l : forall acc w res w',
  Forall (fun s => In s l0 /\ P s) l ->
  onlyCheckpoints P l0 (subscriptions w) ->
  TwitterService.processEach build api sched l acc w = (res, w') ->
  onlyCheckpoints P l0 (subscriptions w') /\ users w' = users w.
Proof.
  induction l as [|s rest IH]; intros acc w res w' Hall Hinv H.
  - by injection H as <- <-.
  - inversion Hall as [|? ? [Hin HP] Hrest]; subst.
    rewrite processEach_cons, processOne_eq in H.
    destruct (due s (clock w)); [|by eapply IH].
    destruct (TwitterService.processSubscriptionTweets _ _ _ _ _) as [[n|e] w1] eqn:Hrun;
      destruct (process_onlyCheckpoints _ _ _ _ Hin HP Hinv Hrun) as [Hinv1 Hu1].
    + apply IH in H as [? Hu]; [|done|done]. split; [done|]. by rewrite Hu.
    + apply IH in H as [? Hu]; [|done|done]. split; [done|]. by rewrite Hu.
Qed.

End Batch.

(** X8. A batch writes nothing but checkpoints, and those of the active
    subscriptions of its user only: every other field of every
    subscription, the subscriptions of other users, the inactive ones and
    the users are as they were. *)
Theorem batch_writes_only_own_checkpoints
    (build : Build) (api : TwitterApi) (sched : Scheduler) (userId : ObjectId)
    (w w' : World) (res : Result Summary.t) :
  List.NoDup (map ISubscription._id (subscriptions w)) ->
  TwitterService.processAllUserSubscriptions build api sched userId w = (res, w') ->
  users w' = users w /\
  length (subscriptions w') = length (subscriptions w) /\
  Forall2 (fun s s' =>
    s' = s \/
    (ISubscription.userId s = userId /\ ISubscription.isActive s = true /\
     exists d, s' = ISubscription.setLastChecked d s))
    (subscriptions w) (subscriptions w').
Proof.
  intros Hnd Hrun.
  rewrite processAllUserSubscriptions_eq in Hrun.
  destruct (subscriptionsQuery sched userId) as [error|].
  { injection Hrun as <- <-. split; [done|]. split; [done|].
    clear. induction (subscriptions w) as [|x l IH]; constructor; auto. }
  apply (processEach_onlyCheckpoints build api sched
           (fun s => ISubscription.userId s = userId /\ ISubscription.isActive s = true)
           (subscriptions w) Hnd) in Hrun as [H Hu].
  - split; [done|]. split; [symmetry; by eapply Forall2_length|].
    eapply Forall2_impl; [exact H|]. intros s s' [->|((Hu' & Ha) & d & ->)]; eauto.
  - apply Forall_forall. intros s Hs. apply list_elem_of_In, filter_In in Hs as [Hin Hs].
    apply andb_true_iff in Hs as [Hs1 Hs2]. apply Nat.eqb_eq in Hs1. done.
  - apply onlyCheckpoints_refl.
Qed.

Lemma batch_writes_only_own_checkpoints_witness :
  length (subscriptions
            (snd (TwitterService.processAllUserSubscriptions tsBuild apiFlaky sequential
                    7%nat worldThree))) = 3%nat.
Proof.
  destruct (batch_writes_only_own_checkpoints tsBuild apiFlaky sequential 7%nat worldThree
              (snd (TwitterService.processAllUserSubscriptions tsBuild apiFlaky sequential
                      7%nat worldThree))
              (fst (TwitterService.processAllUserSubscriptions tsBuild apiFlaky sequential
                      7%nat worldThree))) as (_ & H & _).
  - repeat constructor; simpl; intuition lia.
  - by destruct (TwitterService.processAllUserSubscriptions _ _ _ _ _).
  - exact H.
Defined.

Lemma othersOf_updateFirst u sel f l :
  (forall x, In x l -> sel x = true ->
     ISubscription.userId x = u /\ ISubscription.userId (f x) = u) ->
  othersOf u (Subscription.updateFirst sel f l) = othersOf u l.
Proof.
  induction l as [|x l IH]; intros H; simpl; [done|].
  destruct (sel x) eqn:Hsel.
  - destruct (H x) as [H1 H2]; [by left|done|]. simpl.
    by rewrite H1, H2, Nat.eqb_refl.
  - simpl. rewrite IH; [done|]. intros y Hy. apply H. by right.
Qed.

Lemma othersOf_onlyCheckpoints u (P : ISubscription.t -> Prop) l l' :
  (forall s, P s -> ISubscription.userId s = u) ->
  onlyCheckpoints P l l' -> othersOf u l' = othersOf u l.
Proof.
  intros HP H. induction H as [|s s' l l' R _ IH]; [done|]. simpl.
  destruct R as [->|(Hs & d & ->)]; [by rewrite IH|].
  simpl. by rewrite (HP s Hs), Nat.eqb_refl.
Qed.

Lemma othersOf_byId u id f l s :
  List.NoDup (map ISubscription._id l) -> In s l ->
  ISubscription._id s = id -> ISubscription.userId s = u ->
  ISubscription.userId (f s) = u ->
  othersOf u (Subscription.updateFirst (byId id) f l) = othersOf u l.
Proof.
  intros Hnd Hin Hid Hu Hf. apply othersOf_updateFirst.
  intros x Hx Hsel. apply Nat.eqb_eq in Hsel.
  assert (x = s) as -> by (apply (same_id l); congruence). done.
Qed.

Lemma find_owned id u l s :
  find (owned id u) l = Some s ->
  In s l /\ ISubscription._id s = id /\ ISubscription.userId s = u.
Proof.
  intros H. apply find_some in H as [Hin H]. apply andb_true_iff in H as [H1 H2].
  apply Nat.eqb_eq in H1, H2. done.
Qed.

(** X9. A request, or a turn of the scheduled job, that acts for a user
    leaves the subscriptions of every other user as they are: it changes,
    adds and deactivates subscriptions of this user only. *)
Theorem acting_for_a_user_leaves_the_others
    (e : Server.Event) (userId : ObjectId) (w : World) :
  Server.reachable w ->
  actsFor e = Some userId ->
  othersOf userId (subscriptions (Server.step e w)) = othersOf userId (subscriptions w).
Proof.
  intros Hreach He. pose proof (inv_ids _ (reachable_Invariant _ Hreach)) as Hnd.
  destruct e as [api u body|id u|build api sched id u|build api sched u|ms|us];
    try discriminate; injection He as ->; simpl.
  - rewrite createSubscription_eq.
    destruct (negb (Server.validCreate body)); [done|].
    destruct (negb (Server.hasCredentials _)); [done|].
    destruct (fst (TwitterService.createForUser api userId w)) as [[service|]|e];
      [|done|done].
    cbv zeta. destruct (userByUsername service _) as [e|targetUser]; [done|].
    destruct (find _ (subscriptions w)) as [ex|] eqn:Hfind.
    + destruct (ISubscription.isActive ex); [done|].
      destruct (Subscription.validateModified _); [done|]. simpl.
      apply find_some in Hfind as [Hin Hsel]. apply andb_true_iff in Hsel as [Hsel _].
      apply Nat.eqb_eq in Hsel. by apply (othersOf_byId _ _ _ _ ex).
    + destruct (Subscription.saveNew _ _) as [[s|e] w2] eqn:Hs.
      * apply saveNew_Ok in Hs as (-> & _ & Hu & _). simpl in *.
        unfold othersOf. rewrite List.filter_app. simpl.
        by rewrite Hu, Nat.eqb_refl, app_nil_r.
      * by apply saveNew_Throw in Hs as ->.
  - destruct id as [id|]; [|done]. rewrite deleteSubscription_eq.
    destruct (find _ _) as [s|]; [|done]. simpl.
    apply othersOf_updateFirst. intros x _ Hsel. apply andb_true_iff in Hsel as [_ Hsel].
    apply Nat.eqb_eq in Hsel. done.
  - destruct id as [id|]; [|done].
    unfold Server.refreshSubscription, Server.respond.
    unfold bind at 1. unfold Subscription.findOwned at 1. fold (owned id userId).
    destruct (find _ _) as [s|] eqn:Hfind; [|done].
    apply find_owned in Hfind as (Hin & Hid & Hu).
    unfold bind at 1.
    destruct (createForUser_cases api userId w) as [-> | ->]; [|done].
    unfold bind at 1.
    destruct (TwitterService.processSubscriptionTweets _ _ _ _ _) as [r w1] eqn:Hrun.
    assert (othersOf userId (subscriptions w1) = othersOf userId (subscriptions w)) as Hw1.
    { apply process_subscriptions in Hrun as [_ [->| ->]]; [done|].
      by apply (othersOf_byId _ _ _ _ s). }
    by destruct r.
  - rewrite scheduledUser_state.
    destruct (createForUser_cases api userId w) as [-> | ->]; cbn [fst]; [|done].
    destruct (subscriptionsQuery sched userId) as [error|]; [done|].
    destruct (TwitterService.processEach _ _ _ _ _ _) as [r w1] eqn:Hrun.
    apply (processEach_onlyCheckpoints build api sched
             (fun s => ISubscription.userId s = userId) (subscriptions w) Hnd)
      in Hrun as [H _].
    + by apply (othersOf_onlyCheckpoints userId) in H.
    + apply Forall_forall. intros s Hs. apply list_elem_of_In, filter_In in Hs as [Hin Hs].
      apply andb_true_iff in Hs as [Hs1 _]. apply Nat.eqb_eq in Hs1. done.
    + apply onlyCheckpoints_refl.
Qed.

(** Another user asks to delete the subscription of user 7. *)
Lemma acting_for_a_user_leaves_the_others_witness :
  othersOf 8%nat
    (subscriptions (Server.step (Server.DeleteSubscription (Some 1%nat) 8%nat) worldCreated))
  = [subCreated].
Proof.
  rewrite (acting_for_a_user_leaves_the_others
             (Server.DeleteSubscription (Some 1%nat) 8%nat) 8%nat worldCreated).
  - reflexivity.
  - apply Server.reachable_step, Server.reachable_start.
  - reflexivity.
Defined.

(** ** A create request for a new pair *)

Lemma trim_toLowerCase x : Js.trim (Js.toLowerCase x) = Js.toLowerCase (Js.trim x).
Proof.
  unfold Js.trim, Js.toLowerCase. rewrite !chars_str. f_equal.
  change (trimEnd (Js.trimStart (map Js.lower (Js.chars x)))
          = map Js.lower (trimEnd (Js.trimStart (Js.chars x)))).
  by rewrite trimStart_lower, trimEnd_lower.
Qed.

(** The name the route looks for is the name the schema stores. *)
Lemma sanitizedTarget_normal body :
  normalName (Server.sanitizedTarget body) = Server.sanitizedTarget body.
Proof.
  unfold Server.sanitizedTarget. rewrite <- trim_toLowerCase. apply normalName_idem.
Qed.

Lemma find_existsb {A : Type} (f : A -> bool) l : find f l = None -> existsb f l = false.
Proof.
  induction l as [|x l IH]; simpl; [done|]. destruct (f x); [discriminate|done].
Qed.

(** X10. A create request for a pair without subscription, by a user with
    credentials, appends one document: the name is the one the existence
    check looked for, the fields the request leaves out have their defaults,
    the keywords are trimmed, the document is active and its checkpoint is
    the time of the request. The answer is 201, but 500 when the lookup
    answered without an account: the document is stored all the same. A name
    of blanks only passes the validation chain and fails the schema: 500,
    and nothing is stored. *)
Theorem create_appends_one_document
    (api : TwitterApi) (userId : ObjectId) (body : Server.CreateBody.t)
    (targetUser : option UserV2.t) (w : World) :
  Server.validCreate body = true ->
  TwitterService.createForUser api userId w = (Ok (Some api), w) ->
  userByUsername api (Server.sanitizedTarget body) = inr targetUser ->
  find (Subscription.samePair userId (Server.sanitizedTarget body)) (subscriptions w)
    = None ->
  let w1 := afterCall api w in
  let doc := created userId body (Subscription.freshId (subscriptions w)) (clock w1) in
  (Js.nonEmpty (Server.sanitizedTarget body) = true ->
   Server.createSubscription api userId body w =
     (match targetUser with Some _ => 201 | None => 500 end,
      withSubscriptions (subscriptions w ++ [doc]) w1)) /\
  (Js.nonEmpty (Server.sanitizedTarget body) = false ->
   Server.createSubscription api userId body w = (500, w1)).
Proof.
  intros Hvalid Hservice Hu Hfind w1 doc.
  pose proof (createForUser_hasCredentials _ _ _ _ Hservice) as [Hcred _].
  pose proof (validCreate_interval _ Hvalid) as Hint.
  rewrite createSubscription_eq, Hvalid, Hcred, Hservice. cbn [negb fst].
  cbv zeta. rewrite Hu, Hfind. fold w1.
  unfold Subscription.saveNew. cbv zeta.
  unfold Subscription.create, Subscription.validate. cbn [ISubscription.targetUsername
    ISubscription.checkInterval ISubscription.userId ISubscription.isActive
    ISubscription.lastChecked ISubscription.keywords ISubscription.includeReplies
    ISubscription.includeRetweets ISubscription._id].
  fold (normalName (Server.sanitizedTarget body)). rewrite sanitizedTarget_normal.
  split; intros Hne; rewrite Hne; cbn [negb]; [|done].
  destruct (Z.ltb_spec (Server.orDefault 60 (Server.CreateBody.checkInterval body)) 15);
    [lia|].
  destruct (Z.ltb_spec 1440 (Server.orDefault 60 (Server.CreateBody.checkInterval body)));
    [lia|].
  change (subscriptions w1) with (subscriptions w).
  by rewrite (find_existsb _ _ Hfind).
Qed.

(** The account is unknown to the lookup: the answer is 500 and the
    subscription is stored. *)
Lemma create_appends_one_document_witness :
  Server.createSubscription apiUnknown 7%nat bodyAcme worldEmpty =
  (500, mkWorld [] [subCreated] [userSeven] 1005).
Proof.
  destruct (create_appends_one_document apiUnknown 7%nat bodyAcme None worldEmpty)
    as [H _]; [reflexivity|reflexivity|reflexivity|reflexivity|].
  by rewrite H.
Defined.

(** ** Deleting again *)

Lemma updateFirst_find sel f l :
  (forall x, sel (f x) = sel x) ->
  find sel (Subscription.updateFirst sel f l) = f <$> find sel l.
Proof.
  intros H. induction l as [|x l IH]; simpl; [done|].
  destruct (sel x) eqn:E; simpl; [by rewrite H, E|by rewrite E].
Qed.

Lemma updateFirst_idem sel f l :
  (forall x, sel (f x) = sel x) -> (forall x, f (f x) = f x) ->
  Subscription.updateFirst sel f (Subscription.updateFirst sel f l)
  = Subscription.updateFirst sel f l.
Proof.
  intros H1 H2. induction l as [|x l IH]; simpl; [done|].
  destruct (sel x) eqn:E; simpl; [by rewrite H1, E, H2|by rewrite E, IH].
Qed.

(** X11. [DELETE /api/subscriptions/:id] is idempotent: the same request made
    again gets the same answer, 200 for a subscription of the user that is
    deleted already, and leaves the state as the first request left it. *)
Theorem delete_again_changes_nothing
    (id : option ObjectId) (userId : ObjectId) (w : World) :
  Server.deleteSubscription id userId
    (snd (Server.deleteSubscription id userId w))
  = Server.deleteSubscription id userId w.
Proof.
  destruct id as [id|]; [|done]. rewrite !deleteSubscription_eq.
  destruct (find (owned id userId) (subscriptions w)) as [s|] eqn:Hfind; simpl.
  - rewrite updateFirst_find by done. rewrite Hfind. simpl.
    by rewrite updateFirst_idem.
  - by rewrite Hfind.
Qed.

(** ** After a reconciliation *)




(** ** The derived fields of a stored post *)

Lemma startsWith_spec p : forall l,
  Js.startsWith l p = true <-> exists b, l = p ++ b.
Proof.
  induction p as [|a p IH]; intros l; simpl.
  - split; [intros _; by exists l|by destruct l].
  - destruct l as [|c l]; simpl; [split; [done|by intros [b Hb]]|].
    destruct (Ascii.eqb_spec a c) as [->|Hne].
    + rewrite IH. split; intros [b Hb]; exists b; congruence.
    + split; [done|]. intros [b Hb]. congruence.
Qed.

Lemma includes_chars_spec p : forall l,
  Js.includes_chars l p = true <-> exists a b, l = a ++ p ++ b.
Proof.
  induction l as [|c l IH]; cbn [Js.includes_chars]; rewrite orb_true_iff, startsWith_spec.
  - split.
    + intros [[b Hb]|H]; [by exists [], b|done].
    + intros (a & b & H). left. destruct a; [by exists b|done].
  - rewrite IH. split.
    + intros [[b Hb]|(a & b & ->)]; [by exists [], b|by exists (c :: a), b].
    + intros (a & b & H). destruct a as [|c' a]; [left; by exists b|].
      right. exists a, b. simpl in H. congruence.
Qed.

Lemma includes_spec s sub : Js.includes s sub = true <-> occursIn sub s.
Proof. apply includes_chars_spec. Qed.

Lemma map_sublist {A B : Type} (f : A -> B) (l1 l2 : list A) :
  sublist l1 l2 -> sublist (map f l1) (map f l2).
Proof. induction 1; simpl; by constructor. Qed.

Lemma existsb_reference type refs :
  existsb (fun ref => String.eqb (ReferencedTweet.type ref) type) refs = true <->
  exists id, In (ReferencedTweet.mk type id) refs.
Proof.
  rewrite existsb_exists. split.
  - intros ([ty id] & Hin & He). apply String.eqb_eq in He. simpl in He. subst. by exists id.
  - intros (id & Hin). eexists. split; [exact Hin|]. apply String.eqb_refl.
Qed.

(** X13. The fields of a stored post that are computed from the tweet. Its
    [mediaUrls] are the expanded links of the tweet in which
    [pic.twitter.com] or [video.twitter.com] occurs, each as often as the
    tweet has it and in the order of the tweet. It is a
    reply when the tweet refers to one it replies to, and a retweet when it
    refers to one it retweets; [retweetedFrom] is set for the retweets and
    for no other post, to the first tweet retweeted. A tweet without
    entities or references gives empty lists and flags that are false. *)
Theorem stored_post_derived_fields
    (s : ISubscription.t) (u : UserV2.t) (t : TweetData.t) :
  let p := TwitterService.newPost s u t in
  IPost.mediaUrls p = List.filter mediaLink (map UrlEntity.expanded_url (linksOf t)) /\
  (forall url,
     mediaLink url = true <->
     occursIn "pic.twitter.com" url \/ occursIn "video.twitter.com" url) /\
  (IPost.isReply p = true <->
   exists id, In (ReferencedTweet.mk "replied_to" id) (referencesOf t)) /\
  (IPost.isRetweet p = true <->
   exists id, In (ReferencedTweet.mk "retweeted" id) (referencesOf t)) /\
  (IPost.isRetweet p = true <-> exists id, IPost.retweetedFrom p = Some id) /\
  (forall id,
     IPost.retweetedFrom p = Some id ->
     exists before after,
       referencesOf t = before ++ ReferencedTweet.mk "retweeted" id :: after /\
       Forall (fun ref => ReferencedTweet.type ref <> "retweeted") before).
Proof.
  intros p. unfold p, TwitterService.newPost, Post.create. cbn [IPost.mediaUrls
    IPost.isReply IPost.isRetweet IPost.retweetedFrom].
  unfold TwitterService.extractMediaUrls, TwitterService.hasReference, linksOf,
    referencesOf.
  split; [|split; [|split; [|split; [|split]]]].
  - assert (Hgen : forall urls,
      map UrlEntity.expanded_url
        (List.filter (fun url =>
           Js.includes (UrlEntity.expanded_url url) "pic.twitter.com"
           || Js.includes (UrlEntity.expanded_url url) "video.twitter.com") urls)
      = List.filter mediaLink (map UrlEntity.expanded_url urls)).
    { induction urls as [|e urls IH]; [done|]. cbn [List.filter map].
      fold (mediaLink (UrlEntity.expanded_url e)).
      destruct (mediaLink (UrlEntity.expanded_url e)); cbn [map]; by rewrite IH. }
    destruct (TweetData.entities t) as [[[urls|] ? ?]|]; simpl; [apply Hgen|done|done].
  - intros url. unfold mediaLink. by rewrite orb_true_iff, !includes_spec.
  - destruct (TweetData.referenced_tweets t) as [refs|]; simpl;
      [apply existsb_reference|]. split; [done|by intros [? []]].
  - destruct (TweetData.referenced_tweets t) as [refs|]; simpl;
      [apply existsb_reference|]. split; [done|by intros [? []]].
  - destruct (TweetData.referenced_tweets t) as [refs|]; simpl;
      [|split; [done|by intros [? ?]]].
    destruct (existsb _ refs) eqn:Hex.
    + split; [intros _|done]. apply existsb_exists in Hex as (ref & Hin & He).
      destruct (find _ refs) as [r|] eqn:Hfind; [by eexists|].
      eapply find_none in Hfind; [|exact Hin]. simpl in *. congruence.
    + split; [done|by intros [? ?]].
  - intros id. destruct (TweetData.referenced_tweets t) as [refs|]; simpl; [|done].
    destruct (existsb _ refs); [|done].
    destruct (find _ refs) as [r|] eqn:Hfind; [|done]. intros [= <-].
    clear -Hfind. induction refs as [|x refs IH]; simpl in *; [done|].
    destruct (String.eqb_spec (ReferencedTweet.type x) "retweeted") as [E|E].
    + injection Hfind as ->. exists [], refs. split; [|constructor].
      destruct r as [ty i]. simpl in E. by subst.
    + destruct (IH Hfind) as (before & after & -> & Hall).
      exists (x :: before), after. split; [done|]. by constructor.
Qed.

(** ** The scheduled job *)

Lemma onlyCheckpoints_ids P l l' :
  onlyCheckpoints P l l' -> map ISubscription._id l' = map ISubscription._id l.
Proof.
  induction 1 as [|s s' l l' R _ IH]; [done|]. simpl. rewrite IH.
  by destruct R as [->|(_ & d & ->)].
Qed.

Lemma onlyCheckpoints_weaken (P Q : ISubscription.t -> Prop) l l' :
  (forall s, P s -> Q s) -> onlyCheckpoints P l l' -> onlyCheckpoints Q l l'.
Proof.
  intros H Hl. eapply Forall2_impl; [exact Hl|].
  intros s s' [->|(Hs & d & ->)]; [by left|]. right. eauto.
Qed.

Lemma onlyCheckpoints_trans (P : ISubscription.t -> Prop) l1 l2 l3 :
  (forall d s, P (ISubscription.setLastChecked d s) -> P s) ->
  onlyCheckpoints P l1 l2 -> onlyCheckpoints P l2 l3 -> onlyCheckpoints P l1 l3.
Proof.
  intros HP H. revert l3. induction H as [|s s' l l' R _ IH]; intros l3 H3;
    inversion H3 as [|? s'' ? l'' R' Hrest]; subst; constructor; [|by apply IH].
  destruct R as [->|(Hs & d & ->)]; [done|].
  destruct R' as [->|(Hs' & d' & ->)]; right; eauto.
Qed.

Lemma processEach_users build api sched l : forall acc w res w',
  TwitterService.processEach build api sched l acc w = (res, w') -> users w' = users w.
Proof.
  induction l as [|s rest IH]; intros acc w res w' H; [by injection H as <- <-|].
  rewrite processEach_cons, processOne_eq in H.
  destruct (due s (clock w)); [|by eapply IH].
  destruct (TwitterService.processSubscriptionTweets _ _ _ _ _) as [[n|e] w1] eqn:Hrun;
    apply process_subscriptions in Hrun as [Hu _]; apply IH in H; simpl in H; congruence.
Qed.

Lemma createForUser_users api userId w w1 :
  users w1 = users w ->
  fst (TwitterService.createForUser api userId w1)
  = fst (TwitterService.createForUser api userId w).
Proof.
  intros Hu. unfold TwitterService.createForUser, User.findById, bind.
  rewrite Hu. destruct (find _ (users w)) as [u|]; [|done].
  destruct (IUser.twitterCredentials u) as [c|]; [|done]. by destruct (_ && _).
Qed.

Section Job.

Variable build : Build.
Variable clientOf : ObjectId -> TwitterApi.
Variable sched : Scheduler.
Variable showId : ObjectId -> string.

(** A turn of the loop, case by case: without a client it only waits;
    with a client and a rejected query it ends in the [catch] of the loop,
    before the wait; otherwise the batch completes and its summary is added
    to the totals. *)
Lemma forUser_cases acc u w :
  match fst (TwitterService.createForUser (clientOf u) u w) with
  | Ok (Some service) =>
      match subscriptionsQuery sched u with
      | Some error =>
          Cron.forUser build clientOf sched showId acc u w =
          (Ok (Cron.Totals.mk (Cron.Totals.totalProcessed acc)
                 (Cron.Totals.totalNewTweets acc)
                 (Cron.Totals.errors acc
                  ++ ["User " +:+ showId u +:+ ": " +:+ errMessage error])), w)
      | None =>
          exists sum w1,
            TwitterService.processAllUserSubscriptions build service sched u w
            = (Ok sum, w1) /\
            Cron.forUser build clientOf sched showId acc u w =
            (Ok (Cron.Totals.mk
                   (Cron.Totals.totalProcessed acc + Summary.processed sum)
                   (Cron.Totals.totalNewTweets acc + Summary.newTweets sum)
                   (Cron.Totals.errors acc ++ Summary.errors sum)),
             withClock (clock w1 + 2000) w1)
      end
  | _ =>
      Cron.forUser build clientOf sched showId acc u w
      = (Ok acc, withClock (clock w + 2000) w)
  end.
Proof.
  pose proof (processAllUserSubscriptions_eq build (clientOf u) sched u w) as Hall.
  unfold Cron.forUser, tryCatch, bind.
  destruct (createForUser_cases (clientOf u) u w) as [-> | ->]; cbn [fst]; [|done].
  destruct (subscriptionsQuery sched u) as [error|]; [by rewrite Hall|].
  destruct (processEach_total build (clientOf u) sched
              (List.filter (fun s => Nat.eqb (ISubscription.userId s) u
                                     && ISubscription.isActive s) (subscriptions w))
              (Summary.mk 0 0 []) w) as (sum & w1 & Hrun).
  rewrite Hrun in Hall. exists sum, w1. by rewrite Hall.
Qed.

(** The state a turn of the loop leaves is that of the turn for the user,
    and the errors recorded before stay. *)
Lemma forUser_eq acc u w :
  exists acc',
    Cron.forUser build clientOf sched showId acc u w =
    (Ok acc', Server.step (Server.ScheduledUser build (clientOf u) sched u) w) /\
    (exists later, Cron.Totals.errors acc' = Cron.Totals.errors acc ++ later) /\
    (forall error,
       fst (TwitterService.createForUser (clientOf u) u w) = Ok (Some (clientOf u)) ->
       subscriptionsQuery sched u = Some error ->
       In ("User " +:+ showId u +:+ ": " +:+ errMessage error) (Cron.Totals.errors acc')).
Proof.
  pose proof (forUser_cases acc u w) as H. cbn [Server.step].
  rewrite scheduledUser_state.
  destruct (createForUser_cases (clientOf u) u w) as [E | E]; rewrite E in *; cbn [fst] in *.
  - destruct (subscriptionsQuery sched u) as [error|] eqn:Hq.
    + eexists. split; [exact H|]. split; [by eexists|].
      intros error' _ [= <-]. simpl. apply in_or_app. right. by left.
    + destruct H as (sum & w1 & Hall & H). rewrite processAllUserSubscriptions_eq, Hq in Hall.
      rewrite Hall. eexists. split; [exact H|]. split; [by eexists|]. by intros error' _ [=].
  - exists acc. split; [exact H|]. split; [exists []; by rewrite app_nil_r|].
    by intros error' [=].
Qed.

Lemma turn_onlyCheckpoints u w :
  List.NoDup (map ISubscription._id (subscriptions w)) ->
  let w' := Server.step (Server.ScheduledUser build (clientOf u) sched u) w in
  onlyCheckpoints
    (fun s => ISubscription.userId s = u /\ ISubscription.isActive s = true)
    (subscriptions w) (subscriptions w') /\
  users w' = users w.
Proof.
  intros Hnd w'. subst w'. cbn [Server.step]. rewrite scheduledUser_state.
  destruct (createForUser_cases (clientOf u) u w) as [-> | ->]; cbn [fst];
    [|split; [apply onlyCheckpoints_refl|done]].
  destruct (subscriptionsQuery sched u) as [error|];
    [split; [apply onlyCheckpoints_refl|done]|].
  destruct (TwitterService.processEach _ _ _ _ _ _) as [r w1] eqn:Hrun.
  cbn [snd]. cbv zeta.
  apply (processEach_onlyCheckpoints build (clientOf u) sched
           (fun s => ISubscription.userId s = u /\ ISubscription.isActive s = true)
           (subscriptions w) Hnd) in Hrun as [H Hu].
  - by split.
  - apply Forall_forall. intros s Hs. apply list_elem_of_In, filter_In in Hs as [Hin Hs].
    apply andb_true_iff in Hs as [Hs1 Hs2]. apply Nat.eqb_eq in Hs1. done.
  - apply onlyCheckpoints_refl.
Qed.

Lemma afterTurns_cons u us w :
  afterTurns build clientOf sched (u :: us) w
  = afterTurns build clientOf sched us
      (Server.step (Server.ScheduledUser build (clientOf u) sched u) w).
Proof. reflexivity. Qed.

Lemma afterTurns_onlyCheckpoints us : forall all w,
  List.NoDup (map ISubscription._id (subscriptions w)) ->
  (forall u, In u us -> In u all) ->
  let w' := afterTurns build clientOf sched us w in
  onlyCheckpoints
    (fun s => ISubscription.isActive s = true /\ In (ISubscription.userId s) all)
    (subscriptions w) (subscriptions w') /\
  users w' = users w.
Proof.
  induction us as [|u us IH]; intros all w Hnd Hall.
  - simpl. split; [apply onlyCheckpoints_refl|done].
  - destruct (turn_onlyCheckpoints u w Hnd) as (H1 & Hu1).
    set (w1 := Server.step (Server.ScheduledUser build (clientOf u) sched u) w) in *.
    destruct (IH all w1) as (H2 & Hu2).
    { by rewrite (onlyCheckpoints_ids _ _ _ H1). }
    { intros v Hv. apply Hall. by right. }
    rewrite afterTurns_cons. fold w1.
    split; [|congruence].
    eapply onlyCheckpoints_trans; [by intros d s|..|exact H2].
    eapply onlyCheckpoints_weaken; [|exact H1]. intros s [<- Ha]. split; [done|].
    apply Hall. by left.
Qed.

Lemma afterTurns_reachable us : forall w,
  Server.reachable w -> Server.reachable (afterTurns build clientOf sched us w).
Proof.
  induction us as [|u us IH]; intros w Hw; [done|].
  rewrite afterTurns_cons. apply IH. by apply Server.reachable_step.
Qed.

(** The loop over the users: its state, and the entry of every user
    whose query was rejected. *)
Lemma forEach_eq us : forall acc w,
  List.NoDup (map ISubscription._id (subscriptions w)) ->
  exists acc',
    Cron.forEach build clientOf sched showId us acc w =
    (Ok acc', afterTurns build clientOf sched us w) /\
    (exists later, Cron.Totals.errors acc' = Cron.Totals.errors acc ++ later) /\
    (forall u error,
       In u us ->
       fst (TwitterService.createForUser (clientOf u) u w) = Ok (Some (clientOf u)) ->
       subscriptionsQuery sched u = Some error ->
       In ("User " +:+ showId u +:+ ": " +:+ errMessage error) (Cron.Totals.errors acc')).
Proof.
  induction us as [|u us IH]; intros acc w Hnd.
  - exists acc. split; [done|]. split; [exists []; by rewrite app_nil_r|]. by intros ? ? [].
  - destruct (forUser_eq acc u w) as (acc1 & Hrun1 & (later1 & Hl1) & Hin1).
    destruct (turn_onlyCheckpoints u w Hnd) as (H1 & Hu1).
    set (w1 := Server.step (Server.ScheduledUser build (clientOf u) sched u) w) in *.
    destruct (IH acc1 w1) as (acc' & Hrun & (later & Hl) & Hin).
    { by rewrite (onlyCheckpoints_ids _ _ _ H1). }
    exists acc'. rewrite afterTurns_cons. fold w1. split; [|split].
    + simpl. unfold bind at 1. by rewrite Hrun1.
    + exists (later1 ++ later). by rewrite Hl, Hl1, <- app_assoc.
    + intros v error [<-|Hv] Hc Hq.
      * rewrite Hl. apply in_or_app. left. by apply Hin1.
      * apply Hin; [done| |done]. by rewrite (createForUser_users _ _ w w1 Hu1).
Qed.

Lemma job_eq w :
  Cron.job build clientOf sched showId w =
  match usersQuery sched with
  | Some _ => (Ok None, w)
  | None =>
      match Cron.forEach build clientOf sched showId (visited w)
              (Cron.Totals.mk 0 0 []) w with
      | (Ok totals, w') => (Ok (Some totals), w')
      | (Throw _, w') => (Ok None, w')
      end
  end.
Proof.
  unfold Cron.job, tryCatch, bind, Cron.activeUsers.
  destruct (usersQuery sched) as [error|]; [done|]. fold (visited w).
  by destruct (Cron.forEach _ _ _ _ _ _ _) as [[totals|e] w'].
Qed.

End Job.

(** X14. The scheduled job ends in its outer [catch] exactly when the
    database rejects the query for the users, and then nothing changes. A
    turn of its loop ends in the [catch] of the loop exactly when the user
    has a client and the query for the subscriptions is rejected: the entry
    [User id: message] is recorded and the two seconds are not waited;
    otherwise the batch of the user completes, its summary is added to the
    totals, and the turn waits. When the query for the users is answered the
    job leaves the state of the turns for the users it visits, the active
    users with credentials, which the server reaches; it records the entry
    of every visited user whose query was rejected, and it writes nothing but
    checkpoints of active subscriptions of the visited users: the
    subscriptions of a user who is inactive or has no credentials stay as
    they are, and so do the users. *)
Theorem scheduled_job_visits_the_active_users
    (build : Build) (clientOf : ObjectId -> TwitterApi) (sched : Scheduler)
    (showId : ObjectId -> string) (w : World) :
  Server.reachable w ->
  match usersQuery sched with
  | Some error => Cron.job build clientOf sched showId w = (Ok None, w)
  | None =>
      exists totals w',
        Cron.job build clientOf sched showId w = (Ok (Some totals), w') /\
        w' = afterTurns build clientOf sched (visited w) w /\
        Server.reachable w' /\
        users w' = users w /\
        Forall2 (fun s s' =>
          s' = s \/
          (ISubscription.isActive s = true /\ In (ISubscription.userId s) (visited w) /\
           exists d, s' = ISubscription.setLastChecked d s))
          (subscriptions w) (subscriptions w') /\
        (forall u error,
           In u (visited w) ->
           fst (TwitterService.createForUser (clientOf u) u w) = Ok (Some (clientOf u)) ->
           subscriptionsQuery sched u = Some error ->
           In ("User " +:+ showId u +:+ ": " +:+ errMessage error)
             (Cron.Totals.errors totals))
  end /\
  (forall acc u w0,
     match fst (TwitterService.createForUser (clientOf u) u w0) with
     | Ok (Some service) =>
         match subscriptionsQuery sched u with
         | Some error =>
             Cron.forUser build clientOf sched showId acc u w0 =
             (Ok (Cron.Totals.mk (Cron.Totals.totalProcessed acc)
                    (Cron.Totals.totalNewTweets acc)
                    (Cron.Totals.errors acc
                     ++ ["User " +:+ showId u +:+ ": " +:+ errMessage error])), w0)
         | None =>
             exists sum w1,
               TwitterService.processAllUserSubscriptions build service sched u w0
               = (Ok sum, w1) /\
               Cron.forUser build clientOf sched showId acc u w0 =
               (Ok (Cron.Totals.mk
                      (Cron.Totals.totalProcessed acc + Summary.processed sum)
                      (Cron.Totals.totalNewTweets acc + Summary.newTweets sum)
                      (Cron.Totals.errors acc ++ Summary.errors sum)),
                withClock (clock w1 + 2000) w1)
         end
     | _ =>
         Cron.forUser build clientOf sched showId acc u w0
         = (Ok acc, withClock (clock w0 + 2000) w0)
     end).
Proof.
  intros Hreach. split; [|intros acc u w0; apply forUser_cases].
  pose proof (inv_ids _ (reachable_Invariant _ Hreach)) as Hnd.
  rewrite job_eq. destruct (usersQuery sched) as [error|]; [done|].
  destruct (forEach_eq build clientOf sched showId (visited w) (Cron.Totals.mk 0 0 []) w Hnd)
    as (totals & Hrun & _ & Hin).
  exists totals, (afterTurns build clientOf sched (visited w) w).
  split; [by rewrite Hrun|].
  split; [done|]. split; [by apply afterTurns_reachable|].
  destruct (afterTurns_onlyCheckpoints build clientOf sched (visited w) (visited w) w)
    as (H & Hu); [done|done|].
  split; [done|]. split; [|exact Hin].
  eapply Forall2_impl; [exact H|]. intros s s' [->|((Ha & Hi) & d & ->)]; eauto.
Qed.

Lemma worldTwoUsers_reachable : Server.reachable worldTwoUsers.
Proof.
  apply Server.reachable_step, Server.reachable_step, Server.reachable_step,
    Server.reachable_start.
Qed.

(** Two users with a due subscription each; the query for the
    subscriptions of the second is rejected: the first is reconciled, the
    second is recorded by its entry. *)
Lemma scheduled_job_visits_the_active_users_witness :
  Cron.job tsBuild (fun _ => apiFlaky) outage idText worldTwoUsers =
  (Ok (Some (Cron.Totals.mk 1 1 ["User 8: connection lost"])),
   afterTurns tsBuild (fun _ => apiFlaky) outage [7%nat; 8%nat] worldTwoUsers).
Proof.
  destruct (scheduled_job_visits_the_active_users tsBuild (fun _ => apiFlaky) outage
              idText worldTwoUsers worldTwoUsers_reachable)
    as [(totals & w' & Hrun & -> & _ & _ & _ & Hin) _].
  rewrite Hrun. f_equal. f_equal.
  assert (Hc : fst (Cron.job tsBuild (fun _ => apiFlaky) outage idText worldTwoUsers)
               = Ok (Some (Cron.Totals.mk 1 1 ["User 8: connection lost"])))
    by reflexivity.
  rewrite Hrun in Hc. by injection Hc as ->.
Defined.

(** ** Cleaning the text of a tweet *)

Lemma urlStartsAt_spec l :
  Text.urlStartsAt l = true <->
  exists x rest,
    Js.is_space x = false /\
    (l = Js.chars "http://" ++ x :: rest \/ l = Js.chars "https://" ++ x :: rest).
Proof.
  unfold Text.urlStartsAt. split.
  - destruct (Js.startsWith l (Js.chars "https://")) eqn:E1.
    + apply startsWith_spec in E1 as [b ->]. simpl.
      destruct b as [|x rest]; [done|]. intros H. apply negb_true_iff in H. eauto.
    + destruct (Js.startsWith l (Js.chars "http://")) eqn:E2; [|done].
      apply startsWith_spec in E2 as [b ->]. simpl.
      destruct b as [|x rest]; [done|]. intros H. apply negb_true_iff in H. eauto.
  - intros (x & rest & Hx & [-> | ->]); simpl; by rewrite Hx.
Qed.

Lemma urlStartsAt_space c l : Js.is_space c = true -> Text.urlStartsAt (c :: l) = false.
Proof.
  intros Hc. apply not_true_is_false. intros H.
  apply urlStartsAt_spec in H as (x & rest & _ & [H|H]); injection H as -> _; done.
Qed.

(** A link that begins in a text begins in every text with the same
    first word. *)
Lemma urlStartsAt_prefix out l :
  (forall p rest, Forall (fun c => Js.is_space c = false) p -> out = p ++ rest ->
     exists rest', l = p ++ rest') ->
  Text.urlStartsAt out = true -> Text.urlStartsAt l = true.
Proof.
  intros Hpre H. apply urlStartsAt_spec in H as (x & rest & Hx & [-> | ->]).
  - destruct (Hpre (Js.chars "http://" ++ [x]) rest) as [rest' ->].
    + simpl. repeat constructor. exact Hx.
    + by rewrite <- app_assoc.
    + apply urlStartsAt_spec. exists x, rest'. split; [done|]. left.
      by rewrite <- app_assoc.
  - destruct (Hpre (Js.chars "https://" ++ [x]) rest) as [rest' ->].
    + simpl. repeat constructor. exact Hx.
    + by rewrite <- app_assoc.
    + apply urlStartsAt_spec. exists x, rest'. split; [done|]. right.
      by rewrite <- app_assoc.
Qed.

Lemma urlStartsAt_app l rest :
  Text.urlStartsAt l = true -> Text.urlStartsAt (l ++ rest) = true.
Proof.
  apply urlStartsAt_prefix. intros p r _ ->. exists (r ++ rest). by rewrite app_assoc.
Qed.

Lemma noUrl_tail c l : noUrl (c :: l) -> noUrl l.
Proof. intros H a b ->. by apply (H (c :: a) b). Qed.

Lemma noUrl_cons c l : Text.urlStartsAt (c :: l) = false -> noUrl l -> noUrl (c :: l).
Proof.
  intros Hc Hl a b H. destruct a as [|c' a]; simpl in H; [by subst|].
  injection H as -> ->. by apply (Hl a b).
Qed.

Lemma noUrl_suffix pre l : noUrl (pre ++ l) -> noUrl l.
Proof. intros H a b ->. apply (H (pre ++ a) b). by rewrite app_assoc. Qed.

Lemma noUrl_prefix l rest : noUrl (l ++ rest) -> noUrl l.
Proof.
  intros H a b ->. apply not_true_is_false. intros Hb.
  apply (urlStartsAt_app b rest) in Hb. rewrite (H a (b ++ rest)) in Hb; [done|].
  by rewrite app_assoc.
Qed.

(** What is left of a link is followed by white space. *)
Lemma removeUrls_inUrl l :
  match Text.removeUrls true l with
  | [] => True
  | c :: _ => Js.is_space c = true
  end.
Proof.
  induction l as [|c l IH]; simpl; [done|]. by destruct (Js.is_space c) eqn:E.
Qed.

Lemma removeUrls_prefix p : forall l rest,
  Forall (fun c => Js.is_space c = false) p ->
  Text.removeUrls false l = p ++ rest ->
  exists rest', l = p ++ rest'.
Proof.
  induction p as [|x p IH]; intros l rest Hp H; [by exists l|].
  inversion Hp as [|? ? Hx Hp']; subst.
  destruct l as [|c l]; [done|]. simpl in H.
  destruct (Js.is_space c) eqn:Hc.
  - injection H as -> _. congruence.
  - destruct (Text.urlStartsAt (c :: l)).
    + pose proof (removeUrls_inUrl l) as Hin. rewrite H in Hin. simpl in Hin. congruence.
    + injection H as -> H. destruct (IH _ _ Hp' H) as [rest' ->]. by exists rest'.
Qed.

Lemma removeUrls_noUrl l : forall inUrl, noUrl (Text.removeUrls inUrl l).
Proof.
  induction l as [|c l IH]; intros inUrl; simpl.
  - intros a b H. symmetry in H. by apply app_eq_nil in H as [_ ->].
  - destruct (Js.is_space c) eqn:Hc.
    + apply noUrl_cons; [by apply urlStartsAt_space|apply IH].
    + destruct (inUrl || Text.urlStartsAt (c :: l)) eqn:E; [apply IH|].
      apply orb_false_iff in E as [_ E].
      apply noUrl_cons; [|apply IH]. apply not_true_is_false. intros H.
      assert (Text.urlStartsAt (c :: l) = true); [|congruence].
      apply (urlStartsAt_prefix (c :: Text.removeUrls false l)); [|exact H].
      intros p rest Hp Hout. destruct p as [|x p]; [by eexists|].
      injection Hout as -> Hout. inversion Hp; subst.
      destruct (removeUrls_prefix p l rest) as [rest' ->]; [done|done|]. by exists rest'.
Qed.

Lemma removeUrls_fixed l : noUrl l -> Text.removeUrls false l = l.
Proof.
  induction l as [|c l IH]; intros H; simpl; [done|].
  rewrite (IH (noUrl_tail _ _ H)), (H [] (c :: l)) by done.
  by destruct (Js.is_space c).
Qed.

Lemma collapseSpaces_prefix p : forall l rest,
  Forall (fun c => Js.is_space c = false) p ->
  Text.collapseSpaces false l = p ++ rest ->
  exists rest', l = p ++ rest'.
Proof.
  induction p as [|x p IH]; intros l rest Hp H; [by exists l|].
  inversion Hp as [|? ? Hx Hp']; subst.
  destruct l as [|c l]; [done|]. simpl in H.
  destruct (Js.is_space c) eqn:Hc.
  - injection H as <- _. done.
  - injection H as -> H. destruct (IH _ _ Hp' H) as [rest' ->]. by exists rest'.
Qed.

Lemma collapseSpaces_noUrl l : forall inSpace,
  noUrl l -> noUrl (Text.collapseSpaces inSpace l).
Proof.
  induction l as [|c l IH]; intros inSpace H; simpl; [done|].
  pose proof (noUrl_tail _ _ H) as Hl.
  destruct (Js.is_space c) eqn:Hc.
  - destruct inSpace; [by apply IH|].
    apply noUrl_cons; [by apply urlStartsAt_space|by apply IH].
  - apply noUrl_cons; [|by apply IH]. apply not_true_is_false. intros Hu.
    assert (Text.urlStartsAt (c :: l) = true) as Hin;
      [|by rewrite (H [] (c :: l) eq_refl) in Hin].
    apply (urlStartsAt_prefix (c :: Text.collapseSpaces false l)); [|exact Hu].
    intros p rest Hp Hout. destruct p as [|x p]; [by eexists|].
    injection Hout as -> Hout. inversion Hp; subst.
    destruct (collapseSpaces_prefix p l rest) as [rest' ->]; [done|done|]. by exists rest'.
Qed.

Lemma collapseSpaces_single l : forall inSpace,
  singleSpaces inSpace (Text.collapseSpaces inSpace l).
Proof.
  induction l as [|c l IH]; intros inSpace; simpl; [done|].
  destruct (Js.is_space c) eqn:Hc.
  - destruct inSpace; [apply IH|]. simpl. split; [done|]. split; [done|apply IH].
  - simpl. rewrite Hc. apply IH.
Qed.

Lemma collapseSpaces_fixed l : forall inSpace,
  singleSpaces inSpace l -> Text.collapseSpaces inSpace l = l.
Proof.
  induction l as [|c l IH]; intros inSpace H; simpl in *; [done|].
  destruct (Js.is_space c).
  - destruct H as (-> & -> & H). by rewrite IH.
  - by rewrite IH.
Qed.

Lemma singleSpaces_any l inSpace :
  headIsNoSpace l -> singleSpaces inSpace l -> singleSpaces false l.
Proof. destruct l as [|c l]; simpl; [done|]. by intros ->. Qed.

Lemma singleSpaces_trimStart l : singleSpaces false l -> singleSpaces false (Js.trimStart l).
Proof.
  destruct l as [|c l]; simpl; [done|].
  destruct (Js.is_space c) eqn:Hc; [|simpl; by rewrite Hc].
  intros (_ & _ & H). destruct l as [|c' l]; simpl in *; [done|].
  destruct (Js.is_space c') eqn:Hc'; [by destruct H|]. simpl. by rewrite Hc'.
Qed.

Lemma singleSpaces_prefix l rest : forall inSpace,
  singleSpaces inSpace (l ++ rest) -> singleSpaces inSpace l.
Proof.
  induction l as [|c l IH]; intros inSpace H; simpl in *; [done|].
  destruct (Js.is_space c); [|by apply IH].
  destruct H as (? & ? & H). split; [done|]. split; [done|by apply IH].
Qed.

Lemma trimEnd_last l : headIsNoSpace (rev (trimEnd l)).
Proof. unfold trimEnd. rewrite rev_involutive. apply trimStart_head. Qed.

Lemma trimEnd_fixed l : headIsNoSpace (rev l) -> trimEnd l = l.
Proof. intros H. unfold trimEnd. by rewrite (trimStart_fixed _ H), rev_involutive. Qed.

Lemma trim_chars t : Js.chars (Js.trim t) = trimEnd (Js.trimStart (Js.chars t)).
Proof. unfold Js.trim. apply chars_str. Qed.

Lemma str_chars t : Js.str (Js.chars t) = t.
Proof. apply string_of_list_ascii_of_string. Qed.

Lemma tidy_trim l : singleSpaces false l -> tidy (trimEnd (Js.trimStart l)).
Proof.
  intros H. split; [apply trimEnd_head, trimStart_head|]. split; [apply trimEnd_last|].
  destruct (trimEnd_prefix (Js.trimStart l)) as [rest Hrest].
  apply (singleSpaces_prefix _ rest). rewrite <- Hrest. by apply singleSpaces_trimStart.
Qed.

Lemma noUrl_trim l : noUrl l -> noUrl (trimEnd (Js.trimStart l)).
Proof.
  intros H. destruct (trimStart_suffix l) as [pre Hpre].
  destruct (trimEnd_prefix (Js.trimStart l)) as [rest Hrest].
  apply (noUrl_prefix _ rest). rewrite <- Hrest. apply (noUrl_suffix pre). by rewrite <- Hpre.
Qed.

(** A tidy text without links is left as it is. *)
Lemma cleanTweetText_fixed t :
  tidy (Js.chars t) -> noUrl (Js.chars t) -> Text.cleanTweetText t = t.
Proof.
  intros (Hhead & Hlast & Hsingle) Hno. unfold Text.cleanTweetText, Js.trim.
  rewrite (removeUrls_fixed _ Hno), (collapseSpaces_fixed _ _ Hsingle), chars_str.
  fold (trimEnd (Js.trimStart (Js.chars t))).
  rewrite (trimStart_fixed _ Hhead), (trimEnd_fixed _ Hlast). apply str_chars.
Qed.

(** X15. [cleanTweetText] returns a tidy text in which no link begins: it
    neither begins nor ends with white space, and all the white space in it
    is single blanks. It leaves such a text as it is, so cleaning a cleaned
    text changes nothing. *)
Theorem cleanTweetText_tidies (text : string) :
  tidy (Js.chars (Text.cleanTweetText text)) /\
  noUrl (Js.chars (Text.cleanTweetText text)) /\
  Text.cleanTweetText (Text.cleanTweetText text) = Text.cleanTweetText text /\
  (forall t, tidy (Js.chars t) -> noUrl (Js.chars t) -> Text.cleanTweetText t = t).
Proof.
  assert (Htidy : tidy (Js.chars (Text.cleanTweetText text))).
  { unfold Text.cleanTweetText. rewrite trim_chars, chars_str.
    apply tidy_trim, collapseSpaces_single. }
  assert (Hno : noUrl (Js.chars (Text.cleanTweetText text))).
  { unfold Text.cleanTweetText. rewrite trim_chars, chars_str.
    apply noUrl_trim, collapseSpaces_noUrl, removeUrls_noUrl. }
  split; [done|]. split; [done|]. split; [by apply cleanTweetText_fixed|].
  apply cleanTweetText_fixed.
Qed.

(** A link is cut from its scheme to the next white space; a scheme
    that nothing follows, or one in capitals, is no link. *)
Lemma cleanTweetText_example :
  Text.cleanTweetText "  Launch   day: https://t.co/abc?x=1 now http:// HTTP://x.y "
  = "Launch day: now http:// HTTP://x.y".
Proof. reflexivity. Qed.

(** ** What the events keep *)

Lemma process_identity build api sched s w res w' :
  TwitterService.processSubscriptionTweets build api sched s w = (res, w') ->
  map identityOf (subscriptions w') = map identityOf (subscriptions w).
Proof.
  intros H. apply process_subscriptions in H as [_ [->| ->]]; [done|].
  by apply updateFirst_map.
Qed.

(** The rows a batch adds: rows of other tasks, and documents built for
    subscriptions of its snapshot. *)
Lemma processEach_keeps build api sched l : forall acc w res w',
  TwitterService.processEach build api sched l acc w = (res, w') ->
  map identityOf (subscriptions w') = map identityOf (subscriptions w) /\
  clock w <= clock w' /\
  exists extra,
    posts w' = posts w ++ extra /\
    Forall (fun p => foreign sched p \/
                     exists s u t, In s l /\ p = TwitterService.newPost s u t) extra.
Proof.
  induction l as [|s rest IH]; intros acc w res w' H.
  - injection H as <- <-. split; [done|]. split; [lia|]. exists []. by rewrite app_nil_r.
  - rewrite processEach_cons, processOne_eq in H.
    assert (Hrest : forall p,
      foreign sched p \/ (exists s0 u t, In s0 rest /\ p = TwitterService.newPost s0 u t) ->
      foreign sched p \/
      (exists s0 u t, In s0 (s :: rest) /\ p = TwitterService.newPost s0 u t)).
    { intros p [Hp|(s0 & u & t & Hin & ->)]; [by left|]. right. exists s0, u, t.
      split; [by right|done]. }
    destruct (due s (clock w)).
    + destruct (TwitterService.processSubscriptionTweets _ _ _ _ _) as [r w1] eqn:Hrun.
      pose proof (process_identity _ _ _ _ _ _ _ Hrun) as Hid.
      pose proof (process_clock _ _ _ _ _ _ _ Hrun) as Hc.
      pose proof (process_posts _ _ _ _ _ _ _ Hrun) as [(extra1 & Hp1 & Hall1) _].
      assert (exists acc1 w2,
        TwitterService.processEach build api sched rest acc1 w2 = (res, w') /\
        map identityOf (subscriptions w2) = map identityOf (subscriptions w1) /\
        posts w2 = posts w1 /\ clock w1 <= clock w2) as (acc1 & w2 & H2 & Hid2 & Hp2 & Hc2).
      { destruct r as [n|e]; eexists _, _; (split; [exact H|]); simpl;
          (split; [done|split; [done|lia]]). }
      apply IH in H2 as (Hid3 & Hc3 & extra2 & Hp3 & Hall3).
      split; [congruence|]. split; [lia|].
      exists (extra1 ++ extra2). rewrite Hp3, Hp2, Hp1, <- app_assoc. split; [done|].
      apply Forall_app. split.
      * eapply Forall_impl; [exact Hall1|]. intros p [Hp|(u & t & ->)]; [by left|].
        right. exists s, u, t. split; [by left|done].
      * eapply Forall_impl; [exact Hall3|]. exact Hrest.
    + apply IH in H as (Hid & Hc & extra & Hp & Hall). split; [done|]. split; [done|].
      exists extra. split; [done|]. eapply Forall_impl; [exact Hall|]. exact Hrest.
Qed.

(** The state a refresh request leaves. *)
Lemma refreshSubscription_state build api sched id userId w :
  snd (Server.refreshSubscription build api sched id userId w) =
  match id with
  | None => w
  | Some subscriptionId =>
      match find (owned subscriptionId userId) (subscriptions w) with
      | None => w
      | Some s =>
          match fst (TwitterService.createForUser api userId w) with
          | Ok (Some service) =>
              snd (TwitterService.processSubscriptionTweets build service sched s w)
          | _ => w
          end
      end
  end.
Proof.
  destruct id as [id|]; [|done].
  unfold Server.refreshSubscription, Server.respond, bind, Subscription.findOwned.
  fold (owned id userId). destruct (find _ _) as [s|]; [|done].
  destruct (createForUser_cases api userId w) as [-> | ->]; [|done]. cbn [fst].
  by destruct (TwitterService.processSubscriptionTweets _ _ _ _ _) as [[n|e] w1].
Qed.

(** What an event keeps and what it adds. *)
Lemma step_keeps e w :
  Server.reachable w ->
  (exists added,
     map identityOf (subscriptions (Server.step e w))
     = map identityOf (subscriptions w) ++ added) /\
  clock w <= clock (Server.step e w) /\
  exists extra,
    posts (Server.step e w) = posts w ++ extra /\
    Forall (fun p => foreign (schedulerOf e) p \/
                     exists s u t, In s (subscriptions w) /\
                                   p = TwitterService.newPost s u t) extra.
Proof.
  intros Hreach. pose proof (inv_ids _ (reachable_Invariant _ Hreach)) as Hnd.
  assert (Hsame : forall w', map identityOf (subscriptions w')
                             = map identityOf (subscriptions w) ->
            posts w' = posts w -> clock w <= clock w' ->
    (exists added, map identityOf (subscriptions w')
                   = map identityOf (subscriptions w) ++ added) /\
    clock w <= clock w' /\
    exists extra,
      posts w' = posts w ++ extra /\
      Forall (fun p => foreign (schedulerOf e) p \/
                       exists s u t, In s (subscriptions w) /\
                                     p = TwitterService.newPost s u t) extra).
  { intros w' Hs Hp Hc. split; [exists []; by rewrite app_nil_r|]. split; [done|].
    exists []. by rewrite app_nil_r. }
  destruct e as [api u body|id u|build api sched id u|build api sched u|ms|us];
    cbn [Server.step].
  - rewrite createSubscription_eq.
    destruct (negb (Server.validCreate body)); [apply Hsame; simpl; done || lia|].
    destruct (negb (Server.hasCredentials _)); [apply Hsame; simpl; done || lia|].
    destruct (fst (TwitterService.createForUser api u w)) as [[service|]|e];
      [|apply Hsame; simpl; done || lia|apply Hsame; simpl; done || lia].
    cbv zeta. destruct (userByUsername service _) as [e|targetUser];
      [apply Hsame; simpl; done || lia|].
    destruct (find _ (subscriptions w)) as [ex|] eqn:Hfind.
    + destruct (ISubscription.isActive ex); [apply Hsame; simpl; done || lia|].
      destruct (Subscription.validateModified _); [apply Hsame; simpl; done || lia|].
      apply Hsame; simpl; [|done|lia].
      apply updateFirst_map. intros x Hx Hsel. apply Nat.eqb_eq in Hsel.
      apply find_some in Hfind as [Hin _].
      by rewrite (same_id _ ex x Hnd Hin Hx Hsel).
    + destruct (Subscription.saveNew _ _) as [[s|e] w2] eqn:Hs.
      * apply saveNew_Ok in Hs as (-> & _). simpl. split; [|split; [lia|]].
        -- exists [identityOf s]. by rewrite map_app.
        -- exists []. by rewrite app_nil_r.
      * apply saveNew_Throw in Hs as ->. apply Hsame; simpl; done || lia.
  - destruct id as [id|]; [|apply Hsame; simpl; done || lia].
    rewrite deleteSubscription_eq.
    destruct (find _ _) as [s|]; [|apply Hsame; simpl; done || lia].
    apply Hsame; simpl; [|done|lia]. by apply updateFirst_map.
  - rewrite refreshSubscription_state.
    destruct id as [id|]; [|apply Hsame; simpl; done || lia].
    destruct (find _ _) as [s|] eqn:Hfind; [|apply Hsame; simpl; done || lia].
    apply find_owned in Hfind as (Hin & _).
    destruct (createForUser_cases api u w) as [-> | ->]; cbn [fst];
      [|apply Hsame; simpl; done || lia].
    destruct (TwitterService.processSubscriptionTweets _ _ _ _ _) as [r w1] eqn:Hrun.
    pose proof (process_identity _ _ _ _ _ _ _ Hrun) as Hid.
    pose proof (process_clock _ _ _ _ _ _ _ Hrun) as Hc.
    pose proof (process_posts _ _ _ _ _ _ _ Hrun) as [(extra & Hp & Hall) _].
    cbn [snd]. split; [exists []; by rewrite app_nil_r|]. split; [done|].
    exists extra. split; [done|]. eapply Forall_impl; [exact Hall|].
    intros p [Hf|(u0 & t & ->)]; [by left|]. right. by exists s, u0, t.
  - rewrite scheduledUser_state.
    destruct (createForUser_cases api u w) as [-> | ->]; cbn [fst];
      [|apply Hsame; simpl; done || lia].
    destruct (subscriptionsQuery sched u) as [error|];
      [apply Hsame; simpl; done || lia|].
    destruct (TwitterService.processEach _ _ _ _ _ _) as [r w1] eqn:Hrun.
    apply processEach_keeps in Hrun as (Hid & Hc & extra & Hp & Hall).
    cbn [snd]. cbv zeta. split; [exists []; by rewrite app_nil_r|]. split; [simpl; lia|].
    exists extra. split; [done|]. eapply Forall_impl; [exact Hall|].
    intros p [Hf|(s & u0 & t & Hin & ->)]; [by left|]. right. exists s, u0, t.
    split; [|done]. by apply filter_In in Hin as [Hin _].
  - apply Hsame; simpl; [done|done|lia].
  - apply Hsame; simpl; [done|done|lia].
Qed.

(** X16. No event removes anything: the posts stay as they are and new ones
    are appended, every subscription stays in its place with its identifier,
    its user and its target, a new one is appended, and the clock does not go
    back. *)
Theorem events_remove_nothing (e : Server.Event) (w : World) :
  Server.reachable w ->
  (exists extra, posts (Server.step e w) = posts w ++ extra) /\
  (exists added,
     map identityOf (subscriptions (Server.step e w))
     = map identityOf (subscriptions w) ++ added) /\
  clock w <= clock (Server.step e w).
Proof.
  intros Hreach. destruct (step_keeps e w Hreach) as (Hs & Hc & extra & Hp & _).
  split; [by exists extra|]. by split.
Qed.

Lemma events_remove_nothing_witness :
  exists added,
    map identityOf (subscriptions worldDeleted) = [(1%nat, 7%nat, "acme")] ++ added.
Proof.
  destruct (events_remove_nothing (Server.DeleteSubscription (Some 1%nat) 7%nat)
              worldCreated) as (_ & H & _).
  - apply Server.reachable_step, Server.reachable_start.
  - exact H.
Defined.

Lemma reachableAlone_reachable w : reachableAlone w -> Server.reachable w.
Proof.
  induction 1; [apply Server.reachable_start|by apply Server.reachable_step].
Qed.

(** X17. When no task writes posts while another reconciles, every stored post
    belongs to a subscription that is in the collection, deleted or not, and
    to the user of that subscription. *)
Theorem posts_belong_to_subscriptions (w : World) :
  reachableAlone w -> Forall (belongs w) (posts w).
Proof.
  induction 1 as [us t|e w Halone IH Hseq]; [constructor|].
  pose proof (reachableAlone_reachable _ Halone) as Hreach.
  destruct (step_keeps e w Hreach) as ((added & Hs) & _ & extra & -> & Hall).
  assert (Hkept : forall s, In s (subscriptions w) ->
            exists s', In s' (subscriptions (Server.step e w)) /\
                       ISubscription._id s' = ISubscription._id s /\
                       ISubscription.userId s' = ISubscription.userId s).
  { intros s Hin. apply (in_map identityOf) in Hin.
    assert (In (identityOf s) (map identityOf (subscriptions (Server.step e w)))) as Hin'.
    { rewrite Hs. apply in_or_app. by left. }
    apply in_map_iff in Hin' as (s' & He & Hin'). exists s'. split; [done|].
    unfold identityOf in He. by injection He as -> -> _. }
  apply Forall_app. split.
  - eapply Forall_impl; [exact IH|]. intros p (s & Hin & Hid & Hu).
    destruct (Hkept s Hin) as (s' & Hin' & Hid' & Hu'). exists s'.
    split; [done|]. split; congruence.
  - eapply Forall_impl; [exact Hall|]. intros p [(t & [Hf|Hf])|(s & u & t & Hin & ->)].
    + destruct (Hseq t) as [H1 _]. rewrite H1 in Hf. destruct Hf.
    + destruct (Hseq t) as [_ H2]. rewrite H2 in Hf. destruct Hf.
    + destruct (Hkept s Hin) as (s' & Hin' & Hid' & Hu'). by exists s'.
Qed.

(** The two posts of the first subscription, after it was deleted. *)
Lemma posts_belong_to_subscriptions_witness :
  map IPost.subscriptionId (posts worldRefreshedDeleted) = [1%nat; 1%nat] /\
  map ISubscription.isActive (subscriptions worldRefreshedDeleted) = [false; true] /\
  Forall (belongs worldRefreshedDeleted) (posts worldRefreshedDeleted).
Proof.
  split; [reflexivity|]. split; [reflexivity|].
  apply posts_belong_to_subscriptions.
  apply (alone_step (Server.DeleteSubscription (Some 1%nat) 7%nat)); [|done].
  apply (alone_step
           (Server.RefreshSubscription tsBuild apiAcme sequential (Some 1%nat) 7%nat));
    [|done].
  apply (alone_step (Server.CreateSubscription apiAcme 7%nat (bodyOf "beta"))); [|done].
  apply (alone_step (Server.CreateSubscription apiAcme 7%nat bodyAcme)); [|done].
  apply alone_start.
Defined.
